(** * Feature-matching orchestration of [src/feature/matching.cc]

    A shallow embedding of the pair-enumeration strategies, the matcher
    workers and the dispatch loop [SiftFeatureMatcher::Match], together with
    the properties the specification states about them.

    Conventions.
    - [image_t] (uint32) and [image_pair_t] (uint64) are only compared, never
      computed with, and are embedded as [N].
    - [size_t] loop counters range over vector sizes and are embedded as [nat];
      the places where the source mixes [int] and [size_t] are written out on
      [Z] with the conversion modulo [2^64].
    - Code of the repository that lives outside [matching.cc] (the database,
      the descriptor cache, the job queue, the matching kernels) is reached
      through the interface [External] or modelled from the specification,
      and is marked as such. *)

From Stdlib Require Import ZArith NArith List Bool Lia Ascii String.
From Stdlib Require Import Floats.SpecFloat.
From stdpp Require Import base option list sets gmap strings sorting.

Set Default Proof Using "Type".

(** ** Identifiers and payloads *)

Abbreviation image_t := N (only parsing).
Abbreviation image_pair_t := N (only parsing).

(** [FeatureMatch]: a correspondence between a feature of the first image
    and a feature of the second one. *)
Record FeatureMatch := { line_idx1 : N; line_idx2 : N }.

Abbreviation FeatureMatches := (list FeatureMatch) (only parsing).

(** [internal::FeatureMatcherData], the payload of both queues. *)
Record FeatureMatcherData := {
  image_id1 : image_t;
  image_id2 : image_t;
  matches : list FeatureMatch
}.

Definition set_matches (d : FeatureMatcherData) (m : list FeatureMatch)
  : FeatureMatcherData :=
  {| image_id1 := image_id1 d; image_id2 := image_id2 d; matches := m |}.

(** The fields of [SiftMatchingOptions] that [matching.cc] reads. *)
Record SiftMatchingOptions := {
  min_num_matches : Z;   (* int *)
  max_num_matches : Z;   (* int *)
  num_threads : Z;       (* int *)
  use_gpu : bool;
  gpu_index : string
}.

(** Conversion of an [int] to [size_t], as in
    [static_cast<size_t>(options_.min_num_matches)] and in the implicit
    conversion of [matches.size() < options_.min_num_matches]. *)
Definition to_size_t (z : Z) : Z := (z mod 2 ^ 64)%Z.

(** The values of a 32-bit [int]. *)
Definition is_int (z : Z) : Prop := (- 2 ^ 31 <= z < 2 ^ 31)%Z.

(** [matches.size() < min_num_matches], compared as [size_t]. *)
Definition size_lt_int (m : list FeatureMatch) (i : Z) : bool :=
  (Z.of_nat (length m) <? to_size_t i)%Z.

(** ** Outcomes of code that can abort or block *)

Inductive result (A : Type) : Type :=
| Ok (a : A)
| CheckFailed      (* a CHECK macro aborted the process *)
| OutOfRange       (* std::vector::at threw *)
| Blocked.         (* a blocking call can never return *)

Arguments Ok {A} a.
Arguments CheckFailed {A}.
Arguments OutOfRange {A}.
Arguments Blocked {A}.

Definition result_bind {A B} (r : result A) (k : A -> result B) : result B :=
  match r with
  | Ok a => k a
  | CheckFailed => CheckFailed
  | OutOfRange => OutOfRange
  | Blocked => Blocked
  end.

#[global] Instance result_mbind : MBind result :=
  fun A B k r => result_bind r k.
#[global] Instance result_mret : MRet result := fun A a => Ok a.

(** [mapM] for [result]: the first failure ends the traversal. *)
Fixpoint result_mapM {A B} (f : A -> result B) (l : list A) : result (list B) :=
  match l with
  | [] => Ok []
  | x :: l => y ← f x; ys ← result_mapM f l; Ok (y :: ys)
  end.

(** ** The job queue *)

(** Modelled from the spec: [JobQueue<T>] of util/threading.h is not part of
    the file.  The queue is a FIFO with a terminal "stopped" state; [Push]
    reports failure on a stopped queue; [Pop] hands out the oldest element in
    a valid envelope, an invalid envelope when the queue is stopped and empty,
    and otherwise has to wait. *)
Record JobQueue (T : Type) := { jobs_ : list T; stop_ : bool }.

Arguments jobs_ {T} _.
Arguments stop_ {T} _.

Definition JobQueue_new {T} : JobQueue T := {| jobs_ := []; stop_ := false |}.

Definition JobQueue_Size {T} (q : JobQueue T) : nat := length (jobs_ q).

Definition JobQueue_Push {T} (q : JobQueue T) (x : T) : bool * JobQueue T :=
  if stop_ q then (false, q)
  else (true, {| jobs_ := jobs_ q ++ [x]; stop_ := false |}).

(** [Some (Some x)]: a valid job; [Some None]: the invalid envelope;
    [None]: the caller has to wait. *)
Definition JobQueue_TryPop {T} (q : JobQueue T)
  : option (option T * JobQueue T) :=
  match jobs_ q with
  | x :: rest => Some (Some x, {| jobs_ := rest; stop_ := stop_ q |})
  | [] => if stop_ q then Some (None, q) else None
  end.

(** ** Collaborators outside [matching.cc] *)

(** The database behind [FeatureMatcherCache], the canonical pair id and the
    two matching kernels.  [Cache] is the state of the cache object together
    with the database it fronts. *)
Class External := {
  Cache : Type;
  FeatureDescriptors : Type;
  SiftMatchGPU : Type;
  (* Database::ImagePairToPairId *)
  ImagePairToPairId : image_t -> image_t -> image_pair_t;
  (* FeatureMatcherCache::GetDescriptors: reads through the LRU cache *)
  GetDescriptors : Cache -> image_t -> FeatureDescriptors * Cache;
  (* FeatureMatcherCache::ExistsMatches *)
  ExistsMatches : Cache -> image_t -> image_t -> bool;
  (* FeatureMatcherCache::WriteMatches *)
  WriteMatches : Cache -> image_t -> image_t -> list FeatureMatch -> Cache;
  (* MatchSiftFeaturesCPU *)
  MatchSiftFeaturesCPU :
    SiftMatchingOptions -> FeatureDescriptors -> FeatureDescriptors ->
    list FeatureMatch;
  (* MatchSiftFeaturesGPU: a null operand reuses the data on the device *)
  MatchSiftFeaturesGPU :
    SiftMatchingOptions -> option FeatureDescriptors ->
    option FeatureDescriptors -> SiftMatchGPU ->
    SiftMatchGPU * list FeatureMatch
}.

(** Modelled from the spec: [Database::ExistsMatches] is not part of the
    file.  The database holds at most one match record for an unordered pair
    and keys it by the canonical pair id, so whether a record exists depends
    on the pair only through that id. *)
Definition ExistsMatches_by_pair_id `{External} : Prop :=
  forall (c : Cache) (a b a' b' : image_t),
    ImagePairToPairId a b = ImagePairToPairId a' b' ->
    ExistsMatches c a b = ExistsMatches c a' b'.

(** ** The matcher workers *)

Section Workers.
Context `{External}.

(** One turn of the loop of [SiftCPUFeatureMatcher::Run] on a valid input
    job: both descriptor sets are fetched, the kernel runs, and a result
    below the threshold is replaced by the empty match set. *)
Definition SiftCPUFeatureMatcher_Run_job (options_ : SiftMatchingOptions)
    (cache : Cache) (data : FeatureMatcherData)
  : Cache * FeatureMatcherData :=
  let '(descriptors1, cache) := GetDescriptors cache (image_id1 data) in
  let '(descriptors2, cache) := GetDescriptors cache (image_id2 data) in
  let data :=
    set_matches data (MatchSiftFeaturesCPU options_ descriptors1 descriptors2) in
  let data :=
    if size_lt_int (matches data) (min_num_matches options_)
    then set_matches data []
    else data in
  (cache, data).

(** The state a [SiftGPUFeatureMatcher] keeps between jobs: per operand
    slot the id and the descriptors uploaded last, and the device. *)
Record SiftGPUFeatureMatcher := {
  prev_uploaded_image_ids_ : image_t * image_t;
  prev_uploaded_descriptors_ : FeatureDescriptors * FeatureDescriptors;
  sift_match_gpu : SiftMatchGPU
}.

(** [kInvalidImageId] is the largest [image_t]. *)
Definition kInvalidImageId : image_t := (2 ^ 32 - 1)%N.

(** The constructor leaves both slots invalid; the descriptor members start
    out as empty matrices. *)
Definition SiftGPUFeatureMatcher_new (dev : SiftMatchGPU)
    (empty : FeatureDescriptors) : SiftGPUFeatureMatcher :=
  {| prev_uploaded_image_ids_ := (kInvalidImageId, kInvalidImageId);
     prev_uploaded_descriptors_ := (empty, empty);
     sift_match_gpu := dev |}.

(** Array access [a[index]] for the two-element member arrays. *)
Definition slot_get {A} (index : Z) (a : A * A) : A :=
  if (index =? 0)%Z then fst a else snd a.

Definition slot_set {A} (index : Z) (x : A) (a : A * A) : A * A :=
  if (index =? 0)%Z then (x, snd a) else (fst a, x).

(** The out-parameter of [GetDescriptorData]: null, or the address of
    [prev_uploaded_descriptors_[index]]. *)
Inductive descriptors_ptr : Type :=
| nullptr
| slot_address (index : Z).

Definition deref (g : SiftGPUFeatureMatcher) (p : descriptors_ptr)
  : option FeatureDescriptors :=
  match p with
  | nullptr => None
  | slot_address index => Some (slot_get index (prev_uploaded_descriptors_ g))
  end.

(** [SiftGPUFeatureMatcher::GetDescriptorData].  Besides the pointer and the
    new states, the result lists the queries made to the cache. *)
Definition GetDescriptorData (index : Z) (image_id : image_t)
    (g : SiftGPUFeatureMatcher) (cache : Cache)
  : result (descriptors_ptr * SiftGPUFeatureMatcher * Cache * list image_t) :=
  if negb (0 <=? index)%Z then CheckFailed
  else if negb (index <=? 1)%Z then CheckFailed
  else if (slot_get index (prev_uploaded_image_ids_ g) =? image_id)%N then
    Ok (nullptr, g, cache, [])
  else
    let '(descriptors, cache) := GetDescriptors cache image_id in
    let g :=
      {| prev_uploaded_image_ids_ := prev_uploaded_image_ids_ g;
         prev_uploaded_descriptors_ :=
           slot_set index descriptors (prev_uploaded_descriptors_ g);
         sift_match_gpu := sift_match_gpu g |} in
    let ptr := slot_address index in
    let g :=
      {| prev_uploaded_image_ids_ :=
           slot_set index image_id (prev_uploaded_image_ids_ g);
         prev_uploaded_descriptors_ := prev_uploaded_descriptors_ g;
         sift_match_gpu := sift_match_gpu g |} in
    Ok (ptr, g, cache, [image_id]).

(** One turn of the loop of [SiftGPUFeatureMatcher::Run] on a valid job. *)
Definition SiftGPUFeatureMatcher_Run_job (options_ : SiftMatchingOptions)
    (g : SiftGPUFeatureMatcher) (cache : Cache) (data : FeatureMatcherData)
  : result (SiftGPUFeatureMatcher * Cache * FeatureMatcherData) :=
  '(descriptors1_ptr, g, cache, _) ← GetDescriptorData 0 (image_id1 data) g cache;
  '(descriptors2_ptr, g, cache, _) ← GetDescriptorData 1 (image_id2 data) g cache;
  let '(dev, m) :=
    MatchSiftFeaturesGPU options_ (deref g descriptors1_ptr)
      (deref g descriptors2_ptr) (sift_match_gpu g) in
  let g :=
    {| prev_uploaded_image_ids_ := prev_uploaded_image_ids_ g;
       prev_uploaded_descriptors_ := prev_uploaded_descriptors_ g;
       sift_match_gpu := dev |} in
  let data := set_matches data m in
  let data :=
    if size_lt_int (matches data) (min_num_matches options_)
    then set_matches data []
    else data in
  Ok (g, cache, data).

End Workers.

(** ** The matcher pool and its dispatch primitive *)

(** What [SiftFeatureMatcher::Match] does to its collaborators, in order. *)
Inductive Event : Type :=
| ExistsMatchesCall (a b : image_t)
| PushJob (d : FeatureMatcherData)            (* matcher_queue_.Push *)
| PopResult (d : FeatureMatcherData)          (* output_queue_.Pop *)
| WriteMatchesCall (a b : image_t) (m : list FeatureMatch).

Definition pushed_jobs (tr : list Event) : list FeatureMatcherData :=
  omap (fun e => match e with PushJob d => Some d | _ => None end) tr.

Definition popped_results (tr : list Event) : list FeatureMatcherData :=
  omap (fun e => match e with PopResult d => Some d | _ => None end) tr.

Definition written_matches (tr : list Event)
  : list (image_t * image_t * list FeatureMatch) :=
  omap (fun e => match e with
                 | WriteMatchesCall a b m => Some (a, b, m)
                 | _ => None
                 end) tr.

Definition database_calls (tr : list Event) : list Event :=
  List.filter (fun e => match e with
                        | ExistsMatchesCall _ _ | WriteMatchesCall _ _ _ => true
                        | _ => false
                        end) tr.

Section Pool.
Context `{External}.

Inductive MatcherThread : Type :=
| CPUMatcher
| GPUMatcher (g : SiftGPUFeatureMatcher).

Record SiftFeatureMatcher := {
  options_ : SiftMatchingOptions;
  cache_ : Cache;
  is_setup_ : bool;
  matchers_ : list MatcherThread;
  matcher_queue_ : JobQueue FeatureMatcherData;
  output_queue_ : JobQueue FeatureMatcherData
}.

Definition with_cache (s : SiftFeatureMatcher) (c : Cache) :=
  {| options_ := options_ s; cache_ := c; is_setup_ := is_setup_ s;
     matchers_ := matchers_ s; matcher_queue_ := matcher_queue_ s;
     output_queue_ := output_queue_ s |}.

Definition with_matcher_queue (s : SiftFeatureMatcher)
    (q : JobQueue FeatureMatcherData) :=
  {| options_ := options_ s; cache_ := cache_ s; is_setup_ := is_setup_ s;
     matchers_ := matchers_ s; matcher_queue_ := q;
     output_queue_ := output_queue_ s |}.

Definition with_output_queue (s : SiftFeatureMatcher)
    (q : JobQueue FeatureMatcherData) :=
  {| options_ := options_ s; cache_ := cache_ s; is_setup_ := is_setup_ s;
     matchers_ := matchers_ s; matcher_queue_ := matcher_queue_ s;
     output_queue_ := q |}.

(** The loop body of the worker [m] on one job. *)
Definition MatcherThread_Run_job (opts : SiftMatchingOptions)
    (m : MatcherThread) (cache : Cache) (job : FeatureMatcherData)
  : result (MatcherThread * Cache * FeatureMatcherData) :=
  match m with
  | CPUMatcher =>
      let '(cache, data) := SiftCPUFeatureMatcher_Run_job opts cache job in
      Ok (CPUMatcher, cache, data)
  | GPUMatcher g =>
      '(g, cache, data) ← SiftGPUFeatureMatcher_Run_job opts g cache job;
      Ok (GPUMatcher g, cache, data)
  end.

(** The worker threads run concurrently with the driver.  The embedding lets
    them act while the driver waits for a result: one of the jobs of the
    input queue is completed by one of the workers and its result is pushed
    to the output queue.  Which job and which worker is decided by [choice],
    so that results can arrive in any order; a job stays listed in the input
    queue until its result is pushed. *)
Definition workers_complete_one (choice : nat * nat) (s : SiftFeatureMatcher)
  : result SiftFeatureMatcher :=
  let pending := jobs_ (matcher_queue_ s) in
  let k := fst choice `mod` length pending in
  let w := snd choice `mod` length (matchers_ s) in
  match pending !! k, matchers_ s !! w with
  | Some job, Some m =>
      '(m, cache, data) ← MatcherThread_Run_job (options_ s) m (cache_ s) job;
      let '(ok, output_queue) := JobQueue_Push (output_queue_ s) data in
      if ok then
        Ok {| options_ := options_ s; cache_ := cache; is_setup_ := is_setup_ s;
              matchers_ := <[w := m]> (matchers_ s);
              matcher_queue_ := {| jobs_ := delete k pending;
                                   stop_ := stop_ (matcher_queue_ s) |};
              output_queue_ := output_queue |}
      else CheckFailed
  | _, _ => Blocked
  end.

(** The blocking [output_queue_.Pop()] of the driver: an available result is
    handed out at once; otherwise the driver waits for the workers, and waits
    for ever when no job is in flight. *)
Definition output_queue_Pop (choice : nat * nat) (s : SiftFeatureMatcher)
  : result (option FeatureMatcherData * SiftFeatureMatcher) :=
  match JobQueue_TryPop (output_queue_ s) with
  | Some (job, q) => Ok (job, with_output_queue s q)
  | None =>
      s ← workers_complete_one choice s;
      match JobQueue_TryPop (output_queue_ s) with
      | Some (job, q) => Ok (job, with_output_queue s q)
      | None => Blocked
      end
  end.

(** First loop of [Match]: filter the pairs and push the jobs. *)
Fixpoint Match_push_jobs (image_pairs : list (image_t * image_t))
    (image_pair_ids : gset image_pair_t) (num_outputs : nat)
    (s : SiftFeatureMatcher)
  : result (nat * SiftFeatureMatcher * list Event) :=
  match image_pairs with
  | [] => Ok (num_outputs, s, [])
  | image_pair :: rest =>
      (* Avoid self-matches. *)
      if (fst image_pair =? snd image_pair)%N then
        Match_push_jobs rest image_pair_ids num_outputs s
      else
        (* Avoid duplicate image pairs. *)
        let pair_id := ImagePairToPairId (fst image_pair) (snd image_pair) in
        if decide (pair_id ∈ image_pair_ids) then
          Match_push_jobs rest image_pair_ids num_outputs s
        else
          let image_pair_ids := {[pair_id]} ∪ image_pair_ids in
          let exists_matches :=
            ExistsMatches (cache_ s) (fst image_pair) (snd image_pair) in
          let call := ExistsMatchesCall (fst image_pair) (snd image_pair) in
          if exists_matches then
            '(n, s, tr) ← Match_push_jobs rest image_pair_ids num_outputs s;
            Ok (n, s, call :: tr)
          else
            let num_outputs := num_outputs + 1 in
            let data := {| image_id1 := fst image_pair;
                           image_id2 := snd image_pair;
                           matches := [] |} in
            let '(ok, q) := JobQueue_Push (matcher_queue_ s) data in
            if ok then
              '(n, s, tr) ← Match_push_jobs rest image_pair_ids num_outputs
                              (with_matcher_queue s q);
              Ok (n, s, call :: PushJob data :: tr)
            else CheckFailed
  end.

(** Second loop of [Match]: pop [num_outputs] results, starting with the
    [i]-th, and write each of them. *)
Fixpoint Match_write_results (sched : nat -> nat * nat) (i remaining : nat)
    (s : SiftFeatureMatcher) : result (SiftFeatureMatcher * list Event) :=
  match remaining with
  | O => Ok (s, [])
  | S remaining =>
      '(output_job, s) ← output_queue_Pop (sched i) s;
      match output_job with
      | None => CheckFailed
      | Some popped =>
          let output :=
            if size_lt_int (matches popped) (min_num_matches (options_ s))
            then set_matches popped []
            else popped in
          let s :=
            with_cache s (WriteMatches (cache_ s) (image_id1 output)
                            (image_id2 output) (matches output)) in
          '(s, tr) ← Match_write_results sched (S i) remaining s;
          Ok (s, PopResult popped
                 :: WriteMatchesCall (image_id1 output) (image_id2 output)
                      (matches output)
                 :: tr)
      end
  end.

(** [SiftFeatureMatcher::Match].  [sched] resolves the order in which the
    workers deliver their results. *)
Definition Match (sched : nat -> nat * nat)
    (image_pairs : list (image_t * image_t)) (s : SiftFeatureMatcher)
  : result (SiftFeatureMatcher * list Event) :=
  if negb (is_setup_ s) then CheckFailed
  else
    match image_pairs with
    | [] => Ok (s, [])
    | _ :: _ =>
        '(num_outputs, s, tr1) ← Match_push_jobs image_pairs ∅ 0 s;
        '(s, tr2) ← Match_write_results sched 0 num_outputs s;
        if (JobQueue_Size (output_queue_ s) =? 0)%nat then Ok (s, tr1 ++ tr2)
        else CheckFailed
    end.

(** What the constructors take from outside the file:
    [SiftMatchingOptions::Check], [GetEffectiveNumThreads], the parser
    [CSVToVector<int>], [std::to_string], whether the build has CUDA,
    [GetNumCudaDevices], and the device object [CreateSiftGPUMatcher] makes
    for the options of a GPU worker. *)
Record Platform := {
  SiftMatchingOptions_Check : SiftMatchingOptions -> bool;
  GetEffectiveNumThreads : Z -> Z;
  CSVToVector : string -> list Z;
  to_string : Z -> string;
  CUDA_ENABLED : bool;
  GetNumCudaDevices : Z;
  CreateSiftGPUMatcher : SiftMatchingOptions -> SiftMatchGPU
}.

(** [gpu_options.gpu_index = std::to_string(gpu_index)]. *)
Definition with_gpu_index (options : SiftMatchingOptions) (index : string)
  : SiftMatchingOptions :=
  {| min_num_matches := min_num_matches options;
     max_num_matches := max_num_matches options;
     num_threads := num_threads options;
     use_gpu := use_gpu options;
     gpu_index := index |}.

(** The constructor of a CPU worker: [CHECK(options_.Check())]. *)
Definition SiftCPUFeatureMatcher_ctor (platform : Platform)
    (options : SiftMatchingOptions) : result MatcherThread :=
  if negb (SiftMatchingOptions_Check platform options) then CheckFailed
  else Ok CPUMatcher.

(** The constructor of a GPU worker: [CHECK(options_.Check())], then both
    slots are set to [kInvalidImageId].  [empty] stands for a
    default-constructed descriptor matrix. *)
Definition SiftGPUFeatureMatcher_ctor (platform : Platform)
    (options : SiftMatchingOptions) (empty : FeatureDescriptors)
  : result MatcherThread :=
  if negb (SiftMatchingOptions_Check platform options) then CheckFailed
  else
    Ok (GPUMatcher
          (SiftGPUFeatureMatcher_new (CreateSiftGPUMatcher platform options)
             empty)).

(** [gpu_indices] of the constructor of the pool: the indices parsed from
    [options_.gpu_index], of which there must be one at least; in a build
    with CUDA, with [use_gpu] and the single index [-1], the indices of all
    CUDA devices, of which there must be one at least. *)
Definition constructor_gpu_indices (platform : Platform)
    (options : SiftMatchingOptions) : result (list Z) :=
  let gpu_indices := CSVToVector platform (gpu_index options) in
  if negb (0 <? length gpu_indices) then CheckFailed
  else if CUDA_ENABLED platform && use_gpu options
          && bool_decide (gpu_indices = [(-1)%Z]) then
    let num_cuda_devices := GetNumCudaDevices platform in
    if negb (0 <? num_cuda_devices)%Z then CheckFailed
    else Ok (map Z.of_nat (seq 0 (Z.to_nat num_cuda_devices)))
  else Ok gpu_indices.

(** The constructor of the pool: the options are checked, the effective
    number of threads must be positive, and there is one GPU worker for
    every GPU index when [use_gpu] is set and one CPU worker for every
    thread otherwise; both queues start empty and the pool is not set up. *)
Definition SiftFeatureMatcher_new (platform : Platform)
    (options : SiftMatchingOptions) (cache : Cache)
    (empty : FeatureDescriptors) : result SiftFeatureMatcher :=
  if negb (SiftMatchingOptions_Check platform options) then CheckFailed
  else
    let effective_num_threads :=
      GetEffectiveNumThreads platform (num_threads options) in
    if negb (0 <? effective_num_threads)%Z then CheckFailed
    else
      gpu_indices ← constructor_gpu_indices platform options;
      matchers ←
        (if use_gpu options then
           result_mapM
             (fun index =>
                SiftGPUFeatureMatcher_ctor platform
                  (with_gpu_index options (to_string platform index)) empty)
             gpu_indices
         else
           result_mapM (fun _ => SiftCPUFeatureMatcher_ctor platform options)
             (seq 0 (Z.to_nat effective_num_threads)));
      Ok {| options_ := options; cache_ := cache; is_setup_ := false;
            matchers_ := matchers;
            matcher_queue_ := JobQueue_new;
            output_queue_ := JobQueue_new |}.

(** [SiftFeatureMatcher::Setup].  [max_num_features] is what
    [MaxNumDescriptors()] returns and [valid_setup] tells whether every
    worker signalled a valid setup. *)
Definition Setup (max_num_features : Z) (valid_setup : bool)
    (s : SiftFeatureMatcher) : bool * SiftFeatureMatcher :=
  let options :=
    {| min_num_matches := min_num_matches (options_ s);
       max_num_matches := Z.min (max_num_matches (options_ s)) max_num_features;
       num_threads := num_threads (options_ s);
       use_gpu := use_gpu (options_ s);
       gpu_index := gpu_index (options_ s) |} in
  (valid_setup,
   {| options_ := options; cache_ := cache_ s;
      is_setup_ := if valid_setup then true else is_setup_ s;
      matchers_ := matchers_ s; matcher_queue_ := matcher_queue_ s;
      output_queue_ := output_queue_ s |}).

(** Successive calls of [Match], as a strategy makes them. *)
Fixpoint Match_calls (calls : list ((nat -> nat * nat) * list (image_t * image_t)))
    (s : SiftFeatureMatcher) : result (SiftFeatureMatcher * list Event) :=
  match calls with
  | [] => Ok (s, [])
  | (sched, image_pairs) :: calls =>
      '(s, tr1) ← Match sched image_pairs s;
      '(s, tr2) ← Match_calls calls s;
      Ok (s, tr1 ++ tr2)
  end.

(** The state of the pool between two calls of [Match]: set up, at least one
    worker, both queues running and empty.  The constructor and [Setup]
    establish it. *)
Definition pool_idle (s : SiftFeatureMatcher) : Prop :=
  is_setup_ s = true /\ matchers_ s <> [] /\
  matcher_queue_ s = JobQueue_new /\ output_queue_ s = JobQueue_new.

(** The state of the pool while [Match] collects results: the output queue
    is running and empty, and [n] jobs are in flight. *)
Definition pool_draining (n : nat) (s : SiftFeatureMatcher) : Prop :=
  output_queue_ s = JobQueue_new /\ stop_ (matcher_queue_ s) = false /\
  length (jobs_ (matcher_queue_ s)) = n /\ matchers_ s <> [].

(** The jobs [Match] enqueues, in the words of the specification: the pairs
    with distinct ends and without matches in the database, of which the
    first occurrence of every pair id is kept. *)
Fixpoint first_occurrences (seen : gset image_pair_t)
    (l : list (image_t * image_t)) : list (image_t * image_t) :=
  match l with
  | [] => []
  | p :: rest =>
      let pair_id := ImagePairToPairId (fst p) (snd p) in
      if decide (pair_id ∈ seen) then first_occurrences seen rest
      else p :: first_occurrences ({[pair_id]} ∪ seen) rest
  end.

Definition spec_enqueued (c : Cache) (P : list (image_t * image_t))
  : list (image_t * image_t) :=
  first_occurrences ∅
    (List.filter (fun p => negb (fst p =? snd p)%N
                           && negb (ExistsMatches c (fst p) (snd p))) P).

Definition new_job (p : image_t * image_t) : FeatureMatcherData :=
  {| image_id1 := fst p; image_id2 := snd p; matches := [] |}.

(** The pairs the first loop of [Match] turns into jobs, when it starts with
    the pair ids [image_pair_ids] and the cache [c]. *)
Fixpoint Match_enqueued (c : Cache) (image_pair_ids : gset image_pair_t)
    (image_pairs : list (image_t * image_t)) : list (image_t * image_t) :=
  match image_pairs with
  | [] => []
  | image_pair :: rest =>
      if (fst image_pair =? snd image_pair)%N then
        Match_enqueued c image_pair_ids rest
      else
        let pair_id := ImagePairToPairId (fst image_pair) (snd image_pair) in
        if decide (pair_id ∈ image_pair_ids) then
          Match_enqueued c image_pair_ids rest
        else if ExistsMatches c (fst image_pair) (snd image_pair) then
          Match_enqueued c ({[pair_id]} ∪ image_pair_ids) rest
        else
          image_pair :: Match_enqueued c ({[pair_id]} ∪ image_pair_ids) rest
  end.

(** What [Match] writes for a popped result: the matches are dropped when
    they are fewer than [min_num_matches]. *)
Definition written_for (opts : SiftMatchingOptions) (d : FeatureMatcherData)
  : image_t * image_t * list FeatureMatch :=
  (image_id1 d, image_id2 d,
   if size_lt_int (matches d) (min_num_matches opts) then [] else matches d).

(** A match set that respects the threshold: empty, or of at least
    [min_num_matches] elements. *)
Definition respects_threshold (opts : SiftMatchingOptions)
    (m : list FeatureMatch) : Prop :=
  m = [] \/ (min_num_matches opts <= Z.of_nat (length m))%Z.

End Pool.

(** ** Exhaustive matching *)

(** The strategies below are embedded with [IsStopped()] false throughout:
    they describe a run that is not cancelled. *)

(** [for (start = start0; start < num_images; start += block_size)]: the
    values [start] takes.  [fuel] bounds the number of turns. *)
Fixpoint block_starts (fuel start num_images block_size : nat) : list nat :=
  match fuel with
  | O => []
  | S fuel =>
      if start <? num_images
      then start :: block_starts fuel (start + block_size) num_images block_size
      else []
  end.

(** The test that guards [image_pairs.emplace_back] in
    [ExhaustiveFeatureMatcher::Run]. *)
Definition exhaustive_emit (block_size idx1 idx2 : nat) : bool :=
  let block_id1 := idx1 mod block_size in
  let block_id2 := idx2 mod block_size in
  ((idx2 <? idx1) && (block_id1 <=? block_id2))
  || ((idx1 <? idx2) && (block_id1 <? block_id2)).

(** The index pairs collected in the block iteration that starts at
    [(start_idx1, start_idx2)]. *)
Definition Exhaustive_block_pairs (num_images block_size start_idx1 start_idx2 : nat)
  : list (nat * nat) :=
  let end_idx1 := Nat.min num_images (start_idx1 + block_size) - 1 in
  let end_idx2 := Nat.min num_images (start_idx2 + block_size) - 1 in
  idx1 ← seq start_idx1 (S end_idx1 - start_idx1);
  idx2 ← seq start_idx2 (S end_idx2 - start_idx2);
  if exhaustive_emit block_size idx1 idx2 then [(idx1, idx2)] else [].

(** All block iterations of one run, in order. *)
Definition Exhaustive_Run_blocks (num_images block_size : nat)
  : list (list (nat * nat)) :=
  start_idx1 ← block_starts num_images 0 num_images block_size;
  start_idx2 ← block_starts num_images 0 num_images block_size;
  [Exhaustive_block_pairs num_images block_size start_idx1 start_idx2].

(** Everything one run collects, over all block iterations. *)
Definition Exhaustive_Run_pairs (num_images block_size : nat)
  : list (nat * nat) :=
  concat (Exhaustive_Run_blocks num_images block_size).

(** The last index of the block that starts at [start]. *)
Definition block_end (num_images block_size start : nat) : nat :=
  Nat.min num_images (start + block_size) - 1.

(** [image_ids[idx]] for an index inside the vector. *)
Definition image_at (image_ids : list image_t) (idx : nat) : image_t :=
  nth idx image_ids 0%N.

Definition image_pairs_of (image_ids : list image_t) (l : list (nat * nat))
  : list (image_t * image_t) :=
  map (fun p => (image_at image_ids (fst p), image_at image_ids (snd p))) l.

(** The arguments of the successive calls of [matcher_.Match] in
    [ExhaustiveFeatureMatcher::Run]. *)
Definition ExhaustiveFeatureMatcher_Run (image_ids : list image_t)
    (block_size : nat) : list (list (image_t * image_t)) :=
  map (image_pairs_of image_ids)
      (Exhaustive_Run_blocks (length image_ids) block_size).

(** An unordered pair, written with the smaller index first. *)
Definition unordered (p : nat * nat) : nat * nat :=
  (Nat.min (fst p) (snd p), Nat.max (fst p) (snd p)).

(** All pairs [(i, j)] with [i < j < n]. *)
Definition all_pairs (n : nat) : list (nat * nat) :=
  i ← seq 0 n; j ← seq (S i) (n - S i); [(i, j)].

(** ** Sequential matching *)

(** Wrap-around of a 32-bit [int]. *)
Definition to_int (z : Z) : Z := ((z + 2 ^ 31) mod 2 ^ 32 - 2 ^ 31)%Z.

(** [1 << i] on [int].  C++ defines the value for [0 <= i <= 30] only. *)
Definition shl1 (i : Z) : Z := to_int (Z.shiftl 1 i).

(** The inner loop of [RunSequentialMatching] for the image at position
    [image_idx1], from the counter [i] on: the positions that are paired. *)
Fixpoint sequential_loop (fuel : nat) (i : Z) (overlap : Z)
    (quadratic_overlap : bool) (num_images image_idx1 : Z) : list (Z * Z) :=
  match fuel with
  | O => []
  | S fuel =>
      if (i <? overlap)%Z then
        let image_idx2 := to_size_t (image_idx1 + i) in
        if (image_idx2 <? num_images)%Z then
          (image_idx1, image_idx2)
          :: (if quadratic_overlap then
                let image_idx2_quadratic := to_size_t (image_idx1 + shl1 i) in
                if (image_idx2_quadratic <? num_images)%Z
                then [(image_idx1, image_idx2_quadratic)]
                else []
              else [])
          ++ sequential_loop fuel (i + 1) overlap quadratic_overlap
               num_images image_idx1
        else []
      else []
  end.

Definition sequential_positions (overlap : Z) (quadratic_overlap : bool)
    (num_images image_idx1 : Z) : list (Z * Z) :=
  sequential_loop (Z.to_nat overlap) 0 overlap quadratic_overlap
    num_images image_idx1.

(** The argument of [matcher_.Match] for the image at [image_idx1]. *)
Definition RunSequentialMatching_pairs (overlap : Z) (quadratic_overlap : bool)
    (image_ids : list image_t) (image_idx1 : nat) : list (image_t * image_t) :=
  map (fun p => (image_at image_ids (Z.to_nat (fst p)),
                 image_at image_ids (Z.to_nat (snd p))))
      (sequential_positions overlap quadratic_overlap
         (Z.of_nat (length image_ids)) (Z.of_nat image_idx1)).

(** The pairs the specification lists for position [i]: [(i, i+k)] for
    [1 <= k <= overlap], and with quadratic overlap also [(i, i+2^k)] for
    [0 <= k < overlap], as long as the partner is below [num_images]. *)
Definition spec_sequential_pair (overlap : Z) (quadratic_overlap : bool)
    (num_images i : Z) (p : Z * Z) : Prop :=
  fst p = i /\
  ((exists k, 1 <= k <= overlap /\ snd p = i + k /\ i + k < num_images)
   \/ (quadratic_overlap = true /\
       exists k, 0 <= k < overlap /\ snd p = i + 2 ^ k /\ i + 2 ^ k < num_images))%Z.

(** What the loop pairs position [i] with: the offsets of the linear part
    run over [0 <= k < overlap]. *)
Definition code_sequential_pair (overlap : Z) (quadratic_overlap : bool)
    (num_images i : Z) (p : Z * Z) : Prop :=
  fst p = i /\
  ((exists k, 0 <= k < overlap /\ snd p = i + k /\ i + k < num_images)
   \/ (quadratic_overlap = true /\
       exists k, 0 <= k < overlap /\ snd p = i + 2 ^ k /\ i + 2 ^ k < num_images))%Z.

(** ** Spatial matching *)

(** Squared distances are IEEE floats; [spec_float] carries their values,
    infinities and NaN. *)
Abbreviation float := spec_float (only parsing).

(** [x > y] on floats: false as soon as one side is NaN. *)
Definition float_gt (x y : float) : bool := SFltb y x.

(** [x <= y] on floats. *)
Definition float_le (x y : float) : bool := SFleb x y.

Definition is_nan (x : float) : bool :=
  match x with S754_nan => true | _ => false end.

(** [v.at(i)]: throws when [i] is not an index of [v]. *)
Definition vector_at {A} (v : list A) (i : nat) : result A :=
  match v !! i with
  | Some x => Ok x
  | None => OutOfRange
  end.

(** [knn = std::min<int>(max_num_neighbors, num_locations)]. *)
Definition spatial_knn (max_num_neighbors : Z) (num_locations : nat) : Z :=
  Z.min max_num_neighbors (to_int (Z.of_nat num_locations)).

Section Spatial.
(** The results of the nearest-neighbour search for all query locations
    (row [i], column [j]), the squared and rounded distance threshold
    [max_distance], the image ids and the positions [location_idxs] of the
    images that have a location. *)
Variable index_matrix : nat -> nat -> nat.
Variable distance_matrix : nat -> nat -> float.
Variable max_distance : float.
Variable image_ids : list image_t.
Variable location_idxs : list nat.

(** The loop over the neighbours of query location [i], from column [j] on,
    with [remaining] columns left. *)
Fixpoint spatial_neighbor_loop (remaining : nat) (i j : nat)
  : result (list (image_t * image_t)) :=
  match remaining with
  | O => Ok []
  | S remaining =>
      (* Check if query equals result. *)
      if index_matrix i j =? i then spatial_neighbor_loop remaining i (S j)
      (* Since the nearest neighbors are sorted by distance, we can break. *)
      else if float_gt (distance_matrix i j) max_distance then Ok []
      else
        let idx := nth i location_idxs 0 in
        image_id ← vector_at image_ids idx;
        nn_idx ← vector_at location_idxs (index_matrix i j);
        nn_image_id ← vector_at image_ids nn_idx;
        rest ← spatial_neighbor_loop remaining i (S j);
        Ok ((image_id, nn_image_id) :: rest)
  end.

(** The argument of [matcher_.Match] for query location [i]. *)
Definition Spatial_query_pairs (knn : Z) (i : nat)
  : result (list (image_t * image_t)) :=
  spatial_neighbor_loop (Z.to_nat knn) i 0.

(** The column at which the loop over the neighbours of [i] ends: the first
    one, from [j] on, that holds another location farther than the
    threshold; [j + remaining] when there is none. *)
Fixpoint spatial_stop_column (remaining : nat) (i j : nat) : nat :=
  match remaining with
  | O => j
  | S remaining =>
      if negb (index_matrix i j =? i)
         && float_gt (distance_matrix i j) max_distance
      then j
      else spatial_stop_column remaining i (S j)
  end.

(** The columns of query [i] for which the loop emits a pair: those before
    the stop column that hold another location. *)
Definition spatial_columns (knn : Z) (i : nat) : list nat :=
  filter (fun j => index_matrix i j <> i)
         (seq 0 (spatial_stop_column (Z.to_nat knn) i 0)).

(** The pair the loop emits for column [j] of query [i]. *)
Definition spatial_pair (i j : nat) : image_t * image_t :=
  (image_at image_ids (nth i location_idxs 0),
   image_at image_ids (nth (index_matrix i j) location_idxs 0)).

End Spatial.

(** ** Transitive matching *)

(** What a strategy does with the matcher pool and the database. *)
Inductive DriverEvent : Type :=
| TransactionBegin                               (* DatabaseTransaction ctor *)
| MatchCall (image_pairs : list (image_t * image_t))
| TransactionEnd.                                (* DatabaseTransaction dtor *)

(** One flush: [matcher_.Match(image_pairs)] inside a transaction scope. *)
Definition flush (image_pairs : list (image_t * image_t)) : list DriverEvent :=
  [TransactionBegin; MatchCall image_pairs; TransactionEnd].

(** [adjacency[k].push_back(v)]. *)
Definition adjacency_push_back (k v : image_t)
    (adjacency : gmap N (list N)) : gmap N (list N) :=
  <[k := default [] (adjacency !! k) ++ [v]]> adjacency.

Definition build_adjacency (existing_image_pairs : list (image_t * image_t))
  : gmap N (list N) :=
  foldl (fun adjacency image_pair =>
           adjacency_push_back (snd image_pair) (fst image_pair)
             (adjacency_push_back (fst image_pair) (snd image_pair) adjacency))
        ∅ existing_image_pairs.

Section Transitive.
Context `{External}.

(** The variables the walk enumeration of one iteration updates. *)
Record walk_state := {
  image_pairs : list (image_t * image_t);
  image_pair_ids : gset N;
  driver_log : list DriverEvent
}.

(** The body of the innermost loop for the walk [image_id1 -> _ -> image_id3]. *)
Definition visit_endpoint (batch_size : Z) (image_id1 image_id3 : image_t)
    (st : walk_state) : walk_state :=
  let image_pair_id := ImagePairToPairId image_id1 image_id3 in
  if decide (image_pair_id ∈ image_pair_ids st) then st
  else
    let pairs := image_pairs st ++ [(image_id1, image_id3)] in
    let ids := {[image_pair_id]} ∪ image_pair_ids st in
    if (to_size_t batch_size <=? Z.of_nat (length pairs))%Z then
      {| image_pairs := [];
         image_pair_ids := ids;
         driver_log := driver_log st ++ flush pairs |}
    else
      {| image_pairs := pairs;
         image_pair_ids := ids;
         driver_log := driver_log st |}.

(** The three nested loops over [adjacency]; [order] is the order in which
    the outer loop visits the entries of the unordered map. *)
Definition walk_loops (batch_size : Z) (adjacency : gmap N (list N))
    (order : list (image_t * list image_t)) (st : walk_state) : walk_state :=
  foldl (fun st image =>
    let image_id1 := fst image in
    foldl (fun st image_id2 =>
      match adjacency !! image_id2 with
      | Some third =>
          foldl (fun st image_id3 =>
                   visit_endpoint batch_size image_id1 image_id3 st)
                st third
      | None => st
      end) st (snd image)) st order.

(** One iteration of [TransitiveFeatureMatcher::Run] on the pairs read from
    the database: the flushes it makes, in order. *)
Definition Transitive_iteration_on (batch_size : Z)
    (adjacency : gmap N (list N)) (order : list (image_t * list image_t))
  : list DriverEvent :=
  let st := walk_loops batch_size adjacency order
              {| image_pairs := []; image_pair_ids := ∅; driver_log := [] |} in
  driver_log st ++ flush (image_pairs st).

Definition Transitive_iteration (batch_size : Z)
    (existing_image_pairs : list (image_t * image_t)) : list DriverEvent :=
  let adjacency := build_adjacency existing_image_pairs in
  Transitive_iteration_on batch_size adjacency (map_to_list adjacency).

(** The end points of the walks of length two, in the order of the loops. *)
Definition walk_endpoints (adjacency : gmap N (list N))
    (order : list (image_t * list image_t)) : list (image_t * image_t) :=
  image ← order;
  image_id2 ← snd image;
  image_id3 ← default [] (adjacency !! image_id2);
  [(fst image, image_id3)].

End Transitive.

(** ** Import of feature pairs *)

(** [std::isspace] in the C locale. *)
Definition is_space (c : ascii) : bool :=
  let n := nat_of_ascii c in (n =? 32) || ((9 <=? n) && (n <=? 13)).

Fixpoint skip_space (s : string) : string :=
  match s with
  | String c rest => if is_space c then skip_space rest else s
  | EmptyString => EmptyString
  end.

Fixpoint read_word (s : string) : string * string :=
  match s with
  | String c rest =>
      if is_space c then (EmptyString, s)
      else let '(w, rest) := read_word rest in (String c w, rest)
  | EmptyString => (EmptyString, EmptyString)
  end.

(** [stream >> word] for a [std::string]: leading white space is skipped and
    the characters up to the next white space are read; the word is empty
    when the stream holds nothing more.  The result is the word and the
    rest of the stream. *)
Definition extract_word (s : string) : string * string :=
  read_word (skip_space s).

Definition string_empty (s : string) : bool :=
  match s with EmptyString => true | String _ _ => false end.

(** What [FeaturePairsFeatureMatcher::Run] reports and writes. *)
Inductive ImportEvent : Type :=
| ReportImageNotFound (image_name : string)   (* "SKIP: Image ... not found in database." *)
| ReportMatchesExist                          (* "SKIP: Matches for image pair already exist in database." *)
| ImportWriteMatches (a b : image_t) (m : list FeatureMatch).

Definition import_writes (tr : list ImportEvent)
  : list (image_t * image_t * list FeatureMatch) :=
  omap (fun e => match e with
                 | ImportWriteMatches a b m => Some (a, b, m)
                 | _ => None
                 end) tr.

Section FeaturePairs.
Context `{External}.

(** [StringTrim] of util/string.h and the extraction of the two indices of a
    feature line are taken as given. *)
Variable StringTrim : string -> string.
Variable read_FeatureMatch : string -> FeatureMatch.

(** The inner [while (std::getline(file, line))]: the feature lines of a
    record, up to and including the blank line that ends it.  The result is
    the matches read and the lines that remain in the file. *)
Fixpoint read_feature_lines (lines : list string)
  : list FeatureMatch * list string :=
  match lines with
  | [] => ([], [])
  | line :: lines =>
      let line := StringTrim line in
      if string_empty line then ([], lines)
      else
        let '(matches, lines) := read_feature_lines lines in
        (read_FeatureMatch line :: matches, lines)
  end.

(** The outer [while (std::getline(file, line))] of
    [FeaturePairsFeatureMatcher::Run] on the lines that remain in the file.
    The string streams have no exception mask, so the two [catch] blocks
    are never entered.  Every turn takes at least one line; [fuel] bounds the
    number of turns. *)
Fixpoint FeaturePairs_loop (fuel : nat)
    (image_name_to_image : gmap string N) (lines : list string)
    (database : Cache) : Cache * list ImportEvent :=
  match fuel with
  | O => (database, [])
  | S fuel =>
      match lines with
      | [] => (database, [])
      | line :: lines =>
          let line := StringTrim line in
          if string_empty line then
            FeaturePairs_loop fuel image_name_to_image lines database
          else
            let '(image_name1, line_stream) := extract_word line in
            let '(image_name2, _) := extract_word line_stream in
            match image_name_to_image !! image_name1 with
            | None => (database, [ReportImageNotFound image_name1])   (* break *)
            | Some image1 =>
                match image_name_to_image !! image_name2 with
                | None => (database, [ReportImageNotFound image_name2]) (* break *)
                | Some image2 =>
                    let skip_pair := ExistsMatches database image1 image2 in
                    let '(matches, lines) := read_feature_lines lines in
                    if skip_pair then
                      let '(database, tr) :=
                        FeaturePairs_loop fuel image_name_to_image lines database in
                      (database, ReportMatchesExist :: tr)
                    else
                      let database := WriteMatches database image1 image2 matches in
                      let '(database, tr) :=
                        FeaturePairs_loop fuel image_name_to_image lines database in
                      (database, ImportWriteMatches image1 image2 matches :: tr)
                end
            end
      end
  end.

Definition FeaturePairsFeatureMatcher_Run
    (image_name_to_image : gmap string N) (file : list string)
    (database : Cache) : Cache * list ImportEvent :=
  FeaturePairs_loop (length file) image_name_to_image file database.

End FeaturePairs.

(** ** A reference instance of the collaborators *)

(** Modelled from the spec: the database, the pair id and the kernels are not
    part of the file.  This instance is used to run the embedding on
    concrete inputs.  The database is the list of the match records written,
    keyed by a pair id that is symmetric and injective on unordered pairs of
    ids below [2^31 - 1]; the descriptors of an image are a number, and a
    kernel finds as many matches as the two numbers add up to. *)
Definition ref_pair_id (a b : image_t) : image_pair_t :=
  if (b <? a)%N then (2147483647 * b + a)%N else (2147483647 * a + b)%N.

Definition ref_matches (n : N) : list FeatureMatch :=
  map (fun i => {| line_idx1 := N.of_nat i; line_idx2 := N.of_nat i |})
      (seq 0 (N.to_nat n)).

#[export] Instance ref_external : External := {|
  Cache := list (N * list FeatureMatch);
  FeatureDescriptors := N;
  SiftMatchGPU := N * N;
  ImagePairToPairId := ref_pair_id;
  GetDescriptors := fun c image_id => (image_id, c);
  ExistsMatches := fun c a b =>
    existsb (fun r => (fst r =? ref_pair_id a b)%N) c;
  WriteMatches := fun c a b m => c ++ [(ref_pair_id a b, m)];
  MatchSiftFeaturesCPU := fun _ d1 d2 => ref_matches (d1 + d2);
  MatchSiftFeaturesGPU := fun _ d1 d2 dev =>
    let dev := (default (fst dev) d1, default (snd dev) d2) in
    (dev, ref_matches (fst dev + snd dev))
|}.

Definition ref_options : SiftMatchingOptions :=
  {| min_num_matches := 4; max_num_matches := 100; num_threads := -1;
     use_gpu := false; gpu_index := "-1" |}.

Definition ref_pool (ms : list MatcherThread) (c : list (N * list FeatureMatch))
  : SiftFeatureMatcher :=
  {| options_ := ref_options; cache_ := c; is_setup_ := true;
     matchers_ := ms; matcher_queue_ := JobQueue_new;
     output_queue_ := JobQueue_new |}.

(** Modelled from the spec: the platform of the constructors is not part
    of the file.  The options pass [Check] when the two bounds on the number
    of matches are not negative, a number of threads that is not positive
    stands for the two cores of the machine, the GPU index is the single
    index [-1] and the build has CUDA with one device. *)
Definition ref_platform : Platform :=
  {| SiftMatchingOptions_Check := fun options =>
       (0 <=? min_num_matches options)%Z && (0 <=? max_num_matches options)%Z;
     GetEffectiveNumThreads := fun n => if (n <=? 0)%Z then 2%Z else n;
     CSVToVector := fun _ => [(-1)%Z];
     to_string := fun _ => "0"%string;
     CUDA_ENABLED := true;
     GetNumCudaDevices := 1;
     CreateSiftGPUMatcher := fun _ => (0, 0)%N |}.

(** Modelled from the spec: [StringTrim] of util/string.h is not part of the
    file.  A line that holds white space only counts as blank, so the model
    removes the white space at both ends of the line. *)
Fixpoint ref_trim_right (s : string) : string :=
  match s with
  | EmptyString => EmptyString
  | String c rest =>
      let rest := ref_trim_right rest in
      if is_space c && string_empty rest then EmptyString else String c rest
  end.

Definition ref_StringTrim (s : string) : string :=
  ref_trim_right (skip_space s).

(** The decimal number a word starts with. *)
Fixpoint ref_read_digits (acc : N) (w : string) : N :=
  match w with
  | String c rest =>
      let n := N_of_ascii c in
      if ((48 <=? n) && (n <=? 57))%N
      then ref_read_digits (10 * acc + (n - 48)) rest
      else acc
  | EmptyString => acc
  end.

Definition ref_read_FeatureMatch (line : string) : FeatureMatch :=
  let '(w1, rest) := extract_word line in
  let '(w2, _) := extract_word rest in
  {| line_idx1 := ref_read_digits 0 w1; line_idx2 := ref_read_digits 0 w2 |}.

(** ** Further definitions for the dispatch loop *)

(** The pair of image ids of a job. *)
Definition job_ids (d : FeatureMatcherData) : image_t * image_t :=
  (image_id1 d, image_id2 d).

Section PoolLaws.
Context `{External}.

(** Modelled from the spec: [Database] is not part of the file.  Reading
    descriptors does not touch the match table, a match record that was
    written exists, and writing a record removes no other. *)
Definition Database_keeps_matches : Prop :=
  (forall c image_id a b,
     ExistsMatches (snd (GetDescriptors c image_id)) a b = ExistsMatches c a b) /\
  (forall c a b m, ExistsMatches (WriteMatches c a b m) a b = true) /\
  (forall c a b m a' b',
     ExistsMatches c a' b' = true ->
     ExistsMatches (WriteMatches c a b m) a' b' = true).

(** Every match record of [c] is a record of [c']. *)
Definition matches_kept (c c' : Cache) : Prop :=
  forall a b, ExistsMatches c a b = true -> ExistsMatches c' a b = true.



End PoolLaws.

(** ** Further definitions for the strategies *)

(** [num_blocks]: the number of blocks, [num_images / block_size] rounded
    up (the source rounds on [double]). *)
Definition exhaustive_num_blocks (num_images block_size : nat) : nat :=
  (num_images + block_size - 1) / block_size.

(** *** Sequential matching with its bounds-checked accesses *)

(** The inner loop of [RunSequentialMatching] with [image_ids.at(...)] as
    the source has it. *)
Fixpoint sequential_loop_at (fuel : nat) (i : Z) (overlap : Z)
    (quadratic_overlap : bool) (image_ids : list image_t)
    (image_idx1 : Z) (image_id1 : image_t)
  : result (list (image_t * image_t)) :=
  match fuel with
  | O => Ok []
  | S fuel =>
      if (i <? overlap)%Z then
        let image_idx2 := to_size_t (image_idx1 + i) in
        if (image_idx2 <? Z.of_nat (length image_ids))%Z then
          image_id2 ← vector_at image_ids (Z.to_nat image_idx2);
          quadratic ←
            (if quadratic_overlap then
               let image_idx2_quadratic := to_size_t (image_idx1 + shl1 i) in
               if (image_idx2_quadratic <? Z.of_nat (length image_ids))%Z then
                 image_id2_quadratic ←
                   vector_at image_ids (Z.to_nat image_idx2_quadratic);
                 Ok [(image_id1, image_id2_quadratic)]
               else Ok []
             else Ok []);
          rest ← sequential_loop_at fuel (i + 1) overlap quadratic_overlap
                   image_ids image_idx1 image_id1;
          Ok ((image_id1, image_id2) :: quadratic ++ rest)
        else Ok []
      else Ok []
  end.

(** [SequentialFeatureMatcher::RunSequentialMatching]: the arguments of the
    calls of [matcher_.Match], one for every image. *)
Definition RunSequentialMatching (overlap : Z) (quadratic_overlap : bool)
    (image_ids : list image_t) : result (list (list (image_t * image_t))) :=
  result_mapM
    (fun image_idx1 =>
       image_id1 ← vector_at image_ids image_idx1;
       sequential_loop_at (Z.to_nat overlap) 0 overlap quadratic_overlap
         image_ids (Z.of_nat image_idx1) image_id1)
    (seq 0 (length image_ids)).

(** *** The metadata of the cache *)

(** The fields of [Image] that [matching.cc] reads. *)
Record Image := {
  ImageId : image_t;
  Name : string;
  TvecPrior : float * float * float
}.

(** [unordered_map::emplace]: a key that is present keeps its value. *)
Definition emplace `{Countable K} {V} (k : K) (v : V) (m : gmap K V)
  : gmap K V :=
  match m !! k with
  | Some _ => m
  | None => <[k := v]> m
  end.

(** The second loop of [FeatureMatcherCache::Setup]: [images_cache_] for the
    images [ReadAllImages] returned. *)
Definition Setup_images_cache (images : list Image) : gmap N Image :=
  foldl (fun cache image => emplace (ImageId image) image cache) ∅ images.

(** [FeatureMatcherCache::GetImage]: [images_cache_.at(image_id)]. *)
Definition GetImage (images_cache_ : gmap N Image) (image_id : image_t)
  : result Image :=
  match images_cache_ !! image_id with
  | Some image => Ok image
  | None => OutOfRange
  end.

(** [FeatureMatcherCache::GetImageIds]: the keys, in the order in which the
    unordered map is traversed. *)
Definition GetImageIds (images_cache_ : gmap N Image) : list image_t :=
  map fst (map_to_list images_cache_).

(** Every image is stored under its own id, as [Setup] stores it. *)
Definition keyed_by_id (images_cache_ : gmap N Image) : Prop :=
  forall image_id image,
    images_cache_ !! image_id = Some image -> ImageId image = image_id.

(** The first image of [images] with the id [image_id]. *)
Definition first_with_id (image_id : image_t) (images : list Image)
  : option Image :=
  head (filter (fun image => ImageId image = image_id) images).

Section Ordered.
(** [std::sort] with the comparison of the names is taken as given. *)
Variable std_sort : list Image -> list Image.

(** [SequentialFeatureMatcher::GetOrderedImageIds]. *)
Definition GetOrderedImageIds (images_cache_ : gmap N Image)
  : result (list image_t) :=
  ordered_images ←
    result_mapM (GetImage images_cache_) (GetImageIds images_cache_);
  Ok (map ImageId (std_sort ordered_images)).

End Ordered.

(** The first loop of [ImagePairsFeatureMatcher::Run] and of
    [FeaturePairsFeatureMatcher::Run]: the map from the names of the images
    to their ids. *)
Fixpoint image_name_loop (images_cache_ : gmap N Image)
    (image_ids : list image_t) (image_name_to_image_id : gmap string image_t)
  : result (gmap string image_t) :=
  match image_ids with
  | [] => Ok image_name_to_image_id
  | image_id :: image_ids =>
      image ← GetImage images_cache_ image_id;
      image_name_loop images_cache_ image_ids
        (emplace (Name image) image_id image_name_to_image_id)
  end.

Definition image_name_to_image_id_of (images_cache_ : gmap N Image)
  : result (gmap string image_t) :=
  image_name_loop images_cache_ (GetImageIds images_cache_) ∅.

(** *** Spatial indexing *)

(** [x == 0] on doubles: true for both zeros, false for NaN. *)
Definition is_zero (x : float) : bool := SFeqb x (S754_zero false).

(** The test that makes the indexing loop skip an image. *)
Definition has_no_location (ignore_z : bool) (image : Image) : bool :=
  let '(x, y, z) := TvecPrior image in
  (is_zero x && is_zero y && ignore_z)
  || (is_zero x && is_zero y && is_zero z && negb ignore_z).

Section SpatialIndex.
(** [GPSTransform::EllToXYZ], the conversion [static_cast<float>] of a
    double and the nearest-neighbour search of FLANN are taken as given.
    The search returns the matrix of the indices and the matrix of the
    distances. *)
Variable EllToXYZ : float * float * float -> float * float * float.
Variable to_float : float -> float.
Variable knnSearch :
  list (float * float * float) -> Z ->
  (nat -> nat -> nat) * (nat -> nat -> float).
Variable is_gps ignore_z : bool.
Variable images_cache_ : gmap N Image.

(** The row of [location_matrix] for an image. *)
Definition location_row (image : Image) : float * float * float :=
  let '(x, y, z) := TvecPrior image in
  let z := if ignore_z then S754_zero false else z in
  if is_gps then
    let '(a, b, c) := EllToXYZ (x, y, z) in (to_float a, to_float b, to_float c)
  else (to_float x, to_float y, to_float z).

(** The indexing loop from position [i] on: [location_idxs] and the rows of
    [location_matrix]. *)
Fixpoint spatial_index_loop (image_ids : list image_t) (i : nat)
  : result (list nat * list (float * float * float)) :=
  match image_ids with
  | [] => Ok ([], [])
  | image_id :: image_ids =>
      image ← GetImage images_cache_ image_id;
      if has_no_location ignore_z image then
        spatial_index_loop image_ids (S i)
      else
        '(location_idxs, location_matrix) ← spatial_index_loop image_ids (S i);
        Ok (i :: location_idxs, location_row image :: location_matrix)
  end.

(** [SpatialFeatureMatcher::Run]: the arguments of the calls of
    [matcher_.Match], one for every image with a location. *)
Definition SpatialFeatureMatcher_Run (max_num_neighbors : Z)
    (max_distance : float) : result (list (list (image_t * image_t))) :=
  let image_ids := GetImageIds images_cache_ in
  '(location_idxs, location_matrix) ← spatial_index_loop image_ids 0;
  let num_locations := length location_idxs in
  if num_locations =? 0 then Ok []
  else
    let knn := spatial_knn max_num_neighbors num_locations in
    let '(index_matrix, distance_matrix) := knnSearch location_matrix knn in
    result_mapM
      (Spatial_query_pairs index_matrix distance_matrix max_distance image_ids
         location_idxs knn)
      (seq 0 num_locations).

End SpatialIndex.

(** *** Matching of the image pairs of a list *)

(** [std::getline(stream, word, ' ')]: the characters up to the first space,
    which is taken from the stream and dropped.  The result is the word and
    the rest of the stream. *)
Fixpoint getline_space (s : string) : string * string :=
  match s with
  | String c rest =>
      if Ascii.eqb c " " then (EmptyString, rest)
      else let '(w, rest) := getline_space rest in (String c w, rest)
  | EmptyString => (EmptyString, EmptyString)
  end.

(** [line[0] == '#']. *)
Definition starts_with_hash (line : string) : bool :=
  match line with
  | String c _ => Ascii.eqb c "#"
  | EmptyString => false
  end.

(** What the loop over the lines of the list does for a line that is
    neither blank nor a comment. *)
Inductive ImagePairsEvent : Type :=
| ReportImageMissing (image_name : string)   (* "ERROR: Image ... does not exist." *)
| ImagePairRead (image_pair : image_t * image_t).

Definition read_image_pairs (tr : list ImagePairsEvent)
  : list (image_t * image_t) :=
  omap (fun e => match e with
                 | ImagePairRead p => Some p
                 | ReportImageMissing _ => None
                 end) tr.

Section ImagePairs.
Variable StringTrim : string -> string.
Variable image_name_to_image_id : gmap string image_t.

(** The loop [while (std::getline(file, line))] of
    [ImagePairsFeatureMatcher::Run]. *)
Fixpoint ImagePairs_read (lines : list string) : list ImagePairsEvent :=
  match lines with
  | [] => []
  | line :: lines =>
      let line := StringTrim line in
      if string_empty line || starts_with_hash line then ImagePairs_read lines
      else
        let '(image_name1, line_stream) := getline_space line in
        let image_name1 := StringTrim image_name1 in
        let '(image_name2, _) := getline_space line_stream in
        let image_name2 := StringTrim image_name2 in
        match image_name_to_image_id !! image_name1 with
        | None => ReportImageMissing image_name1 :: ImagePairs_read lines
        | Some image_id1 =>
            match image_name_to_image_id !! image_name2 with
            | None => ReportImageMissing image_name2 :: ImagePairs_read lines
            | Some image_id2 =>
                ImagePairRead (image_id1, image_id2) :: ImagePairs_read lines
            end
        end
  end.

End ImagePairs.

(** The block that starts at position [i]: the pairs at the positions from
    [i] up to [block_end]. *)
Definition ImagePairs_block (image_pairs : list (image_t * image_t))
    (block_size i : nat) : list (image_t * image_t) :=
  let block_end :=
    if i + block_size <=? length image_pairs then i + block_size
    else length image_pairs in
  omap (fun j => image_pairs !! j) (seq i (block_end - i)).

(** The matching loop of [ImagePairsFeatureMatcher::Run]: the arguments of
    the calls of [matcher_.Match]. *)
Definition ImagePairs_blocks (image_pairs : list (image_t * image_t))
    (block_size : nat) : list (list (image_t * image_t)) :=
  map (ImagePairs_block image_pairs block_size)
      (block_starts (length image_pairs) 0 (length image_pairs) block_size).

(** [num_match_blocks], the number of blocks the progress lines announce. *)
Definition num_match_blocks (image_pairs : list (image_t * image_t))
    (block_size : nat) : nat :=
  length image_pairs / block_size + 1.

(** [ImagePairsFeatureMatcher::Run] on the lines of the list. *)
Definition ImagePairsFeatureMatcher_Run (StringTrim : string -> string)
    (image_name_to_image_id : gmap string image_t) (file : list string)
    (block_size : nat) : list (list (image_t * image_t)) :=
  ImagePairs_blocks
    (read_image_pairs (ImagePairs_read StringTrim image_name_to_image_id file))
    block_size.

(** *** Transitive matching: the links of the adjacency map *)

(** Two images are linked when the database holds matches for them, in
    either order. *)
Definition linked (existing_image_pairs : list (image_t * image_t))
    (a b : image_t) : Prop :=
  (a, b) ∈ existing_image_pairs \/ (b, a) ∈ existing_image_pairs.

(** The arguments of the calls of [Match] in a log. *)
Definition match_calls (log : list DriverEvent)
  : list (list (image_t * image_t)) :=
  omap (fun e => match e with MatchCall l => Some l | _ => None end) log.

(** *** Import of feature pairs: the writes in order *)

Section ImportReplay.
Context `{External}.

(** The database after the writes [ws]. *)
Definition apply_writes (database : Cache)
    (ws : list (image_t * image_t * list FeatureMatch)) : Cache :=
  foldl (fun database w => WriteMatches database (fst (fst w)) (snd (fst w)) (snd w))
        database ws.

(** No write of [ws] is for a pair that has matches when it is made. *)
Fixpoint writes_fresh (database : Cache)
    (ws : list (image_t * image_t * list FeatureMatch)) : Prop :=
  match ws with
  | [] => True
  | w :: ws =>
      ExistsMatches database (fst (fst w)) (snd (fst w)) = false /\
      writes_fresh
        (WriteMatches database (fst (fst w)) (snd (fst w)) (snd w)) ws
  end.

End ImportReplay.

(** Three images of a reference database: the first and the third have a
    position prior. *)
Definition ref_images : list Image :=
  [ {| ImageId := 11; Name := "c.jpg";
       TvecPrior := (S754_finite false 8388608 (-23), S754_zero false,
                     S754_zero false) |};
    {| ImageId := 12; Name := "a.jpg";
       TvecPrior := (S754_zero false, S754_zero false, S754_zero false) |};
    {| ImageId := 13; Name := "b.jpg";
       TvecPrior := (S754_zero false, S754_finite false 8388608 (-23),
                     S754_zero false) |} ].

(** Modelled from the spec: [std::sort] with the comparison of the names,
    here a merge sort. *)
Definition ref_sort_by_name (images : list Image) : list Image :=
  merge_sort
    (fun image1 image2 => Is_true (String.leb (Name image1) (Name image2)))
    images.

(** Modelled from the spec: a search that returns, for the query [i], the
    rows from [i] on in cyclic order, the query itself at distance zero. *)
Definition ref_knnSearch (rows : list (float * float * float)) (knn : Z)
  : (nat -> nat -> nat) * (nat -> nat -> float) :=
  (fun i j => (i + j) mod length rows,
   fun i j => if j =? 0 then S754_zero false
              else S754_finite false 8388608 (-23)).

(** The names of the images of a reference database. *)
Definition ref_names : gmap string N :=
  <["A"%string := 1%N]> (<["B"%string := 2%N]> ∅).

(** *** The distance threshold of spatial matching *)

(** [x * y] on doubles. *)
Definition double_mul (x y : float) : float := SFmul 53 1024 x y.

(** [static_cast<float>] of a double: the nearest float, ties to even. *)
Definition double_to_float (x : float) : float :=
  match x with
  | S754_finite s m e => binary_round 24 128 s m e
  | _ => x
  end.

(** [max_distance] of [SpatialFeatureMatcher::Run]:
    [static_cast<float>(options_.max_distance * options_.max_distance)]. *)
Definition spatial_max_distance (options_max_distance : float) : float :=
  double_to_float (double_mul options_max_distance options_max_distance).

(** [SpatialMatchingOptions::Check]. *)
Definition SpatialMatchingOptions_Check (max_num_neighbors : Z)
    (options_max_distance : float) : bool :=
  (0 <? max_num_neighbors)%Z
  && float_gt options_max_distance (S754_zero false).

(** In the words of the specification: the squared distance of every
    emitted neighbour of the query [i] is less than or equal to the squared
    maximal distance. *)
Definition spec_within_distance (distance_matrix : nat -> nat -> float)
    (max_distance : float) (i : nat) (columns : list nat) : bool :=
  forallb (fun j => float_le (distance_matrix i j) max_distance) columns.

(** * Properties *)

(** Reduce a bind of the [result] monad whose first argument is known. *)
Ltac run_bind := cbn [mbind result_mbind result_bind].

(** ** Threshold and queue basics *)

Lemma to_size_t_ge (z : Z) : (z < 2 ^ 64)%Z -> (z <= to_size_t z)%Z.
Proof.
  intros Hlt. unfold to_size_t.
  destruct (Z.le_gt_cases 0 z) as [Hz | Hz].
  - rewrite Z.mod_small; lia.
  - pose proof (Z.mod_pos_bound z (2 ^ 64) ltac:(lia)). lia.
Qed.

Lemma size_lt_int_false (m : list FeatureMatch) (i : Z) :
  is_int i -> size_lt_int m i = false -> (i <= Z.of_nat (length m))%Z.
Proof.
  unfold is_int, size_lt_int. intros Hi Hlt.
  apply Z.ltb_ge in Hlt.
  pose proof (to_size_t_ge i ltac:(lia)). lia.
Qed.

Lemma normalized_respects_threshold (opts : SiftMatchingOptions)
    (m : list FeatureMatch) :
  is_int (min_num_matches opts) ->
  respects_threshold opts
    (if size_lt_int m (min_num_matches opts) then [] else m).
Proof.
  intros Hi. unfold respects_threshold.
  destruct (size_lt_int m (min_num_matches opts)) eqn:E.
  - by left.
  - right. by apply size_lt_int_false.
Qed.

(** ** The matcher workers *)

Section WorkerProperties.
Context `{External}.

Lemma slot_get_set_same {A} (index : Z) (x : A) (a : A * A) :
  slot_get index (slot_set index x a) = x.
Proof. unfold slot_get, slot_set. by destruct (index =? 0)%Z. Qed.

Lemma slot_get_set_other {A} (index : Z) (x : A) (a : A * A) :
  (index = 0 \/ index = 1)%Z ->
  slot_get (1 - index) (slot_set index x a) = slot_get (1 - index) a.
Proof. intros [-> | ->]; reflexivity. Qed.

Lemma GetDescriptorData_hit (index : Z) (image_id : image_t)
    (g : SiftGPUFeatureMatcher) (cache : Cache) :
  (index = 0 \/ index = 1)%Z ->
  slot_get index (prev_uploaded_image_ids_ g) = image_id ->
  GetDescriptorData index image_id g cache = Ok (nullptr, g, cache, []).
Proof.
  intros Hindex Hslot. unfold GetDescriptorData.
  rewrite Hslot, N.eqb_refl.
  by destruct Hindex as [-> | ->].
Qed.

Lemma GetDescriptorData_miss (index : Z) (image_id : image_t)
    (g : SiftGPUFeatureMatcher) (cache : Cache) :
  (index = 0 \/ index = 1)%Z ->
  slot_get index (prev_uploaded_image_ids_ g) <> image_id ->
  GetDescriptorData index image_id g cache =
    Ok (slot_address index,
        {| prev_uploaded_image_ids_ :=
             slot_set index image_id (prev_uploaded_image_ids_ g);
           prev_uploaded_descriptors_ :=
             slot_set index (fst (GetDescriptors cache image_id))
               (prev_uploaded_descriptors_ g);
           sift_match_gpu := sift_match_gpu g |},
        snd (GetDescriptors cache image_id), [image_id]).
Proof.
  intros Hindex Hslot. unfold GetDescriptorData.
  apply N.eqb_neq in Hslot. rewrite Hslot.
  destruct (GetDescriptors cache image_id) as [descriptors cache'].
  by destruct Hindex as [-> | ->].
Qed.

Lemma GetDescriptorData_ok (index : Z) (image_id : image_t)
    (g : SiftGPUFeatureMatcher) (cache : Cache) :
  (index = 0 \/ index = 1)%Z ->
  exists r, GetDescriptorData index image_id g cache = Ok r.
Proof.
  intros Hindex.
  destruct (decide (slot_get index (prev_uploaded_image_ids_ g) = image_id)).
  - eexists. by apply GetDescriptorData_hit.
  - eexists. by apply GetDescriptorData_miss.
Qed.

Lemma CPU_job_result (opts : SiftMatchingOptions) (cache : Cache)
    (data : FeatureMatcherData) :
  is_int (min_num_matches opts) ->
  let d := snd (SiftCPUFeatureMatcher_Run_job opts cache data) in
  image_id1 d = image_id1 data /\ image_id2 d = image_id2 data /\
  respects_threshold opts (matches d).
Proof.
  intros Hi. unfold SiftCPUFeatureMatcher_Run_job.
  destruct (GetDescriptors cache (image_id1 data)) as [d1 c1].
  destruct (GetDescriptors c1 (image_id2 data)) as [d2 c2].
  cbn [snd set_matches matches].
  pose proof (normalized_respects_threshold opts
                (MatchSiftFeaturesCPU opts d1 d2) Hi) as Hn.
  destruct (size_lt_int _ _); cbn; auto.
Qed.

Lemma GPU_job_result (opts : SiftMatchingOptions) (g : SiftGPUFeatureMatcher)
    (cache : Cache) (data : FeatureMatcherData) :
  exists g' cache' d,
    SiftGPUFeatureMatcher_Run_job opts g cache data = Ok (g', cache', d) /\
    image_id1 d = image_id1 data /\ image_id2 d = image_id2 data /\
    (is_int (min_num_matches opts) -> respects_threshold opts (matches d)).
Proof.
  unfold SiftGPUFeatureMatcher_Run_job.
  destruct (GetDescriptorData_ok 0 (image_id1 data) g cache) as [[[[p1 g1] c1] q1] E1];
    [by left |].
  rewrite E1. run_bind.
  destruct (GetDescriptorData_ok 1 (image_id2 data) g1 c1) as [[[[p2 g2] c2] q2] E2];
    [by right |].
  rewrite E2. run_bind.
  destruct (MatchSiftFeaturesGPU opts (deref g2 p1) (deref g2 p2)
              (sift_match_gpu g2)) as [dev m].
  do 3 eexists. split; [reflexivity |].
  cbn [set_matches matches].
  destruct (size_lt_int m (min_num_matches opts)) eqn:E; cbn.
  - split; [done |]. split; [done |]. intros _. by left.
  - split; [done |]. split; [done |]. intros Hi. right.
    by apply size_lt_int_false.
Qed.

End WorkerProperties.

(** ** The dispatch loop *)

Section PoolProperties.
Context `{External}.

Lemma MatcherThread_Run_job_ok (opts : SiftMatchingOptions) (m : MatcherThread)
    (cache : Cache) (job : FeatureMatcherData) :
  exists m' cache' d,
    MatcherThread_Run_job opts m cache job = Ok (m', cache', d).
Proof.
  destruct m as [| g]; cbn [MatcherThread_Run_job].
  - destruct (SiftCPUFeatureMatcher_Run_job opts cache job). eauto.
  - destruct (GPU_job_result opts g cache job) as (g' & c' & d & E & _).
    rewrite E. cbn. eauto.
Qed.

Lemma workers_complete_one_spec (choice : nat * nat) (s : SiftFeatureMatcher)
    (n : nat) :
  pool_draining (S n) s ->
  exists s' d,
    workers_complete_one choice s = Ok s' /\
    output_queue_ s' = {| jobs_ := [d]; stop_ := false |} /\
    stop_ (matcher_queue_ s') = false /\
    length (jobs_ (matcher_queue_ s')) = n /\
    matchers_ s' <> [] /\
    options_ s' = options_ s /\ is_setup_ s' = is_setup_ s.
Proof.
  intros (Hout & Hstop & Hlen & Hms). unfold workers_complete_one.
  set (pending := jobs_ (matcher_queue_ s)) in *.
  set (k := fst choice `mod` length pending).
  set (w := snd choice `mod` length (matchers_ s)).
  assert (Hk : k < length pending).
  { apply Nat.mod_upper_bound. lia. }
  assert (Hw : w < length (matchers_ s)).
  { apply Nat.mod_upper_bound. destruct (matchers_ s); [done | cbn; lia]. }
  destruct (lookup_lt_is_Some_2 _ _ Hk) as [job Hjob].
  destruct (lookup_lt_is_Some_2 _ _ Hw) as [m Hm].
  rewrite Hjob, Hm.
  destruct (MatcherThread_Run_job_ok (options_ s) m (cache_ s) job)
    as (m' & c' & d & E).
  rewrite E. run_bind.
  rewrite Hout. cbn.
  exists
    {| options_ := options_ s; cache_ := c'; is_setup_ := is_setup_ s;
       matchers_ := <[w:=m']> (matchers_ s);
       matcher_queue_ := {| jobs_ := delete k pending; stop_ := stop_ (matcher_queue_ s) |};
       output_queue_ := {| jobs_ := [d]; stop_ := false |} |}, d.
  cbn. repeat split; try done.
  - rewrite length_delete by eauto. lia.
  - intros Hnil. apply (f_equal length) in Hnil.
    rewrite length_insert in Hnil. cbn in Hnil. lia.
Qed.

Lemma output_queue_Pop_spec (choice : nat * nat) (s : SiftFeatureMatcher)
    (n : nat) :
  pool_draining (S n) s ->
  exists s' d,
    output_queue_Pop choice s = Ok (Some d, s') /\
    pool_draining n s' /\
    options_ s' = options_ s /\ is_setup_ s' = is_setup_ s.
Proof.
  intros Hd. pose proof Hd as (Hout & _).
  destruct (workers_complete_one_spec choice s n Hd)
    as (s1 & d & E & Hout1 & Hstop1 & Hlen1 & Hms1 & Hopt1 & Hsetup1).
  unfold output_queue_Pop. rewrite Hout. cbn [JobQueue_TryPop JobQueue_new jobs_ stop_].
  rewrite E. run_bind.
  rewrite Hout1. cbn [JobQueue_TryPop jobs_ stop_].
  exists (with_output_queue s1 {| jobs_ := []; stop_ := false |}), d.
  split; [done |]. split; [| done].
  by repeat split.
Qed.

Lemma with_matcher_queue_append (s : SiftFeatureMatcher) :
  stop_ (matcher_queue_ s) = false ->
  with_matcher_queue s
    {| jobs_ := jobs_ (matcher_queue_ s) ++ []; stop_ := false |} = s.
Proof.
  destruct s as [o c i ms [jobs stop] oq]. cbn. intros ->.
  unfold with_matcher_queue. cbn. by rewrite app_nil_r.
Qed.

(** The first loop of [Match] never aborts on a running input queue: it
    pushes the jobs of [Match_enqueued] and counts them. *)
Lemma Match_push_jobs_spec (image_pairs : list (image_t * image_t)) :
  forall (ids : gset N) (n : nat) (s : SiftFeatureMatcher),
    stop_ (matcher_queue_ s) = false ->
    exists tr,
      Match_push_jobs image_pairs ids n s =
        Ok (n + length (Match_enqueued (cache_ s) ids image_pairs),
            with_matcher_queue s
              {| jobs_ := jobs_ (matcher_queue_ s)
                          ++ map new_job (Match_enqueued (cache_ s) ids image_pairs);
                 stop_ := false |},
            tr) /\
      pushed_jobs tr = map new_job (Match_enqueued (cache_ s) ids image_pairs) /\
      popped_results tr = [] /\ written_matches tr = [].
Proof.
  induction image_pairs as [| [a b] rest IH]; intros ids n s Hstop.
  - exists []. cbn. rewrite with_matcher_queue_append by done.
    by rewrite Nat.add_0_r.
  - cbn [Match_push_jobs Match_enqueued fst snd].
    destruct (a =? b)%N; [by apply IH |].
    destruct (decide (ImagePairToPairId a b ∈ ids)); [by apply IH |].
    destruct (ExistsMatches (cache_ s) a b) eqn:Eex.
    + destruct (IH ({[ImagePairToPairId a b]} ∪ ids) n s Hstop)
        as (tr & E & Hpush & Hpop & Hwr).
      rewrite E. run_bind.
      eexists. split; [reflexivity |].
      unfold pushed_jobs, popped_results, written_matches in *. by cbn.
    + unfold JobQueue_Push. rewrite Hstop.
      destruct (IH ({[ImagePairToPairId a b]} ∪ ids) (n + 1)
                  (with_matcher_queue s
                     {| jobs_ := jobs_ (matcher_queue_ s)
                                 ++ [{| image_id1 := a; image_id2 := b; matches := [] |}];
                        stop_ := false |}) eq_refl)
        as (tr & E & Hpush & Hpop & Hwr).
      cbn [cache_ with_matcher_queue matcher_queue_ jobs_] in E, Hpush.
      rewrite E. run_bind.
      eexists. split.
      * f_equal. f_equal. f_equal.
        -- cbn [length]. lia.
        -- unfold with_matcher_queue. cbn. by rewrite <- app_assoc.
      * unfold pushed_jobs, popped_results, written_matches in *.
        cbn. by rewrite Hpush.
Qed.

(** The second loop of [Match] returns once every job in flight has been
    answered. *)
Lemma Match_write_results_spec (sched : nat -> nat * nat) (n : nat) :
  forall (i : nat) (s : SiftFeatureMatcher),
    pool_draining n s ->
    exists s' tr,
      Match_write_results sched i n s = Ok (s', tr) /\
      pool_draining 0 s' /\
      options_ s' = options_ s /\ is_setup_ s' = is_setup_ s /\
      pushed_jobs tr = [] /\
      length (popped_results tr) = n /\
      written_matches tr = map (written_for (options_ s)) (popped_results tr).
Proof.
  induction n as [| n IH]; intros i s Hd.
  - exists s, []. by cbn.
  - cbn [Match_write_results].
    destruct (output_queue_Pop_spec (sched i) s n Hd)
      as (s1 & d & E & Hd1 & Hopt1 & Hsetup1).
    rewrite E. run_bind.
    set (output := if size_lt_int (matches d) (min_num_matches (options_ s1))
                   then set_matches d [] else d).
    set (s2 := with_cache s1 _).
    destruct (IH (S i) s2) as (s' & tr & E' & Hd' & Hopt' & Hsetup' & Hpush & Hpop & Hwr).
    { destruct Hd1 as (? & ? & ? & ?). by repeat split. }
    rewrite E'. run_bind.
    exists s', (PopResult d
                :: WriteMatchesCall (image_id1 output) (image_id2 output)
                     (matches output) :: tr).
    split; [done |]. split; [done |].
    split; [by rewrite Hopt', <- Hopt1 |].
    split; [by rewrite Hsetup', <- Hsetup1 |].
    assert (Hopt2 : options_ s2 = options_ s) by (by rewrite <- Hopt1).
    rewrite Hopt2 in Hwr.
    unfold pushed_jobs, popped_results, written_matches in *.
    cbn [omap list_omap]. rewrite Hpush, Hwr. cbn [length map].
    rewrite Hpop.
    split; [reflexivity |]. split; [reflexivity |].
    f_equal. unfold written_for, output. rewrite Hopt1.
    destruct (size_lt_int (matches d) (min_num_matches (options_ s)));
      reflexivity.
Qed.

(** Whatever the state of the pool: when the first loop returns, it has
    counted the jobs it pushed. *)
Lemma Match_push_jobs_counts (image_pairs : list (image_t * image_t)) :
  forall (ids : gset N) (n : nat) (s : SiftFeatureMatcher) n' s' tr,
    Match_push_jobs image_pairs ids n s = Ok (n', s', tr) ->
    n' = n + length (pushed_jobs tr) /\ popped_results tr = [].
Proof.
  induction image_pairs as [| [a b] rest IH]; intros ids n s n' s' tr.
  - cbn. intros [= <- <- <-]. split; [cbn; lia | done].
  - cbn [Match_push_jobs fst snd].
    destruct (a =? b)%N; [by apply IH |].
    destruct (decide (ImagePairToPairId a b ∈ ids)); [by apply IH |].
    destruct (ExistsMatches (cache_ s) a b).
    + destruct (Match_push_jobs rest _ n s) as [[[n1 s1] tr1] | | |] eqn:E;
        run_bind; try discriminate.
      intros [= <- <- <-]. by apply IH in E.
    + destruct (JobQueue_Push (matcher_queue_ s) _) as [[] q]; [| discriminate].
      destruct (Match_push_jobs rest _ (n + 1) _) as [[[n1 s1] tr1] | | |] eqn:E;
        run_bind; try discriminate.
      intros [= <- <- <-]. apply IH in E as [-> Hpop].
      unfold pushed_jobs, popped_results in *. cbn. split; [lia | done].
Qed.

(** When the second loop returns, it has popped as many results as it was
    asked for. *)
Lemma Match_write_results_counts (sched : nat -> nat * nat) (n : nat) :
  forall (i : nat) (s s' : SiftFeatureMatcher) tr,
    Match_write_results sched i n s = Ok (s', tr) ->
    length (popped_results tr) = n /\ pushed_jobs tr = [].
Proof.
  induction n as [| n IH]; intros i s s' tr.
  - cbn. by intros [= <- <-].
  - cbn [Match_write_results].
    destruct (output_queue_Pop (sched i) s) as [[[d |] s1] | | |];
      run_bind; try discriminate.
    destruct (Match_write_results sched (S i) n _) as [[s2 tr2] | | |] eqn:E;
      run_bind; try discriminate.
    intros [= <- <-]. apply IH in E as [Hpop Hpush].
    unfold pushed_jobs, popped_results in *. cbn. by rewrite Hpop.
Qed.

(** Whatever the state of the pool: a call of [Match] that returns has
    popped as many results as it pushed jobs, and unless the pair list was
    empty the output queue is empty on return. *)
Lemma Match_returns_balanced (sched : nat -> nat * nat)
    (image_pairs : list (image_t * image_t)) (s s' : SiftFeatureMatcher)
    (tr : list Event) :
  Match sched image_pairs s = Ok (s', tr) ->
  length (popped_results tr) = length (pushed_jobs tr) /\
  (image_pairs <> [] -> JobQueue_Size (output_queue_ s') = 0).
Proof.
  unfold Match. destruct (is_setup_ s); cbn [negb]; [| discriminate].
  destruct image_pairs as [| p rest]; [by intros [= <- <-] |].
  destruct (Match_push_jobs (p :: rest) ∅ 0 s) as [[[n1 s1] tr1] | | |] eqn:E1;
    run_bind; try discriminate.
  destruct (Match_write_results sched 0 n1 s1) as [[s2 tr2] | | |] eqn:E2;
    run_bind; try discriminate.
  destruct (Nat.eqb_spec (JobQueue_Size (output_queue_ s2)) 0) as [Hsize | Hsize];
    [| discriminate].
  intros [= <- <-].
  apply Match_push_jobs_counts in E1 as [-> Hpop1].
  apply Match_write_results_counts in E2 as [Hpop2 Hpush2].
  unfold pushed_jobs, popped_results in *.
  rewrite !omap_app, Hpop1, Hpush2, app_nil_r, app_nil_l. by split.
Qed.

(** [Match] on an idle pool: it returns, the pool is idle again, and its
    trace is the jobs of [Match_enqueued], then one pop and one write for
    each of them. *)
Lemma Match_idle_spec (sched : nat -> nat * nat)
    (image_pairs : list (image_t * image_t)) (s : SiftFeatureMatcher) :
  pool_idle s ->
  exists s' tr,
    Match sched image_pairs s = Ok (s', tr) /\
    pool_idle s' /\
    pushed_jobs tr = map new_job (Match_enqueued (cache_ s) ∅ image_pairs) /\
    length (popped_results tr) = length (pushed_jobs tr) /\
    written_matches tr = map (written_for (options_ s)) (popped_results tr).
Proof.
  intros (Hsetup & Hms & Hmq & Hoq).
  unfold Match. rewrite Hsetup. cbn [negb].
  destruct image_pairs as [| p rest].
  { exists s, []. by repeat split. }
  set (P := p :: rest).
  destruct (Match_push_jobs_spec P ∅ 0 s) as (tr1 & E1 & Hpush1 & Hpop1 & Hwr1).
  { by rewrite Hmq. }
  rewrite E1. run_bind.
  set (s1 := with_matcher_queue s _) in *.
  destruct (Match_write_results_spec sched
              (0 + length (Match_enqueued (cache_ s) ∅ P)) 0 s1)
    as (s' & tr2 & E2 & Hd' & Hopt' & Hsetup' & Hpush2 & Hpop2 & Hwr2).
  { unfold s1. repeat split; cbn; try done.
    rewrite Hmq. cbn. by rewrite length_map. }
  rewrite E2. run_bind.
  destruct Hd' as (Hoq' & Hstop' & Hlen' & Hms').
  rewrite Hoq'. cbn.
  exists s', (tr1 ++ tr2).
  split; [done |]. split.
  { repeat split; try done.
    - by rewrite Hsetup'.
    - destruct (matcher_queue_ s') as [jobs stop]. cbn in *. subst.
      by destruct jobs. }
  unfold pushed_jobs, popped_results, written_matches in *.
  rewrite !omap_app, Hpush1, Hpush2, Hpop1, Hwr1, Hwr2, !app_nil_r, app_nil_l.
  split; [done |]. split; [| done].
  rewrite Hpop2, length_map. lia.
Qed.

End PoolProperties.

Section MatchProperties.
Context `{External}.

(** When the existence test goes by pair id, filtering first and then keeping
    first occurrences gives what the loop does, which tests for duplicates
    before it asks the database.  [ids] is the set of the loop, [seen] the
    one of [first_occurrences]: they differ by ids of pairs with matches. *)
Lemma Match_enqueued_first_occurrences (c : Cache) :
  ExistsMatches_by_pair_id ->
  forall (P : list (image_t * image_t)) (ids seen : gset N),
    seen ⊆ ids ->
    (forall a b, ImagePairToPairId a b ∈ ids -> ImagePairToPairId a b ∉ seen ->
                 ExistsMatches c a b = true) ->
    Match_enqueued c ids P =
      first_occurrences seen
        (List.filter (fun p => negb (fst p =? snd p)%N
                               && negb (ExistsMatches c (fst p) (snd p))) P).
Proof.
  intros Hcompat P.
  induction P as [| [a b] rest IH]; intros ids seen Hsub Hdiff; [done |].
  cbn [Match_enqueued List.filter fst snd].
  destruct (a =? b)%N; cbn [negb andb]; [by apply IH |].
  destruct (decide (ImagePairToPairId a b ∈ ids)) as [Hin | Hnotin].
  - destruct (ExistsMatches c a b) eqn:Eex; cbn [negb]; [by apply IH |].
    cbn [first_occurrences fst snd].
    destruct (decide (ImagePairToPairId a b ∈ seen)) as [Hseen | Hnew];
      [by apply IH |].
    rewrite (Hdiff a b Hin Hnew) in Eex. discriminate.
  - destruct (ExistsMatches c a b) eqn:Eex; cbn [negb].
    + apply IH.
      * etrans; [exact Hsub | apply union_subseteq_r].
      * intros a' b' Hin' Hnew'.
        apply elem_of_union in Hin' as [Heq | Hin'].
        -- apply elem_of_singleton in Heq.
           by rewrite (Hcompat c a' b' a b Heq).
        -- by apply Hdiff.
    + cbn [first_occurrences fst snd].
      destruct (decide (ImagePairToPairId a b ∈ seen)) as [Hseen | Hnew].
      { exfalso. apply Hnotin, Hsub, Hseen. }
      f_equal. apply IH.
      * by apply union_mono_l.
      * intros a' b' Hin' Hnew'.
        apply not_elem_of_union in Hnew' as [Hne Hnew'].
        apply elem_of_union in Hin' as [Heq | Hin']; [done |].
        by apply Hdiff.
Qed.

(** Without any assumption on the database: the loop keeps the first
    occurrence of every pair id among the pairs with distinct ends, and of
    these it pushes the ones without matches. *)
Lemma Match_enqueued_dedup_then_filter (c : Cache)
    (P : list (image_t * image_t)) :
  forall ids : gset N,
    Match_enqueued c ids P =
      List.filter (fun p => negb (ExistsMatches c (fst p) (snd p)))
        (first_occurrences ids
           (List.filter (fun p => negb (fst p =? snd p)%N) P)).
Proof.
  induction P as [| [a b] rest IH]; intros ids; [done |].
  cbn [Match_enqueued List.filter fst snd].
  destruct (a =? b)%N; cbn [negb]; [by apply IH |].
  cbn [first_occurrences fst snd].
  destruct (decide (ImagePairToPairId a b ∈ ids)); [by apply IH |].
  cbn [List.filter fst snd].
  destruct (ExistsMatches c a b); cbn [negb]; by rewrite IH.
Qed.

Lemma first_occurrences_subset (l : list (image_t * image_t)) :
  forall (seen : gset N) (p : image_t * image_t),
    p ∈ first_occurrences seen l -> p ∈ l.
Proof.
  induction l as [| q rest IH]; intros seen p; cbn [first_occurrences]; [done |].
  destruct (decide (_ ∈ seen)).
  - intros Hp. right. by eapply IH.
  - intros [-> | Hp]%elem_of_cons; [left | right; by eapply IH].
Qed.

Lemma spec_enqueued_distinct_ends (c : Cache) (P : list (image_t * image_t))
    (p : image_t * image_t) :
  p ∈ spec_enqueued c P ->
  fst p <> snd p /\ ExistsMatches c (fst p) (snd p) = false /\ p ∈ P.
Proof.
  unfold spec_enqueued. intros Hp%first_occurrences_subset.
  apply list_elem_of_In, filter_In in Hp as [Hin Hok].
  apply andb_true_iff in Hok as [Hne Hex].
  apply negb_true_iff in Hne, Hex. apply N.eqb_neq in Hne.
  by rewrite <- list_elem_of_In in Hin.
Qed.

(** C1. For every call of [Match] on an idle pool, with a database whose
    existence test goes by pair id: the call returns and the sequence of
    jobs pushed to the input queue is exactly the pairs of the input that
    have distinct ends and no matches in the database, of which only the
    first occurrence of every canonical pair id is kept; no self-pair is
    pushed. *)
Theorem C1_Match_pushes_first_occurrences
    (sched : nat -> nat * nat) (P : list (image_t * image_t))
    (s : SiftFeatureMatcher) :
  ExistsMatches_by_pair_id ->
  pool_idle s ->
  exists s' tr,
    Match sched P s = Ok (s', tr) /\
    pushed_jobs tr = map new_job (spec_enqueued (cache_ s) P) /\
    Forall (fun d => image_id1 d <> image_id2 d) (pushed_jobs tr).
Proof.
  intros Hcompat Hidle.
  destruct (Match_idle_spec sched P s Hidle) as (s' & tr & E & _ & Hpush & _).
  exists s', tr. split; [done |].
  assert (Heq : pushed_jobs tr = map new_job (spec_enqueued (cache_ s) P)).
  { rewrite Hpush. f_equal. unfold spec_enqueued.
    apply Match_enqueued_first_occurrences; [done | done |].
    intros a b Hin. by apply not_elem_of_empty in Hin. }
  split; [done |].
  rewrite Heq. apply Forall_forall. intros d Hd.
  apply list_elem_of_fmap in Hd as (p & -> & Hp).
  apply spec_enqueued_distinct_ends in Hp as (Hne & _).
  exact Hne.
Qed.

(** A traversal whose steps either abort on a CHECK or return: it aborts
    when one of the steps does, and returns one result for every element
    otherwise. *)
Lemma result_mapM_checks {A B} (f : A -> result B) (l : list A) :
  (forall x, f x = CheckFailed \/ exists y, f x = Ok y) ->
  (result_mapM f l = CheckFailed /\ exists x, x ∈ l /\ f x = CheckFailed) \/
  (exists ys, result_mapM f l = Ok ys /\ length ys = length l /\
              forall x, x ∈ l -> exists y, f x = Ok y).
Proof.
  intros Hf. induction l as [| x l IH].
  - right. exists []. split; [done |]. split; [done |].
    by intros x ?%elem_of_nil.
  - cbn [result_mapM]. destruct (Hf x) as [Hx | [y Hx]].
    + left. rewrite Hx. split; [done |]. exists x. split; [by left | done].
    + rewrite Hx. run_bind.
      destruct IH as [[Hfail (x' & Hin & Hx')] | (ys & Hok & Hlen & Hall)].
      * left. rewrite Hfail. split; [done |]. exists x'.
        split; [by right | done].
      * right. rewrite Hok. run_bind. exists (y :: ys). split; [done |].
        split; [cbn [length]; by rewrite Hlen |].
        intros x' [-> | Hin]%elem_of_cons; [by exists y | by apply Hall].
Qed.

Lemma SiftGPUFeatureMatcher_ctor_cases (platform : Platform)
    (options : SiftMatchingOptions) (empty : FeatureDescriptors) :
  SiftGPUFeatureMatcher_ctor platform options empty = CheckFailed \/
  exists y, SiftGPUFeatureMatcher_ctor platform options empty = Ok y.
Proof.
  unfold SiftGPUFeatureMatcher_ctor.
  destruct (SiftMatchingOptions_Check platform options); [right | left];
    eauto.
Qed.

Lemma SiftCPUFeatureMatcher_ctor_cases (platform : Platform)
    (options : SiftMatchingOptions) :
  SiftCPUFeatureMatcher_ctor platform options = CheckFailed \/
  exists y, SiftCPUFeatureMatcher_ctor platform options = Ok y.
Proof.
  unfold SiftCPUFeatureMatcher_ctor.
  destruct (SiftMatchingOptions_Check platform options); [right | left];
    eauto.
Qed.

(** When the constructor fails on the GPU indices, and what it returns
    otherwise. *)
Lemma constructor_gpu_indices_cases (platform : Platform)
    (options : SiftMatchingOptions) :
  (constructor_gpu_indices platform options = CheckFailed /\
   (CSVToVector platform (gpu_index options) = [] \/
    (CUDA_ENABLED platform = true /\ use_gpu options = true /\
     CSVToVector platform (gpu_index options) = [(-1)%Z] /\
     (GetNumCudaDevices platform <= 0)%Z))) \/
  (exists gpu_indices,
     constructor_gpu_indices platform options = Ok gpu_indices /\
     gpu_indices <> [] /\
     CSVToVector platform (gpu_index options) <> [] /\
     ~ (CUDA_ENABLED platform = true /\ use_gpu options = true /\
        CSVToVector platform (gpu_index options) = [(-1)%Z] /\
        (GetNumCudaDevices platform <= 0)%Z)).
Proof.
  unfold constructor_gpu_indices.
  destruct (CSVToVector platform (gpu_index options)) as [| z l] eqn:Hcsv.
  { left. split; [done | by left]. }
  cbn [length Nat.ltb Nat.leb negb].
  destruct (CUDA_ENABLED platform); cbn [andb];
    [| right; eexists; repeat split; try done; by intros (? & _)].
  destruct (use_gpu options); cbn [andb];
    [| right; eexists; repeat split; try done; by intros (_ & ? & _)].
  destruct (bool_decide_reflect (z :: l = [(-1)%Z])) as [Heq | Hne];
    [| right; eexists; repeat split; try done; by intros (_ & _ & ? & _)].
  destruct (Z.ltb_spec 0 (GetNumCudaDevices platform)) as [Hpos | Hnone];
    cbn [negb].
  - right. eexists. split; [done |]. split; [| split; [done |]].
    + destruct (Z.to_nat (GetNumCudaDevices platform)) eqn:E; [lia | done].
    + intros (_ & _ & _ & ?). lia.
  - left. split; [done |]. right. done.
Qed.

(** What a pool that the constructor returned looks like. *)
Lemma SiftFeatureMatcher_new_Ok (platform : Platform)
    (options : SiftMatchingOptions) (cache : Cache)
    (empty : FeatureDescriptors) (s : SiftFeatureMatcher) :
  SiftFeatureMatcher_new platform options cache empty = Ok s ->
  SiftMatchingOptions_Check platform options = true /\
  (0 < GetEffectiveNumThreads platform (num_threads options))%Z /\
  (exists gpu_indices,
     constructor_gpu_indices platform options = Ok gpu_indices /\
     gpu_indices <> [] /\
     length (matchers_ s) =
       if use_gpu options then length gpu_indices
       else Z.to_nat (GetEffectiveNumThreads platform (num_threads options))) /\
  options_ s = options /\ cache_ s = cache /\ is_setup_ s = false /\
  matcher_queue_ s = JobQueue_new /\ output_queue_ s = JobQueue_new.
Proof.
  unfold SiftFeatureMatcher_new.
  destruct (SiftMatchingOptions_Check platform options) eqn:Hcheck;
    cbn [negb]; [| discriminate].
  destruct (Z.ltb_spec 0 (GetEffectiveNumThreads platform (num_threads options)))
    as [Hnt | ?]; cbn [negb]; [| discriminate].
  destruct (constructor_gpu_indices_cases platform options)
    as [[Hfail _] | (gpu_indices & Hok & Hne & _)];
    [rewrite Hfail; discriminate |].
  rewrite Hok. run_bind.
  destruct (use_gpu options).
  - destruct (result_mapM_checks
                (fun index =>
                   SiftGPUFeatureMatcher_ctor platform
                     (with_gpu_index options (to_string platform index)) empty)
                gpu_indices) as [[Hfail _] | (ys & Hys & Hlen & _)].
    + intros index. apply SiftGPUFeatureMatcher_ctor_cases.
    + rewrite Hfail. discriminate.
    + rewrite Hys. run_bind. intros [= <-]. cbn.
      split; [done |]. split; [done |]. split; [| done].
      by exists gpu_indices.
  - destruct (result_mapM_checks
                (fun _ : nat => SiftCPUFeatureMatcher_ctor platform options)
                (seq 0 (Z.to_nat
                   (GetEffectiveNumThreads platform (num_threads options)))))
      as [[Hfail _] | (ys & Hys & Hlen & _)].
    + intros _. apply SiftCPUFeatureMatcher_ctor_cases.
    + rewrite Hfail. discriminate.
    + rewrite Hys. run_bind. intros [= <-]. cbn.
      split; [done |]. split; [done |]. split; [| done].
      exists gpu_indices. rewrite length_seq in Hlen. done.
Qed.

(** The constructor and a successful [Setup] leave the pool idle. *)
Lemma SiftFeatureMatcher_new_Setup_idle (platform : Platform)
    (options : SiftMatchingOptions) (cache : Cache)
    (empty : FeatureDescriptors) (max_num_features : Z)
    (s : SiftFeatureMatcher) :
  SiftFeatureMatcher_new platform options cache empty = Ok s ->
  pool_idle (snd (Setup max_num_features true s)).
Proof.
  intros (_ & Hnt & (gpu_indices & _ & Hne & Hlen) & _ & _ & _ & Hmq & Hoq)
    %SiftFeatureMatcher_new_Ok.
  repeat split; cbn; [| done | done].
  intros Hnil. rewrite Hnil in Hlen. cbn [length] in Hlen.
  destruct (use_gpu options).
  - by destruct gpu_indices.
  - lia.
Qed.

(** Any sequence of calls of [Match] on an idle pool runs to its end, and
    the pool is idle before every call. *)
Lemma Match_calls_idle
    (calls : list ((nat -> nat * nat) * list (image_t * image_t))) :
  forall s, pool_idle s ->
    exists s' tr, Match_calls calls s = Ok (s', tr) /\ pool_idle s'.
Proof.
  induction calls as [| [sched P] calls IH]; intros s Hidle.
  - by exists s, [].
  - cbn [Match_calls].
    destruct (Match_idle_spec sched P s Hidle) as (s1 & tr1 & E1 & Hidle1 & _).
    rewrite E1. run_bind.
    destruct (IH s1 Hidle1) as (s2 & tr2 & E2 & Hidle2).
    rewrite E2. run_bind. eauto.
Qed.

(** C2. Whenever a call of [Match] returns, it has popped as many results
    from the output queue as it pushed jobs to the input queue, and unless
    the pair list was empty the output queue is empty on return.  On an idle
    pool, the state the constructor and [Setup] establish, every call
    returns with as many results popped as jobs pushed and with an empty
    output queue, and leaves the pool idle for the next call. *)
Theorem C2_Match_pops_what_it_pushed
    (sched : nat -> nat * nat) (P : list (image_t * image_t))
    (s : SiftFeatureMatcher) :
  (forall s' tr,
     Match sched P s = Ok (s', tr) ->
     length (popped_results tr) = length (pushed_jobs tr) /\
     (P <> [] -> JobQueue_Size (output_queue_ s') = 0)) /\
  (pool_idle s ->
   exists s' tr,
     Match sched P s = Ok (s', tr) /\
     length (popped_results tr) = length (pushed_jobs tr) /\
     JobQueue_Size (output_queue_ s') = 0 /\
     pool_idle s').
Proof.
  split.
  - intros s' tr. apply Match_returns_balanced.
  - intros Hidle.
    destruct (Match_idle_spec sched P s Hidle)
      as (s' & tr & E & Hidle' & _ & Hlen & _).
    exists s', tr. split; [done |]. split; [done |]. split; [| done].
    destruct Hidle' as (_ & _ & _ & ->). reflexivity.
Qed.

(** C5. With [min_num_matches] an [int]: the result a CPU worker or a GPU
    worker pushes carries a match set that is empty or has at least
    [min_num_matches] elements; and a call of [Match] on an idle pool writes
    one match set for every result it pops, namely the popped matches, or the
    empty set when they are fewer than [min_num_matches], so that every set
    written is empty or has at least [min_num_matches] elements. *)
Theorem C5_written_matches_respect_threshold
    (sched : nat -> nat * nat) (P : list (image_t * image_t))
    (s : SiftFeatureMatcher) :
  is_int (min_num_matches (options_ s)) ->
  pool_idle s ->
  (forall cache job,
     respects_threshold (options_ s)
       (matches (snd (SiftCPUFeatureMatcher_Run_job (options_ s) cache job)))) /\
  (forall g cache job, exists g' cache' d,
     SiftGPUFeatureMatcher_Run_job (options_ s) g cache job = Ok (g', cache', d) /\
     respects_threshold (options_ s) (matches d)) /\
  exists s' tr,
    Match sched P s = Ok (s', tr) /\
    written_matches tr = map (written_for (options_ s)) (popped_results tr) /\
    Forall (fun w => respects_threshold (options_ s) (snd w))
           (written_matches tr).
Proof.
  intros Hint Hidle. split; [| split].
  - intros cache job.
    by destruct (CPU_job_result (options_ s) cache job Hint) as (_ & _ & ?).
  - intros g cache job.
    destruct (GPU_job_result (options_ s) g cache job)
      as (g' & c' & d & E & _ & _ & Hthr).
    exists g', c', d. auto.
  - destruct (Match_idle_spec sched P s Hidle)
      as (s' & tr & E & _ & _ & _ & Hwr).
    exists s', tr. split; [done |]. split; [done |].
    rewrite Hwr. apply Forall_forall. intros w Hw.
    apply list_elem_of_fmap in Hw as (d & -> & _).
    by apply normalized_respects_threshold.
Qed.

(** C10. A call of [Match] with an empty pair list on a pool that is set up
    returns at once: the pool, with its queues and its database, is
    unchanged, and no job is pushed, no result is popped and the database is
    neither read nor written. *)
Theorem C10_Match_empty_is_noop
    (sched : nat -> nat * nat) (s : SiftFeatureMatcher) :
  is_setup_ s = true ->
  exists tr,
    Match sched [] s = Ok (s, tr) /\
    tr = [] /\
    pushed_jobs tr = [] /\ popped_results tr = [] /\ database_calls tr = [].
Proof.
  intros Hsetup. exists []. unfold Match. by rewrite Hsetup.
Qed.

(** C6. For both operand slots of [GetDescriptorData]: when the requested
    image id is the one recorded for the slot, the pointer returned is null,
    the cache is not queried and nothing changes; otherwise the descriptors
    are fetched from the cache with one query, the pointer returned is the
    address of the slot, which now holds them, the id recorded for the slot
    is the requested one, and the other slot and the device are untouched. *)
Theorem C6_GetDescriptorData_reuses_slot
    (index : Z) (image_id : image_t) (g : SiftGPUFeatureMatcher)
    (cache : Cache) :
  (index = 0 \/ index = 1)%Z ->
  (slot_get index (prev_uploaded_image_ids_ g) = image_id ->
   GetDescriptorData index image_id g cache = Ok (nullptr, g, cache, [])) /\
  (slot_get index (prev_uploaded_image_ids_ g) <> image_id ->
   exists g',
     GetDescriptorData index image_id g cache =
       Ok (slot_address index, g', snd (GetDescriptors cache image_id),
           [image_id]) /\
     deref g' (slot_address index) = Some (fst (GetDescriptors cache image_id)) /\
     slot_get index (prev_uploaded_image_ids_ g') = image_id /\
     slot_get (1 - index) (prev_uploaded_image_ids_ g') =
       slot_get (1 - index) (prev_uploaded_image_ids_ g) /\
     slot_get (1 - index) (prev_uploaded_descriptors_ g') =
       slot_get (1 - index) (prev_uploaded_descriptors_ g) /\
     sift_match_gpu g' = sift_match_gpu g).
Proof.
  intros Hindex. split.
  - by apply GetDescriptorData_hit.
  - intros Hmiss. eexists. split; [by apply GetDescriptorData_miss |].
    cbn [deref prev_uploaded_image_ids_ prev_uploaded_descriptors_ sift_match_gpu].
    rewrite !slot_get_set_same, !slot_get_set_other by done.
    done.
Qed.

End MatchProperties.

(** The reference database looks records up by pair id. *)
Lemma ref_existence_by_pair_id : @ExistsMatches_by_pair_id ref_external.
Proof.
  intros c a b a' b' E.
  change (ref_pair_id a b = ref_pair_id a' b') in E.
  change (existsb (fun r => (fst r =? ref_pair_id a b)%N) c =
          existsb (fun r => (fst r =? ref_pair_id a' b')%N) c).
  by rewrite E.
Qed.

Lemma ref_pool_idle (ms : list MatcherThread) (c : list (N * list FeatureMatch)) :
  ms <> [] -> pool_idle (ref_pool ms c).
Proof. intros Hms. by repeat split. Qed.

Lemma C1_witness :
  exists s' tr,
    Match (fun i => (i, i))
      [(1, 2); (2, 1); (1, 1); (1, 2); (1, 3); (2, 3)]%N
      (ref_pool [CPUMatcher] [(ref_pair_id 1 3, [])]) = Ok (s', tr) /\
    pushed_jobs tr =
      map new_job
        (spec_enqueued [(ref_pair_id 1 3, [])]
           [(1, 2); (2, 1); (1, 1); (1, 2); (1, 3); (2, 3)]%N) /\
    Forall (fun d => image_id1 d <> image_id2 d) (pushed_jobs tr).
Proof.
  apply (@C1_Match_pushes_first_occurrences ref_external).
  - exact ref_existence_by_pair_id.
  - repeat split; discriminate.
Defined.

Lemma C2_witness :
  exists s' tr,
    Match (fun i => (2 * i, i))
      [(1, 2); (2, 1); (1, 1); (1, 2); (1, 3); (2, 3)]%N
      (ref_pool [CPUMatcher; GPUMatcher (SiftGPUFeatureMatcher_new (0, 0)%N 0%N)] [])
      = Ok (s', tr) /\
    length (popped_results tr) = length (pushed_jobs tr) /\
    JobQueue_Size (output_queue_ s') = 0 /\
    pool_idle s'.
Proof.
  apply (@C2_Match_pops_what_it_pushed ref_external).
  repeat split; discriminate.
Defined.

Lemma C5_witness :
  (forall cache job,
     respects_threshold ref_options
       (matches (snd (SiftCPUFeatureMatcher_Run_job ref_options cache job)))) /\
  (forall g cache job, exists g' cache' d,
     SiftGPUFeatureMatcher_Run_job ref_options g cache job = Ok (g', cache', d) /\
     respects_threshold ref_options (matches d)) /\
  exists s' tr,
    Match (fun i => (i, i)) [(1, 2); (2, 3)]%N (ref_pool [CPUMatcher] [])
      = Ok (s', tr) /\
    written_matches tr = map (written_for ref_options) (popped_results tr) /\
    Forall (fun w => respects_threshold ref_options (snd w))
           (written_matches tr).
Proof.
  apply (@C5_written_matches_respect_threshold ref_external
           (fun i => (i, i)) [(1, 2); (2, 3)]%N (ref_pool [CPUMatcher] [])).
  - unfold is_int. cbn. lia.
  - repeat split; discriminate.
Defined.

Lemma C10_witness :
  exists tr,
    Match (fun i => (i, i)) [] (ref_pool [CPUMatcher] [(ref_pair_id 1 3, [])])
      = Ok (ref_pool [CPUMatcher] [(ref_pair_id 1 3, [])], tr) /\
    tr = [] /\
    pushed_jobs tr = [] /\ popped_results tr = [] /\ database_calls tr = [].
Proof.
  apply (@C10_Match_empty_is_noop ref_external). reflexivity.
Defined.

Lemma C6_witness :
  let g := {| prev_uploaded_image_ids_ := (7, 8)%N;
              prev_uploaded_descriptors_ := (7, 8)%N;
              sift_match_gpu := (7, 8)%N |} in
  (slot_get 1 (prev_uploaded_image_ids_ g) = 9%N ->
   GetDescriptorData 1 9%N g [] = Ok (nullptr, g, [], [])) /\
  (slot_get 1 (prev_uploaded_image_ids_ g) <> 9%N ->
   exists g',
     GetDescriptorData 1 9%N g [] =
       Ok (slot_address 1, g', snd (GetDescriptors [] 9%N), [9%N]) /\
     deref g' (slot_address 1) = Some (fst (GetDescriptors [] 9%N)) /\
     slot_get 1 (prev_uploaded_image_ids_ g') = 9%N /\
     slot_get (1 - 1) (prev_uploaded_image_ids_ g') =
       slot_get (1 - 1) (prev_uploaded_image_ids_ g) /\
     slot_get (1 - 1) (prev_uploaded_descriptors_ g') =
       slot_get (1 - 1) (prev_uploaded_descriptors_ g) /\
     sift_match_gpu g' = sift_match_gpu g).
Proof.
  intros g.
  apply (@C6_GetDescriptorData_reuses_slot ref_external 1 9%N g []).
  right. reflexivity.
Defined.

(** ** Exhaustive matching *)

Lemma block_starts_elem (block_size num_images : nat) :
  forall (fuel start s : nat),
    s ∈ block_starts fuel start num_images block_size <->
    exists k, k < fuel /\ s = start + k * block_size /\
              start + k * block_size < num_images /\
              (forall k', k' < k -> start + k' * block_size < num_images).
Proof.
  induction fuel as [| fuel IH]; intros start s; cbn [block_starts].
  - split; [by intros ?%elem_of_nil | intros (k & ? & _); lia].
  - destruct (Nat.ltb_spec start num_images) as [Hlt | Hge].
    + rewrite elem_of_cons, IH. split.
      * intros [-> | (k & Hk & -> & Hs & Hbelow)].
        -- exists 0. repeat split; lia.
        -- exists (S k). repeat split; try lia.
           intros [| k'] Hk'; [lia |].
           specialize (Hbelow k' ltac:(lia)). lia.
      * intros ([| k] & Hk & -> & Hs & Hbelow); [left; lia | right].
        exists k. repeat split; try lia.
        intros k' Hk'. specialize (Hbelow (S k') ltac:(lia)). lia.
    + split; [by intros ?%elem_of_nil |].
      intros (k & Hk & -> & Hs & Hbelow).
      destruct k as [| k]; [lia |].
      specialize (Hbelow 0 ltac:(lia)). lia.
Qed.

(** With a positive block size the outer loops start a block at every
    multiple of [block_size] below [num_images]. *)
Lemma block_starts_multiples (num_images block_size s : nat) :
  0 < block_size ->
  s ∈ block_starts num_images 0 num_images block_size <->
  s < num_images /\ s mod block_size = 0.
Proof.
  intros Hbs. rewrite block_starts_elem. split.
  - intros (k & Hk & -> & Hs & _). split; [lia |].
    cbn. by apply Nat.Div0.mod_mul.
  - intros [Hs Hmod]. exists (s / block_size).
    pose proof (Nat.div_mod_eq s block_size) as Hdm.
    rewrite Hmod in Hdm.
    assert (s = s / block_size * block_size) by lia.
    repeat split.
    + enough (s / block_size <= s) by lia.
      apply Nat.Div0.div_le_upper_bound. nia.
    + lia.
    + lia.
    + intros k' Hk'. cbn. nia.
Qed.

Lemma block_starts_NoDup (block_size num_images : nat) :
  0 < block_size ->
  forall fuel start,
    NoDup (block_starts fuel start num_images block_size).
Proof.
  intros Hbs. induction fuel as [| fuel IH]; intros start; cbn [block_starts].
  - constructor.
  - destruct (start <? num_images); [| constructor].
    constructor; [| apply IH].
    rewrite block_starts_elem. intros (k & _ & Heq & _). lia.
Qed.

(** A block iteration collects exactly the index pairs of its two blocks
    that pass the test. *)
Lemma Exhaustive_block_pairs_elem
    (num_images block_size start_idx1 start_idx2 idx1 idx2 : nat) :
  (idx1, idx2) ∈
    Exhaustive_block_pairs num_images block_size start_idx1 start_idx2 <->
  (start_idx1 <= idx1 <= block_end num_images block_size start_idx1 /\
   start_idx2 <= idx2 <= block_end num_images block_size start_idx2) /\
  exhaustive_emit block_size idx1 idx2 = true.
Proof.
  unfold Exhaustive_block_pairs, block_end.
  rewrite list_elem_of_bind. split.
  - intros (i & Hin & Hi). apply list_elem_of_bind in Hin as (j & Hin & Hj).
    apply elem_of_seq in Hi, Hj.
    destruct (exhaustive_emit block_size i j) eqn:E;
      [| by apply elem_of_nil in Hin].
    apply list_elem_of_singleton in Hin. injection Hin as -> ->.
    split; [lia | done].
  - intros [[Hi Hj] E]. exists idx1. split; [| apply elem_of_seq; lia].
    apply list_elem_of_bind. exists idx2. split; [| apply elem_of_seq; lia].
    rewrite E. by apply list_elem_of_singleton.
Qed.

Lemma Exhaustive_block_pairs_NoDup
    (num_images block_size start_idx1 start_idx2 : nat) :
  NoDup (Exhaustive_block_pairs num_images block_size start_idx1 start_idx2).
Proof.
  unfold Exhaustive_block_pairs.
  apply NoDup_bind; [| | apply NoDup_seq].
  - intros i i' [a b] _ _ Hin Hin'.
    apply list_elem_of_bind in Hin as (j & Hin & _).
    apply list_elem_of_bind in Hin' as (j' & Hin' & _).
    destruct (exhaustive_emit block_size i j); [| by apply elem_of_nil in Hin].
    destruct (exhaustive_emit block_size i' j'); [| by apply elem_of_nil in Hin'].
    apply list_elem_of_singleton in Hin, Hin'. congruence.
  - intros i _. apply NoDup_bind; [| | apply NoDup_seq].
    + intros j j' [a b] _ _ Hin Hin'.
      destruct (exhaustive_emit block_size i j); [| by apply elem_of_nil in Hin].
      destruct (exhaustive_emit block_size i j'); [| by apply elem_of_nil in Hin'].
      apply list_elem_of_singleton in Hin, Hin'. congruence.
    + intros j _. destruct (exhaustive_emit block_size i j);
        [apply NoDup_singleton | constructor].
Qed.

Lemma concat_bind {A B} (f : A -> list (list B)) (l : list A) :
  concat (l ≫= f) = l ≫= (fun x => concat (f x)).
Proof.
  induction l as [| x l IH]; [done |].
  rewrite !bind_cons, concat_app. by rewrite IH.
Qed.

Lemma Exhaustive_Run_pairs_bind (num_images block_size : nat) :
  Exhaustive_Run_pairs num_images block_size =
    (start_idx1 ← block_starts num_images 0 num_images block_size;
     start_idx2 ← block_starts num_images 0 num_images block_size;
     Exhaustive_block_pairs num_images block_size start_idx1 start_idx2).
Proof.
  unfold Exhaustive_Run_pairs, Exhaustive_Run_blocks.
  rewrite concat_bind. apply list_bind_ext; [| done].
  intros s1. rewrite concat_bind. apply list_bind_ext; [| done].
  intros s2. cbn. by rewrite app_nil_r.
Qed.

(** The block an index lies in. *)
Lemma block_of_index (block_size num_images s i : nat) :
  0 < block_size -> s mod block_size = 0 ->
  s <= i <= block_end num_images block_size s ->
  s < num_images ->
  s = i - i mod block_size /\ i < num_images.
Proof.
  unfold block_end. intros Hbs Hmod Hi Hs.
  assert (Hr : i - s < block_size) by lia.
  pose proof (Nat.div_mod_eq s block_size) as Hdm. rewrite Hmod in Hdm.
  assert (Him : i mod block_size = i - s).
  { symmetry. apply (Nat.mod_unique i block_size (s / block_size)); lia. }
  lia.
Qed.

Lemma index_in_its_block (block_size num_images i : nat) :
  0 < block_size -> i < num_images ->
  let s := i - i mod block_size in
  s ∈ block_starts num_images 0 num_images block_size /\
  s <= i <= block_end num_images block_size s.
Proof.
  intros Hbs Hi s.
  pose proof (Nat.mod_upper_bound i block_size ltac:(lia)) as Hr.
  pose proof (Nat.div_mod_eq i block_size) as Hdm.
  assert (Hs : s = block_size * (i / block_size)) by (unfold s; lia).
  split.
  - apply block_starts_multiples; [done |]. split; [unfold s; lia |].
    rewrite Hs, Nat.mul_comm. by apply Nat.Div0.mod_mul.
  - unfold block_end, s. lia.
Qed.

(** Over the whole run: an index pair is collected iff both indices are
    image positions and the pair passes the test. *)
Lemma Exhaustive_Run_pairs_elem (num_images block_size idx1 idx2 : nat) :
  0 < block_size ->
  (idx1, idx2) ∈ Exhaustive_Run_pairs num_images block_size <->
  idx1 < num_images /\ idx2 < num_images /\
  exhaustive_emit block_size idx1 idx2 = true.
Proof.
  intros Hbs. rewrite Exhaustive_Run_pairs_bind, list_elem_of_bind. split.
  - intros (s1 & Hin & Hs1).
    apply list_elem_of_bind in Hin as (s2 & Hin & Hs2).
    apply Exhaustive_block_pairs_elem in Hin as [[Hi Hj] E].
    apply block_starts_multiples in Hs1 as [Hs1 Hm1]; [| done].
    apply block_starts_multiples in Hs2 as [Hs2 Hm2]; [| done].
    destruct (block_of_index block_size num_images s1 idx1) as [_ ?]; try done.
    destruct (block_of_index block_size num_images s2 idx2) as [_ ?]; try done.
  - intros (Hi & Hj & E).
    destruct (index_in_its_block block_size num_images idx1 Hbs Hi) as [Hs1 Hb1].
    destruct (index_in_its_block block_size num_images idx2 Hbs Hj) as [Hs2 Hb2].
    eexists. split; [| exact Hs1].
    apply list_elem_of_bind. eexists. split; [| exact Hs2].
    by apply Exhaustive_block_pairs_elem.
Qed.

Lemma Exhaustive_Run_pairs_NoDup (num_images block_size : nat) :
  0 < block_size ->
  NoDup (Exhaustive_Run_pairs num_images block_size).
Proof.
  intros Hbs. rewrite Exhaustive_Run_pairs_bind.
  assert (Hstart : forall s i j s2,
            s ∈ block_starts num_images 0 num_images block_size ->
            s2 ∈ block_starts num_images 0 num_images block_size ->
            (i, j) ∈ Exhaustive_block_pairs num_images block_size s s2 ->
            s = i - i mod block_size /\ s2 = j - j mod block_size).
  { intros s i j s2 Hs Hs2 Hin.
    apply Exhaustive_block_pairs_elem in Hin as [[Hi Hj] _].
    apply block_starts_multiples in Hs as [? ?]; [| done].
    apply block_starts_multiples in Hs2 as [? ?]; [| done].
    split; eapply block_of_index; eauto. }
  apply NoDup_bind; [| | by apply block_starts_NoDup].
  - intros s1 s1' [i j] Hs1 Hs1' Hin Hin'.
    apply list_elem_of_bind in Hin as (s2 & Hin & Hs2).
    apply list_elem_of_bind in Hin' as (s2' & Hin' & Hs2').
    destruct (Hstart _ _ _ _ Hs1 Hs2 Hin) as [-> _].
    by destruct (Hstart _ _ _ _ Hs1' Hs2' Hin') as [-> _].
  - intros s1 Hs1. apply NoDup_bind; [| | by apply block_starts_NoDup].
    + intros s2 s2' [i j] Hs2 Hs2' Hin Hin'.
      destruct (Hstart _ _ _ _ Hs1 Hs2 Hin) as [_ ->].
      by destruct (Hstart _ _ _ _ Hs1 Hs2' Hin') as [_ ->].
    + intros s2 _. apply Exhaustive_block_pairs_NoDup.
Qed.

Lemma exhaustive_emit_rule (block_size idx1 idx2 : nat) :
  exhaustive_emit block_size idx1 idx2 = true <->
  (idx2 < idx1 /\ idx1 mod block_size <= idx2 mod block_size) \/
  (idx1 < idx2 /\ idx1 mod block_size < idx2 mod block_size).
Proof.
  unfold exhaustive_emit.
  rewrite orb_true_iff, !andb_true_iff, !Nat.ltb_lt, Nat.leb_le. tauto.
Qed.

Lemma all_pairs_elem (n i j : nat) : (i, j) ∈ all_pairs n <-> i < j < n.
Proof.
  unfold all_pairs. rewrite list_elem_of_bind. split.
  - intros (a & Hin & Ha).
    apply list_elem_of_bind in Hin as (b & Hin & Hb).
    apply list_elem_of_singleton in Hin. injection Hin as -> ->.
    apply elem_of_seq in Ha, Hb. lia.
  - intros Hij. exists i. split; [| apply elem_of_seq; lia].
    apply list_elem_of_bind. exists j. split; [| apply elem_of_seq; lia].
    by apply list_elem_of_singleton.
Qed.

Lemma all_pairs_NoDup (n : nat) : NoDup (all_pairs n).
Proof.
  unfold all_pairs. apply NoDup_bind; [| | apply NoDup_seq].
  - intros i i' [a b] _ _ Hin Hin'.
    apply list_elem_of_bind in Hin as (j & Hin & _).
    apply list_elem_of_bind in Hin' as (j' & Hin' & _).
    apply list_elem_of_singleton in Hin, Hin'. congruence.
  - intros i _. apply NoDup_bind; [| | apply NoDup_seq].
    + intros j j' [a b] _ _ Hin Hin'.
      apply list_elem_of_singleton in Hin, Hin'. congruence.
    + intros j _. apply NoDup_singleton.
Qed.

(** C4. With a positive block size: a block iteration collects the index
    pair [(idx1, idx2)] of its two blocks iff [idx1 > idx2] and
    [block_id1 <= block_id2], or [idx1 < idx2] and [block_id1 < block_id2],
    the block ids being the indices modulo [block_size]; and over all block
    iterations of a run on [num_images] images every unordered pair [(i, j)]
    with [i < j < num_images] is collected exactly once and nothing else
    is: the collected pairs, written with the smaller index first, are a
    duplicate-free rearrangement of the list of all those pairs.  The image
    pairs handed to [Match] are the images at these positions. *)
Theorem C4_exhaustive_blocks_cover_each_pair_once
    (image_ids : list image_t) (block_size : nat) :
  0 < block_size ->
  let num_images := length image_ids in
  (forall start_idx1 start_idx2 idx1 idx2,
     (idx1, idx2) ∈
       Exhaustive_block_pairs num_images block_size start_idx1 start_idx2 <->
     (start_idx1 <= idx1 <= block_end num_images block_size start_idx1 /\
      start_idx2 <= idx2 <= block_end num_images block_size start_idx2) /\
     ((idx2 < idx1 /\ idx1 mod block_size <= idx2 mod block_size) \/
      (idx1 < idx2 /\ idx1 mod block_size < idx2 mod block_size))) /\
  map unordered (Exhaustive_Run_pairs num_images block_size)
    ≡ₚ all_pairs num_images /\
  NoDup (map unordered (Exhaustive_Run_pairs num_images block_size)) /\
  concat (ExhaustiveFeatureMatcher_Run image_ids block_size) =
    image_pairs_of image_ids (Exhaustive_Run_pairs num_images block_size).
Proof.
  intros Hbs num_images.
  assert (Hnodup :
    NoDup (map unordered (Exhaustive_Run_pairs num_images block_size))).
  { apply (NoDup_fmap_2_strong unordered);
      [| by apply Exhaustive_Run_pairs_NoDup].
    intros [i j] [i' j'] Hin Hin' Heq.
    apply Exhaustive_Run_pairs_elem in Hin as (_ & _ & E); [| done].
    apply Exhaustive_Run_pairs_elem in Hin' as (_ & _ & E'); [| done].
    apply exhaustive_emit_rule in E, E'.
    unfold unordered in Heq. cbn [fst snd] in Heq.
    injection Heq as Hmin Hmax.
    assert ((i = i' /\ j = j') \/ (i = j' /\ j = i')) as [[-> ->] | [-> ->]]
      by lia; [done |].
    lia. }
  split; [| split; [| split; [done |]]].
  - intros s1 s2 idx1 idx2.
    by rewrite Exhaustive_block_pairs_elem, exhaustive_emit_rule.
  - apply NoDup_Permutation; [done | apply all_pairs_NoDup |].
    intros [i j]. rewrite all_pairs_elem. split.
    + intros ([a b] & Heq & Hin)%list_elem_of_fmap.
      apply Exhaustive_Run_pairs_elem in Hin as (Ha & Hb & E); [| done].
      apply exhaustive_emit_rule in E.
      unfold unordered in Heq. cbn [fst snd] in Heq.
      injection Heq as -> ->. lia.
    + intros Hij.
      destruct (Nat.lt_ge_cases (i mod block_size) (j mod block_size))
        as [Hlt | Hge].
      * apply list_elem_of_fmap. exists (i, j). split.
        -- unfold unordered. cbn [fst snd]. f_equal; lia.
        -- apply Exhaustive_Run_pairs_elem; [done |].
           rewrite exhaustive_emit_rule. lia.
      * apply list_elem_of_fmap. exists (j, i). split.
        -- unfold unordered. cbn [fst snd]. f_equal; lia.
        -- apply Exhaustive_Run_pairs_elem; [done |].
           rewrite exhaustive_emit_rule. lia.
  - unfold ExhaustiveFeatureMatcher_Run, Exhaustive_Run_pairs, image_pairs_of.
    fold num_images. by rewrite concat_map.
Qed.

Lemma C4_witness :
  let image_ids := [11; 12; 13; 14; 15]%N in
  let num_images := length image_ids in
  (forall start_idx1 start_idx2 idx1 idx2,
     (idx1, idx2) ∈ Exhaustive_block_pairs num_images 2 start_idx1 start_idx2 <->
     (start_idx1 <= idx1 <= block_end num_images 2 start_idx1 /\
      start_idx2 <= idx2 <= block_end num_images 2 start_idx2) /\
     ((idx2 < idx1 /\ idx1 mod 2 <= idx2 mod 2) \/
      (idx1 < idx2 /\ idx1 mod 2 < idx2 mod 2))) /\
  map unordered (Exhaustive_Run_pairs num_images 2) ≡ₚ all_pairs num_images /\
  NoDup (map unordered (Exhaustive_Run_pairs num_images 2)) /\
  concat (ExhaustiveFeatureMatcher_Run image_ids 2) =
    image_pairs_of image_ids (Exhaustive_Run_pairs num_images 2).
Proof.
  apply (C4_exhaustive_blocks_cover_each_pair_once [11; 12; 13; 14; 15]%N 2).
  lia.
Defined.

(** ** Sequential matching *)

Lemma to_size_t_small (z : Z) : (0 <= z < 2 ^ 64)%Z -> to_size_t z = z.
Proof. intros Hz. unfold to_size_t. by apply Z.mod_small. Qed.

Lemma shl1_pow (i : Z) : (0 <= i <= 30)%Z -> shl1 i = (2 ^ i)%Z.
Proof.
  intros Hi. unfold shl1, to_int. rewrite Z.shiftl_1_l.
  assert (0 < 2 ^ i <= 2 ^ 30)%Z.
  { split; [apply Z.pow_pos_nonneg; lia | apply Z.pow_le_mono_r; lia]. }
  rewrite Z.mod_small; lia.
Qed.

(** What the inner loop of [RunSequentialMatching] pairs a position with,
    for an overlap the shift [1 << i] is defined for. *)
Lemma sequential_loop_elem (overlap : Z) (quadratic_overlap : bool)
    (num_images image_idx1 : Z) :
  (0 <= image_idx1 < num_images)%Z -> (num_images <= 2 ^ 63)%Z ->
  (overlap <= 31)%Z ->
  forall (fuel : nat) (i : Z) (p : Z * Z),
    (0 <= i)%Z -> (overlap - i <= Z.of_nat fuel)%Z ->
    p ∈ sequential_loop fuel i overlap quadratic_overlap num_images image_idx1
    <->
    fst p = image_idx1 /\
    ((exists k, i <= k < overlap /\ snd p = image_idx1 + k /\
                image_idx1 + k < num_images)
     \/ (quadratic_overlap = true /\
         exists k, i <= k < overlap /\ snd p = image_idx1 + 2 ^ k /\
                   image_idx1 + 2 ^ k < num_images))%Z.
Proof.
  intros Hidx HN Hov.
  induction fuel as [| fuel IH]; intros i [a b] Hi Hfuel;
    cbn [sequential_loop fst snd].
  - split; [by intros ?%elem_of_nil |].
    intros (_ & [(k & ? & _) | (_ & k & ? & _)]); lia.
  - destruct (Z.ltb_spec i overlap) as [Hlt | Hge]; cycle 1.
    { split; [by intros ?%elem_of_nil |].
      intros (_ & [(k & ? & _) | (_ & k & ? & _)]); lia. }
    rewrite to_size_t_small by lia.
    destruct (Z.ltb_spec (image_idx1 + i) num_images) as [Hin | Hout]; cycle 1.
    { split; [by intros ?%elem_of_nil |].
      intros (_ & [(k & ? & _ & ?) | (_ & k & ? & _ & ?)]); [lia |].
      pose proof (Z.pow_gt_lin_r 2 k ltac:(lia) ltac:(lia)). lia. }
    rewrite shl1_pow by lia.
    assert (Hpow : (0 < 2 ^ i <= 2 ^ 30)%Z).
    { split; [apply Z.pow_pos_nonneg; lia | apply Z.pow_le_mono_r; lia]. }
    rewrite to_size_t_small by lia.
    rewrite elem_of_cons, elem_of_app, IH by lia. cbn [fst snd].
    split.
    + intros [Heq | [Hq | (-> & Hrest)]].
      * injection Heq as -> ->. split; [done |]. left. exists i. lia.
      * destruct quadratic_overlap; [| by apply elem_of_nil in Hq].
        destruct (Z.ltb_spec (image_idx1 + 2 ^ i) num_images);
          [| by apply elem_of_nil in Hq].
        apply list_elem_of_singleton in Hq. injection Hq as -> ->.
        split; [done |]. right. split; [done |]. exists i. lia.
      * split; [done |].
        destruct Hrest as [(k & ? & ? & ?) | (? & k & ? & ? & ?)].
        -- left. exists k. lia.
        -- right. split; [done |]. exists k. lia.
    + intros (-> & [(k & Hk & -> & Hlin) | (Hquad & k & Hk & -> & Hq)]).
      * destruct (decide (k = i)) as [-> | Hne]; [by left |].
        right. right. split; [done |]. left. exists k. lia.
      * destruct (decide (k = i)) as [-> | Hne].
        -- right. left. rewrite Hquad.
           destruct (Z.ltb_spec (image_idx1 + 2 ^ i) num_images); [| lia].
           by apply list_elem_of_singleton.
        -- right. right. split; [done |]. right. split; [done |].
           exists k. lia.
Qed.

(** The pairs collected for the image at position [i]: the linear offsets
    are [0 <= k < overlap], so the position is paired with itself and never
    with the position [overlap] places ahead. *)
Lemma sequential_positions_elem (overlap : Z) (quadratic_overlap : bool)
    (num_images i : Z) (p : Z * Z) :
  (0 <= i < num_images)%Z -> (num_images <= 2 ^ 63)%Z ->
  (0 <= overlap <= 31)%Z ->
  p ∈ sequential_positions overlap quadratic_overlap num_images i <->
  code_sequential_pair overlap quadratic_overlap num_images i p.
Proof.
  intros Hi HN Hov. unfold sequential_positions, code_sequential_pair.
  rewrite sequential_loop_elem by lia. done.
Qed.

(** C3. The loop of [RunSequentialMatching] does not collect the pairs the
    specification lists.  For two images, overlap 1 and no quadratic
    overlap, the specification has the pair of positions [(0, 1)] and no
    other; the loop collects the self-pair [(0, 0)] only, and hands [Match]
    the first image paired with itself.  For eight images, overlap 3 and
    quadratic overlap, the specification has [(0, 3)], which the loop does
    not collect. *)
Theorem C3_sequential_pairs_start_at_offset_zero :
  sequential_positions 1 false 2 0 = [(0, 0)]%Z /\
  spec_sequential_pair 1 false 2 0 (0, 1)%Z /\
  ~ spec_sequential_pair 1 false 2 0 (0, 0)%Z /\
  RunSequentialMatching_pairs 1 false [10; 20]%N 0 = [(10, 10)]%N /\
  sequential_positions 3 true 8 0 =
    [(0, 0); (0, 1); (0, 1); (0, 2); (0, 2); (0, 4)]%Z /\
  spec_sequential_pair 3 true 8 0 (0, 3)%Z.
Proof.
  split; [reflexivity |]. split; [| split; [| split; [reflexivity |]]].
  - split; [reflexivity |]. left. exists 1%Z. cbn. lia.
  - intros (_ & [(k & Hk & Heq & _) | (Hq & _)]); [cbn in Heq; lia | done].
  - split; [reflexivity |]. split; [reflexivity |].
    left. exists 3%Z. cbn. lia.
Qed.

(** ** Spatial matching *)

Lemma SFcompare_antisym (x y : float) :
  SFcompare y x = CompOpp <$> SFcompare x y.
Proof.
  destruct x as [sx | sx | | sx mx ex], y as [sy | sy | | sy my ey];
    try destruct sx; try destruct sy; try reflexivity; cbn.
  - rewrite (Z.compare_antisym ex ey).
    destruct (ex ?= ey)%Z; cbn; try reflexivity.
    by rewrite (Pos.compare_cont_antisym mx my Eq).
  - rewrite (Z.compare_antisym ex ey).
    destruct (ex ?= ey)%Z; cbn; try reflexivity.
    by rewrite (Pos.compare_cont_antisym mx my Eq).
Qed.

Lemma SFcompare_not_nan (x y : float) :
  is_nan x = false -> is_nan y = false -> is_Some (SFcompare x y).
Proof.
  destruct x as [sx | sx | | sx mx ex], y as [sy | sy | | sy my ey];
    intros Hx Hy; try discriminate; cbn; eauto.
Qed.

(** Away from NaN, "not greater" is "less or equal". *)
Lemma float_not_gt_le (x y : float) :
  is_nan x = false -> is_nan y = false ->
  float_gt x y = false -> float_le x y = true.
Proof.
  unfold float_gt, float_le, SFltb, SFleb. intros Hx Hy.
  rewrite (SFcompare_antisym x y).
  destruct (SFcompare_not_nan x y Hx Hy) as [c ->].
  by destruct c.
Qed.

Section SpatialProperties.
Variable index_matrix : nat -> nat -> nat.
Variable distance_matrix : nat -> nat -> float.
Variable max_distance : float.
Variable image_ids : list image_t.
Variable location_idxs : list nat.

Local Abbreviation stop_column :=
  (spatial_stop_column index_matrix distance_matrix max_distance).
Local Abbreviation neighbor_loop :=
  (spatial_neighbor_loop index_matrix distance_matrix max_distance image_ids
     location_idxs).
Local Abbreviation pair_of :=
  (spatial_pair index_matrix image_ids location_idxs).

Lemma spatial_stop_column_bounds (i : nat) :
  forall remaining j,
    j <= stop_column remaining i j <= j + remaining.
Proof.
  induction remaining as [| r IH]; intros j; cbn [spatial_stop_column]; [lia |].
  destruct (_ && _); [lia |]. specialize (IH (S j)). lia.
Qed.

(** The stop column is the first one that holds another location farther
    than the threshold. *)
Lemma spatial_stop_column_first (i : nat) :
  forall remaining j,
    let stop := stop_column remaining i j in
    (forall j', j <= j' < stop ->
       index_matrix i j' = i \/
       float_gt (distance_matrix i j') max_distance = false) /\
    (stop < j + remaining ->
       index_matrix i stop <> i /\
       float_gt (distance_matrix i stop) max_distance = true).
Proof.
  induction remaining as [| r IH]; intros j; cbn [spatial_stop_column].
  - split; intros; lia.
  - destruct (Nat.eqb_spec (index_matrix i j) i) as [Hself | Hother];
      cbn [negb andb].
    + destruct (IH (S j)) as [Hbefore Hstop]. split.
      * intros j' Hj'. destruct (decide (j' = j)) as [-> | Hne]; [by left |].
        apply Hbefore. lia.
      * intros Hlt. apply Hstop. lia.
    + destruct (float_gt (distance_matrix i j) max_distance) eqn:Egt.
      * split; [intros; lia | done].
      * destruct (IH (S j)) as [Hbefore Hstop]. split.
        -- intros j' Hj'. destruct (decide (j' = j)) as [-> | Hne]; [by right |].
           apply Hbefore. lia.
        -- intros Hlt. apply Hstop. lia.
Qed.

Lemma spatial_neighbor_loop_spec (i : nat) :
  i < length location_idxs ->
  Forall (fun l => l < length image_ids) location_idxs ->
  forall remaining j,
    (forall j', j <= j' < j + remaining ->
                index_matrix i j' < length location_idxs) ->
    neighbor_loop remaining i j =
      Ok (map (pair_of i)
            (filter (fun j' => index_matrix i j' <> i)
               (seq j (stop_column remaining i j - j)))).
Proof.
  intros Hi Hloc.
  induction remaining as [| r IH]; intros j Hidx;
    cbn [spatial_neighbor_loop spatial_stop_column].
  - by rewrite Nat.sub_diag.
  - pose proof (spatial_stop_column_bounds i r (S j)) as Hb.
    destruct (Nat.eqb_spec (index_matrix i j) i) as [Hself | Hother];
      cbn [negb andb].
    + rewrite IH by (intros; apply Hidx; lia).
      replace (stop_column r i (S j) - j) with (S (stop_column r i (S j) - S j))
        by lia.
      cbn [seq]. by rewrite filter_cons_False by (intros Hne; by apply Hne).
    + destruct (float_gt (distance_matrix i j) max_distance) eqn:Egt.
      { by rewrite Nat.sub_diag. }
      destruct (lookup_lt_is_Some_2 location_idxs i Hi) as [idx Hidx_i].
      assert (Hnth : nth i location_idxs 0 = idx) by by apply nth_lookup_Some.
      pose proof (Forall_lookup_1 _ _ _ _ Hloc Hidx_i) as Hidx_lt.
      destruct (lookup_lt_is_Some_2 image_ids idx Hidx_lt) as [image_id Himg].
      destruct (lookup_lt_is_Some_2 location_idxs (index_matrix i j)
                  (Hidx j ltac:(lia))) as [nn_idx Hnn].
      pose proof (Forall_lookup_1 _ _ _ _ Hloc Hnn) as Hnn_lt.
      destruct (lookup_lt_is_Some_2 image_ids nn_idx Hnn_lt) as [nn_id Hnn_img].
      unfold vector_at. rewrite Hnth, Himg. run_bind.
      rewrite Hnn. run_bind.
      rewrite Hnn_img. run_bind.
      rewrite IH by (intros; apply Hidx; lia).
      run_bind.
      replace (stop_column r i (S j) - j) with (S (stop_column r i (S j) - S j))
        by lia.
      cbn [seq]. rewrite filter_cons_True by done. cbn [map].
      do 2 f_equal. unfold spatial_pair, image_at.
      rewrite Hnth, (nth_lookup_Some _ _ _ _ Hnn).
      by rewrite (nth_lookup_Some _ _ _ _ Himg), (nth_lookup_Some _ _ _ _ Hnn_img).
Qed.

(** Another location is another image, when the positions and the ids are
    free of duplicates. *)
Lemma spatial_pair_not_self (i j : nat) :
  NoDup location_idxs -> NoDup image_ids ->
  Forall (fun l => l < length image_ids) location_idxs ->
  i < length location_idxs -> index_matrix i j < length location_idxs ->
  index_matrix i j <> i ->
  fst (pair_of i j) <> snd (pair_of i j).
Proof.
  intros Hnd_loc Hnd_ids Hloc Hi Hj Hne. unfold spatial_pair, image_at.
  cbn [fst snd].
  destruct (lookup_lt_is_Some_2 location_idxs i Hi) as [a Ha].
  destruct (lookup_lt_is_Some_2 location_idxs _ Hj) as [b Hb].
  rewrite (nth_lookup_Some _ _ _ _ Ha), (nth_lookup_Some _ _ _ _ Hb).
  assert (Hab : a <> b).
  { intros Heq. subst b. apply Hne.
    exact (NoDup_lookup _ _ _ _ Hnd_loc Hb Ha). }
  destruct (lookup_lt_is_Some_2 image_ids a (Forall_lookup_1 _ _ _ _ Hloc Ha))
    as [x Hx].
  destruct (lookup_lt_is_Some_2 image_ids b (Forall_lookup_1 _ _ _ _ Hloc Hb))
    as [y Hy].
  rewrite (nth_lookup_Some _ _ _ _ Hx), (nth_lookup_Some _ _ _ _ Hy).
  intros Heq. subst y. apply Hab.
  exact (NoDup_lookup _ _ _ _ Hnd_ids Hx Hy).
Qed.

End SpatialProperties.

Lemma shr_1_nonneg (mrs : shr_record) :
  (0 <= shr_m mrs)%Z -> (0 <= shr_m (shr_1 mrs))%Z.
Proof. destruct mrs as [[| [p | p |] | p] r s]; cbn; lia. Qed.

Lemma iter_pos_shr_1_nonneg (p : positive) :
  forall mrs,
    (0 <= shr_m mrs)%Z -> (0 <= shr_m (SpecFloat.iter_pos shr_1 p mrs))%Z.
Proof.
  induction p as [p IH | p IH |]; intros mrs Hm; cbn [SpecFloat.iter_pos].
  - by apply IH, IH, shr_1_nonneg.
  - by apply IH, IH.
  - by apply shr_1_nonneg.
Qed.

Lemma shr_fexp_nonneg (prec emax m e : Z) (l : location) :
  (0 <= m)%Z -> (0 <= shr_m (fst (shr_fexp prec emax m e l)))%Z.
Proof.
  intros Hm. unfold shr_fexp, shr.
  assert (Hrec : (0 <= shr_m (shr_record_of_loc m l))%Z)
    by (destruct l as [| []]; exact Hm).
  destruct (fexp prec emax (Zdigits2 m + e) - e)%Z; cbn [fst]; [done | | done].
  by apply iter_pos_shr_1_nonneg.
Qed.

Lemma round_nearest_even_nonneg (m : Z) (l : location) :
  (0 <= m)%Z -> (0 <= round_nearest_even m l)%Z.
Proof.
  intros Hm. unfold round_nearest_even.
  destruct l as [| []]; try lia. destruct (IntDef.Z.even m); lia.
Qed.

(** Rounding a non-negative mantissa never gives NaN. *)
Lemma binary_round_aux_not_nan (prec emax : Z) (sx : bool) (mx ex : Z)
    (lx : location) :
  (0 <= mx)%Z -> is_nan (binary_round_aux prec emax sx mx ex lx) = false.
Proof.
  intros Hm. unfold binary_round_aux.
  pose proof (shr_fexp_nonneg prec emax mx ex lx Hm) as H1.
  destruct (shr_fexp prec emax mx ex lx) as [mrs1 e1]. cbn [fst] in H1.
  pose proof (shr_fexp_nonneg prec emax
                (round_nearest_even (shr_m mrs1) (loc_of_shr_record mrs1)) e1
                loc_Exact (round_nearest_even_nonneg _ _ H1)) as H2.
  destruct (shr_fexp prec emax _ e1 loc_Exact) as [mrs2 e2]. cbn [fst] in H2.
  destruct (shr_m mrs2) as [| m | m]; [done | | lia].
  by destruct (e2 <=? emax - prec)%Z.
Qed.

Lemma double_to_float_not_nan (x : float) :
  is_nan x = false -> is_nan (double_to_float x) = false.
Proof.
  destruct x as [s | s | | s m e]; try done. intros _.
  unfold double_to_float, binary_round.
  destruct (shl_align m e _) as [mz ez].
  by apply binary_round_aux_not_nan.
Qed.

(** The threshold of an option set that passes [Check] is not NaN. *)
Lemma spatial_max_distance_not_nan (max_num_neighbors : Z)
    (options_max_distance : float) :
  SpatialMatchingOptions_Check max_num_neighbors options_max_distance = true ->
  is_nan (spatial_max_distance options_max_distance) = false.
Proof.
  unfold SpatialMatchingOptions_Check. intros [_ Hgt]%andb_true_iff.
  unfold spatial_max_distance. apply double_to_float_not_nan.
  destruct options_max_distance as [s | [|] | | [|] m e]; try done.
  unfold double_mul, SFmul. by apply binary_round_aux_not_nan.
Qed.

(** C7. For a query location [i] whose neighbour row holds valid locations,
    with the threshold [max_distance] computed from the option as the
    source computes it: the loop returns the pairs of the columns before the
    stop column that hold another location.  Each of these columns is one of
    the [knn = min(max_num_neighbors, num_locations)] columns of the row,
    holds a location other than the query, and a squared distance that is
    not greater than the threshold: less than or equal to it unless the
    distance or the threshold is NaN.  The threshold of options that pass
    [Check] is not NaN, so with such options every emitted column holds a
    distance that is less than or equal to the threshold or is NaN.  The
    stop column is the first one that
    holds another location farther than the threshold: nothing is emitted
    from it on, while columns before it that hold the query itself are
    skipped and the ones after them are still emitted.  The two images of
    an emitted pair differ. *)
Theorem C7_spatial_pairs_within_distance
    (index_matrix : nat -> nat -> nat) (distance_matrix : nat -> nat -> float)
    (options_max_distance : float) (image_ids : list image_t)
    (location_idxs : list nat) (max_num_neighbors : Z) (i : nat) :
  let max_distance := spatial_max_distance options_max_distance in
  let knn := spatial_knn max_num_neighbors (length location_idxs) in
  let stop :=
    spatial_stop_column index_matrix distance_matrix max_distance
      (Z.to_nat knn) i 0 in
  let columns :=
    spatial_columns index_matrix distance_matrix max_distance knn i in
  i < length location_idxs ->
  (forall j, (Z.of_nat j < knn)%Z -> index_matrix i j < length location_idxs) ->
  Forall (fun l => l < length image_ids) location_idxs ->
  Spatial_query_pairs index_matrix distance_matrix max_distance image_ids
      location_idxs knn i =
    Ok (map (spatial_pair index_matrix image_ids location_idxs i) columns) /\
  (forall j, j ∈ columns ->
     (Z.of_nat j < knn)%Z /\ j < stop /\
     index_matrix i j <> i /\
     float_gt (distance_matrix i j) max_distance = false /\
     (is_nan (distance_matrix i j) = false -> is_nan max_distance = false ->
      float_le (distance_matrix i j) max_distance = true)) /\
  (SpatialMatchingOptions_Check max_num_neighbors options_max_distance = true ->
   is_nan max_distance = false /\
   forall j, j ∈ columns ->
     float_le (distance_matrix i j) max_distance = true \/
     is_nan (distance_matrix i j) = true) /\
  (stop < Z.to_nat knn ->
     index_matrix i stop <> i /\
     float_gt (distance_matrix i stop) max_distance = true) /\
  (forall j, j < stop -> index_matrix i j <> i -> j ∈ columns) /\
  (NoDup location_idxs -> NoDup image_ids ->
   Forall (fun p => fst p <> snd p)
     (map (spatial_pair index_matrix image_ids location_idxs i) columns)).
Proof.
  intros max_distance knn stop columns Hi Hidx Hloc.
  pose proof (spatial_stop_column_bounds index_matrix distance_matrix
                max_distance i (Z.to_nat knn) 0) as Hbounds.
  destruct (spatial_stop_column_first index_matrix distance_matrix
              max_distance i (Z.to_nat knn) 0) as [Hbefore Hstop].
  fold stop in Hbounds, Hbefore, Hstop.
  assert (Hcol : forall j, j ∈ columns <-> index_matrix i j <> i /\ j < stop).
  { intros j. unfold columns, spatial_columns. fold stop.
    rewrite list_elem_of_filter, elem_of_seq. split; intros [? ?]; split;
      try done; lia. }
  assert (Hle : forall j, j ∈ columns ->
            float_gt (distance_matrix i j) max_distance = false).
  { intros j [Hother Hj]%Hcol.
    destruct (Hbefore j ltac:(lia)) as [Hself | Hgt]; [done | done]. }
  split; [| split; [| split; [| split; [| split]]]].
  - unfold Spatial_query_pairs.
    rewrite spatial_neighbor_loop_spec; try done.
    + fold stop. by rewrite Nat.sub_0_r.
    + intros j Hj. apply Hidx. lia.
  - intros j Hin. pose proof (Hle j Hin) as Hgt.
    apply Hcol in Hin as [Hother Hj].
    repeat split; try done; try lia.
    intros Hnan Hnan'. by apply float_not_gt_le.
  - intros Hcheck.
    pose proof (spatial_max_distance_not_nan _ _ Hcheck) as Hmax.
    split; [done |]. intros j Hin.
    destruct (is_nan (distance_matrix i j)) eqn:Hnan; [by right |].
    left. apply float_not_gt_le; [done | done |]. by apply Hle.
  - intros Hlt. apply Hstop. lia.
  - intros j Hj Hother. by apply Hcol.
  - intros Hnd_loc Hnd_ids. apply Forall_forall.
    intros p (j & -> & [Hother Hj]%Hcol)%list_elem_of_fmap.
    apply spatial_pair_not_self; try done.
    apply Hidx. lia.
Qed.

(** Three images with locations and the maximal distance 2; the nearest
    neighbours of the first are itself at distance 0 and the second at
    squared distance 1, below the threshold 4; the third has its nearest
    other location at squared distance 81. *)
Lemma C7_witness :
  let f0 := S754_zero false in
  let f1 := S754_finite false 8388608 (-23) in
  let f81 := S754_finite false 10616832 (-17) in
  let options_max_distance := S754_finite false 4503599627370496 (-51) in
  let max_distance := spatial_max_distance options_max_distance in
  let index_matrix := fun i j => nth j (nth i [[0; 1]; [1; 0]; [2; 1]] []) 0 in
  let distance_matrix :=
    fun i j => nth j (nth i [[f0; f1]; [f0; f1]; [f0; f81]] []) f0 in
  max_distance = S754_finite false 8388608 (-21) /\
  Spatial_query_pairs index_matrix distance_matrix max_distance
      [11; 12; 13]%N [0; 1; 2] (spatial_knn 2 3) 0 = Ok [(11, 12)%N] /\
  Spatial_query_pairs index_matrix distance_matrix max_distance
      [11; 12; 13]%N [0; 1; 2] (spatial_knn 2 3) 2 = Ok [].
Proof.
  intros f0 f1 f81 options_max_distance max_distance index_matrix
    distance_matrix.
  split; [reflexivity |]. split.
  - refine (proj1 (C7_spatial_pairs_within_distance index_matrix
                     distance_matrix options_max_distance [11; 12; 13]%N
                     [0; 1; 2] 2 0 _ _ _)).
    + cbn. lia.
    + intros j Hj. change (Z.of_nat j < 2)%Z in Hj.
      destruct j as [| [| j]]; cbn; lia.
    + repeat constructor; cbn; lia.
  - refine (proj1 (C7_spatial_pairs_within_distance index_matrix
                     distance_matrix options_max_distance [11; 12; 13]%N
                     [0; 1; 2] 2 2 _ _ _)).
    + cbn. lia.
    + intros j Hj. change (Z.of_nat j < 2)%Z in Hj.
      destruct j as [| [| j]]; cbn; lia.
    + repeat constructor; cbn; lia.
Defined.

(** A distance that is NaN is not greater than the threshold, so the loop
    emits the pair although the distance is not less than or equal to the
    threshold: with the maximal distance 2, the only other location of the
    query 0 is at a NaN distance, and the pair of the two images is handed
    to [Match]. *)
Lemma C7_nan_distance_is_emitted :
  let options_max_distance := S754_finite false 4503599627370496 (-51) in
  let max_distance := spatial_max_distance options_max_distance in
  let index_matrix := fun i j => nth j (nth i [[0; 1]; [1; 0]] []) 0 in
  let distance_matrix :=
    fun i j => nth j (nth i [[S754_zero false; S754_nan];
                             [S754_zero false; S754_nan]] [])
                 (S754_zero false) in
  SpatialMatchingOptions_Check 2 options_max_distance = true /\
  Spatial_query_pairs index_matrix distance_matrix max_distance
      [11; 12]%N [0; 1] (spatial_knn 2 2) 0 = Ok [(11, 12)%N] /\
  spatial_columns index_matrix distance_matrix max_distance (spatial_knn 2 2) 0
    = [1] /\
  float_le (distance_matrix 0 1) max_distance = false /\
  spec_within_distance distance_matrix max_distance 0
    (spatial_columns index_matrix distance_matrix max_distance
       (spatial_knn 2 2) 0) = false.
Proof. by vm_compute. Qed.

(** ** Transitive matching *)

Lemma foldl_bind {A B C} (f : A -> C -> A) (g : B -> list C) (l : list B) :
  forall a, foldl f a (l ≫= g) = foldl (fun a x => foldl f a (g x)) a l.
Proof.
  induction l as [| x l IH]; intros a; [done |].
  by rewrite bind_cons, foldl_app, IH.
Qed.

Lemma foldl_ext_in {A B} (f g : A -> B -> A) (l : list B) :
  (forall a x, f a x = g a x) -> forall a, foldl f a l = foldl g a l.
Proof.
  intros Hfg. induction l as [| x l IH]; intros a; [done |].
  cbn. by rewrite Hfg, IH.
Qed.

Lemma match_calls_app (l1 l2 : list DriverEvent) :
  match_calls (l1 ++ l2) = match_calls l1 ++ match_calls l2.
Proof. apply omap_app. Qed.

Lemma match_calls_flushes (batches : list (list (image_t * image_t))) :
  match_calls (batches ≫= flush) = batches.
Proof.
  induction batches as [| b batches IH]; [done |].
  rewrite bind_cons, match_calls_app, IH. done.
Qed.

Section TransitiveProperties.
Context `{External}.

(** The three loops visit the end points of the walks in order. *)
Lemma walk_loops_endpoints (batch_size : Z) (adjacency : gmap N (list N))
    (order : list (image_t * list image_t)) (st : walk_state) :
  walk_loops batch_size adjacency order st =
    foldl (fun st p => visit_endpoint batch_size (fst p) (snd p) st) st
          (walk_endpoints adjacency order).
Proof.
  unfold walk_loops, walk_endpoints.
  rewrite foldl_bind. apply foldl_ext_in. intros st1 image.
  rewrite foldl_bind. apply foldl_ext_in. intros st2 image_id2.
  rewrite foldl_bind.
  destruct (adjacency !! image_id2) as [third |]; [| done].
  cbn [default]. by apply foldl_ext_in.
Qed.

Lemma visit_endpoint_seen (batch_size : Z) (a c : image_t) (st : walk_state) :
  ImagePairToPairId a c ∈ image_pair_ids st ->
  visit_endpoint batch_size a c st = st.
Proof. intros Hin. unfold visit_endpoint. by rewrite decide_True. Qed.

Lemma visit_endpoint_new (batch_size : Z) (a c : image_t) (st : walk_state) :
  ImagePairToPairId a c ∉ image_pair_ids st ->
  visit_endpoint batch_size a c st =
    if (to_size_t batch_size <=?
        Z.of_nat (length (image_pairs st ++ [(a, c)])))%Z
    then {| image_pairs := [];
            image_pair_ids := {[ImagePairToPairId a c]} ∪ image_pair_ids st;
            driver_log := driver_log st ++ flush (image_pairs st ++ [(a, c)]) |}
    else {| image_pairs := image_pairs st ++ [(a, c)];
            image_pair_ids := {[ImagePairToPairId a c]} ∪ image_pair_ids st;
            driver_log := driver_log st |}.
Proof. intros Hin. unfold visit_endpoint. by rewrite decide_False. Qed.

(** Visiting end points one after the other: the flushes add full batches to
    the log, and the batches followed by the buffer are the buffer at the
    start followed by the first occurrences, by pair id, of the end points
    visited. *)
Lemma visit_endpoints_batches (batch_size : Z) :
  (0 < to_size_t batch_size)%Z ->
  forall (W : list (image_t * image_t)) (st : walk_state),
    (Z.of_nat (length (image_pairs st)) < to_size_t batch_size)%Z ->
    exists batches,
      driver_log
        (foldl (fun st p => visit_endpoint batch_size (fst p) (snd p) st) st W)
        = driver_log st ++ (batches ≫= flush) /\
      Forall (fun b => Z.of_nat (length b) = to_size_t batch_size) batches /\
      (Z.of_nat
         (length
            (image_pairs
               (foldl (fun st p => visit_endpoint batch_size (fst p) (snd p) st)
                      st W)))
       < to_size_t batch_size)%Z /\
      concat batches
      ++ image_pairs
           (foldl (fun st p => visit_endpoint batch_size (fst p) (snd p) st)
                  st W) =
        image_pairs st ++ first_occurrences (image_pair_ids st) W.
Proof.
  intros Hbs. induction W as [| [a c] W IH]; intros st Hlen.
  - exists []. cbn. by rewrite !app_nil_r.
  - cbn [foldl first_occurrences fst snd].
    destruct (decide (ImagePairToPairId a c ∈ image_pair_ids st)) as [Hin | Hnew].
    { rewrite visit_endpoint_seen by done. by apply IH. }
    rewrite visit_endpoint_new by done.
    destruct (Z.leb_spec (to_size_t batch_size)
                (Z.of_nat (length (image_pairs st ++ [(a, c)])))) as [Hfull | Hroom].
    + match goal with |- context [foldl _ ?s W] => set (st1 := s) end.
      destruct (IH st1) as (batches & Hlog & Hall & Hlen' & Hcat).
      { cbn. lia. }
      exists ((image_pairs st ++ [(a, c)]) :: batches).
      split; [| split; [| split]].
      * rewrite Hlog. cbn [driver_log st1]. by rewrite bind_cons, app_assoc.
      * constructor; [| done].
        rewrite length_app in *. cbn [length] in *. lia.
      * done.
      * cbn [concat]. rewrite <- app_assoc, Hcat.
        cbn [image_pairs st1 image_pair_ids]. by rewrite <- app_assoc.
    + match goal with |- context [foldl _ ?s W] => set (st1 := s) end.
      destruct (IH st1) as (batches & Hlog & Hall & Hlen' & Hcat).
      { cbn. lia. }
      exists batches. split; [done |]. split; [done |]. split; [done |].
      rewrite Hcat. cbn [image_pairs st1 image_pair_ids].
      by rewrite <- app_assoc.
Qed.

(** C8. In an iteration of [TransitiveFeatureMatcher::Run] with a positive
    batch size: what the iteration does with the pool and the database is,
    for every batch in turn, to open a transaction, call [Match] with the
    batch and close the transaction, and then the same once more for the
    residual buffer at the end of the iteration; so the arguments of its
    calls of [Match] are the batches followed by the residual.  Every batch
    holds exactly [batch_size] pairs and the residual fewer; and the batches
    followed by the residual are the end points of the walks of length two
    over the adjacency map, in the order of the loops, of which the first
    occurrence of every pair id in the whole iteration is kept: a flush
    empties the buffer and leaves the set of pair ids as it is. *)
Theorem C8_transitive_flushes_full_batches
    (batch_size : Z) (adjacency : gmap N (list N))
    (order : list (image_t * list image_t)) :
  (0 < batch_size)%Z -> is_int batch_size ->
  exists batches residual,
    Transitive_iteration_on batch_size adjacency order =
      (batches ≫= fun batch =>
         [TransactionBegin; MatchCall batch; TransactionEnd])
      ++ [TransactionBegin; MatchCall residual; TransactionEnd] /\
    match_calls (Transitive_iteration_on batch_size adjacency order) =
      batches ++ [residual] /\
    Forall (fun b => Z.of_nat (length b) = batch_size) batches /\
    (Z.of_nat (length residual) < batch_size)%Z /\
    concat batches ++ residual =
      first_occurrences ∅ (walk_endpoints adjacency order).
Proof.
  intros Hpos Hint.
  assert (Hbs : to_size_t batch_size = batch_size).
  { unfold is_int in Hint. apply to_size_t_small. lia. }
  unfold Transitive_iteration_on. rewrite walk_loops_endpoints.
  match goal with |- context [foldl _ ?s ?W] =>
    destruct (visit_endpoints_batches batch_size ltac:(lia) W s)
      as (batches & Hlog & Hall & Hlen & Hcat)
  end.
  { cbn. lia. }
  rewrite Hbs in *. cbn [driver_log image_pairs image_pair_ids app] in Hlog, Hcat.
  eexists batches, _. split; [by rewrite Hlog |].
  split; [| by split; [| split]].
  by rewrite Hlog, match_calls_app, match_calls_flushes.
Qed.

End TransitiveProperties.

Lemma C8_witness :
  exists batches residual,
    Transitive_iteration 2 [(1, 2); (2, 3); (3, 4)]%N =
      (batches ≫= fun batch =>
         [TransactionBegin; MatchCall batch; TransactionEnd])
      ++ [TransactionBegin; MatchCall residual; TransactionEnd] /\
    match_calls (Transitive_iteration 2 [(1, 2); (2, 3); (3, 4)]%N) =
      batches ++ [residual] /\
    Forall (fun b => Z.of_nat (length b) = 2%Z) batches /\
    (Z.of_nat (length residual) < 2)%Z /\
    concat batches ++ residual =
      first_occurrences ∅
        (walk_endpoints (build_adjacency [(1, 2); (2, 3); (3, 4)]%N)
           (map_to_list (build_adjacency [(1, 2); (2, 3); (3, 4)]%N))).
Proof.
  apply (@C8_transitive_flushes_full_batches ref_external 2).
  - lia.
  - unfold is_int. lia.
Defined.

(** ** Import of feature pairs *)

Section FeaturePairsProperties.
Context `{External}.
Variable StringTrim : string -> string.
Variable read_FeatureMatch : string -> FeatureMatch.

(** A record whose first image name is not in the database ends the loop:
    whatever follows in the file is not read. *)
Lemma FeaturePairs_loop_unknown_first_image (fuel : nat)
    (image_name_to_image : gmap string N) (line : string)
    (lines : list string) (database : Cache) :
  string_empty (StringTrim line) = false ->
  image_name_to_image !! fst (extract_word (StringTrim line)) = None ->
  FeaturePairs_loop StringTrim read_FeatureMatch (S fuel) image_name_to_image
      (line :: lines) database =
    (database, [ReportImageNotFound (fst (extract_word (StringTrim line)))]).
Proof.
  intros Hline Hname. cbn [FeaturePairs_loop]. rewrite Hline.
  destruct (extract_word (StringTrim line)) as [image_name1 line_stream].
  destruct (extract_word line_stream) as [image_name2 rest].
  cbn [fst] in Hname. by rewrite Hname.
Qed.

(** The same for the second image name. *)
Lemma FeaturePairs_loop_unknown_second_image (fuel : nat)
    (image_name_to_image : gmap string N) (line : string)
    (lines : list string) (database : Cache) :
  string_empty (StringTrim line) = false ->
  is_Some (image_name_to_image !! fst (extract_word (StringTrim line))) ->
  image_name_to_image
    !! fst (extract_word (snd (extract_word (StringTrim line)))) = None ->
  FeaturePairs_loop StringTrim read_FeatureMatch (S fuel) image_name_to_image
      (line :: lines) database =
    (database,
     [ReportImageNotFound
        (fst (extract_word (snd (extract_word (StringTrim line)))))]).
Proof.
  intros Hline [image1 Hname1] Hname2. cbn [FeaturePairs_loop]. rewrite Hline.
  destruct (extract_word (StringTrim line)) as [image_name1 line_stream].
  cbn [fst snd] in *.
  destruct (extract_word line_stream) as [image_name2 rest].
  cbn [fst] in Hname2. by rewrite Hname1, Hname2.
Qed.

End FeaturePairsProperties.

(** C9. The import does not go on after a record it cannot resolve.  With
    the images [A] and [B] in the database and a file of two records, the
    first between the unknown images [X] and [Y] and the second between [A]
    and [B], the run reports [X] and writes nothing, although the second
    record alone is imported. *)
Theorem C9_unresolved_record_ends_import :
  let names : gmap string N := <["A"%string := 1%N]> (<["B"%string := 2%N]> ∅) in
  let record1 := ["X Y"; "0 0"; EmptyString]%string in
  let record2 := ["A B"; "17 4"; EmptyString]%string in
  FeaturePairsFeatureMatcher_Run ref_StringTrim ref_read_FeatureMatch names
      (record1 ++ record2) [] =
    ([], [ReportImageNotFound "X"%string]) /\
  import_writes
    (snd (FeaturePairsFeatureMatcher_Run ref_StringTrim ref_read_FeatureMatch
            names (record1 ++ record2) [])) = [] /\
  import_writes
    (snd (FeaturePairsFeatureMatcher_Run ref_StringTrim ref_read_FeatureMatch
            names record2 [])) =
    [(1%N, 2%N, [{| line_idx1 := 17; line_idx2 := 4 |}])].
Proof.
  intros names record1 record2. repeat split; vm_compute; reflexivity.
Qed.

(** ** The scenarios of the specification on the reference instance *)

(** Duplicate suppression: of [(A,B), (B,A), (A,A), (A,B)] one job is
    pushed.  The kernel of the reference instance finds three matches,
    fewer than [min_num_matches = 4], so the empty set is written. *)
Example scenario_duplicate_suppression :
  exists s',
    Match (fun i => (i, i)) [(1, 2); (2, 1); (1, 1); (1, 2)]%N
      (ref_pool [CPUMatcher] []) =
    Ok (s', [ExistsMatchesCall 1 2; PushJob (new_job (1, 2)%N);
             PopResult (new_job (1, 2)%N); WriteMatchesCall 1 2 []]).
Proof. eexists. vm_compute. reflexivity. Qed.

(** Skip existing: with matches for [(A,B)] in the database,
    [Match([(A,B), (A,C)])] pushes one job and writes one match set, here of
    the four matches the kernel finds. *)
Example scenario_skip_existing :
  exists s',
    Match (fun i => (i, i)) [(1, 2); (1, 3)]%N
      (ref_pool [CPUMatcher] [(ref_pair_id 1 2, [])]) =
    Ok (s', [ExistsMatchesCall 1 2; ExistsMatchesCall 1 3;
             PushJob (new_job (1, 3)%N);
             PopResult (set_matches (new_job (1, 3)%N) (ref_matches 4));
             WriteMatchesCall 1 3 (ref_matches 4)]).
Proof. eexists. vm_compute. reflexivity. Qed.

(** Two images in one block: the exhaustive strategy hands [Match] the one
    pair. *)
Example scenario_two_images :
  ExhaustiveFeatureMatcher_Run [1; 2]%N 2 = [[(1, 2)%N]].
Proof. reflexivity. Qed.

(** No image: the exhaustive strategy does not call [Match]. *)
Example scenario_empty_run : ExhaustiveFeatureMatcher_Run [] 2 = [].
Proof. reflexivity. Qed.

(** Results can arrive in any order: with the jobs delivered last first, the
    writes follow the order of arrival. *)
Example scenario_out_of_order :
  exists s',
    Match (fun i => (1 - i, 0)) [(1, 2); (2, 3)]%N (ref_pool [CPUMatcher] []) =
    Ok (s', [ExistsMatchesCall 1 2; PushJob (new_job (1, 2)%N);
             ExistsMatchesCall 2 3; PushJob (new_job (2, 3)%N);
             PopResult (set_matches (new_job (2, 3)%N) (ref_matches 5));
             WriteMatchesCall 2 3 (ref_matches 5);
             PopResult (new_job (1, 2)%N);
             WriteMatchesCall 1 2 []]).
Proof. eexists. vm_compute. reflexivity. Qed.

(** * Further properties *)

(** ** The dispatch loop: every job is answered and written once *)

Section PoolDelivery.
Context `{External}.

(** A worker answers a job with the ids of the job, and only reads
    descriptors from the cache. *)
Lemma MatcherThread_Run_job_ids (opts : SiftMatchingOptions) (m : MatcherThread)
    (cache : Cache) (job : FeatureMatcherData) :
  exists m' cache' d,
    MatcherThread_Run_job opts m cache job = Ok (m', cache', d) /\
    job_ids d = job_ids job /\
    (Database_keeps_matches ->
     forall a b, ExistsMatches cache' a b = ExistsMatches cache a b).
Proof.
  destruct m as [| g]; cbn [MatcherThread_Run_job].
  - pose proof (CPU_job_result opts cache job) as Hids.
    unfold SiftCPUFeatureMatcher_Run_job in *.
    destruct (GetDescriptors cache (image_id1 job)) as [d1 c1] eqn:E1.
    destruct (GetDescriptors c1 (image_id2 job)) as [d2 c2] eqn:E2.
    eexists _, _, _. split; [reflexivity |]. split.
    + unfold job_ids. cbn [set_matches].
      by destruct (size_lt_int _ _).
    + intros (Hread & _) a b.
      rewrite <- (Hread cache (image_id1 job) a b), E1. cbn [snd].
      by rewrite <- (Hread c1 (image_id2 job) a b), E2.
  - unfold SiftGPUFeatureMatcher_Run_job.
    assert (Hstep : forall index image_id g0 c0,
              (index = 0 \/ index = 1)%Z ->
              exists p g1 c1 q,
                GetDescriptorData index image_id g0 c0 = Ok (p, g1, c1, q) /\
                (Database_keeps_matches ->
                 forall a b, ExistsMatches c1 a b = ExistsMatches c0 a b)).
    { intros index image_id g0 c0 Hindex.
      destruct (decide (slot_get index (prev_uploaded_image_ids_ g0) = image_id)).
      - rewrite GetDescriptorData_hit by done. eexists _, _, _, _. by split.
      - rewrite GetDescriptorData_miss by done. eexists _, _, _, _.
        split; [reflexivity |]. intros (Hread & _) a b. apply Hread. }
    destruct (Hstep 0%Z (image_id1 job) g cache) as (p1 & g1 & c1 & q1 & E1 & Hc1);
      [by left |].
    destruct (Hstep 1%Z (image_id2 job) g1 c1) as (p2 & g2 & c2 & q2 & E2 & Hc2);
      [by right |].
    rewrite E1. run_bind. rewrite E2. run_bind.
    destruct (MatchSiftFeaturesGPU opts (deref g2 p1) (deref g2 p2)
                (sift_match_gpu g2)) as [dev m].
    run_bind. eexists _, _, _. split; [reflexivity |]. split.
    + unfold job_ids. cbn [set_matches matches].
      by destruct (size_lt_int _ _).
    + intros Hlaws a b. by rewrite Hc2, Hc1.
Qed.

(** What one delivery by the workers does to a pool that collects results. *)
Lemma workers_complete_one_delivers (choice : nat * nat)
    (s : SiftFeatureMatcher) (n : nat) :
  pool_draining (S n) s ->
  exists s' d k job,
    workers_complete_one choice s = Ok s' /\
    jobs_ (matcher_queue_ s) !! k = Some job /\
    jobs_ (matcher_queue_ s') = delete k (jobs_ (matcher_queue_ s)) /\
    job_ids d = job_ids job /\
    output_queue_ s' = {| jobs_ := [d]; stop_ := false |} /\
    stop_ (matcher_queue_ s') = false /\
    matchers_ s' <> [] /\
    options_ s' = options_ s /\
    (Database_keeps_matches ->
     forall a b, ExistsMatches (cache_ s') a b = ExistsMatches (cache_ s) a b).
Proof.
  intros (Hout & Hstop & Hlen & Hms). unfold workers_complete_one.
  set (pending := jobs_ (matcher_queue_ s)) in *.
  set (k := fst choice `mod` length pending).
  set (w := snd choice `mod` length (matchers_ s)).
  assert (Hk : k < length pending) by (apply Nat.mod_upper_bound; lia).
  assert (Hw : w < length (matchers_ s)).
  { apply Nat.mod_upper_bound. destruct (matchers_ s); [done | cbn; lia]. }
  destruct (lookup_lt_is_Some_2 _ _ Hk) as [job Hjob].
  destruct (lookup_lt_is_Some_2 _ _ Hw) as [m Hm].
  rewrite Hjob, Hm.
  destruct (MatcherThread_Run_job_ids (options_ s) m (cache_ s) job)
    as (m' & c' & d & E & Hids & Hcache).
  rewrite E. run_bind. rewrite Hout. cbn.
  eexists _, d, k, job. split; [reflexivity |]. cbn.
  repeat split; try done.
  intros Hnil. apply (f_equal length) in Hnil.
  rewrite length_insert in Hnil. cbn in Hnil. lia.
Qed.

(** The second loop of [Match] on [n] jobs in flight: the results it pops
    are the jobs in flight, in some order; and with a database that keeps
    its matches, every match record that existed is still there at the end
    and so is one for every result. *)
Lemma Match_write_results_delivers (sched : nat -> nat * nat) (n : nat) :
  forall (i : nat) (s : SiftFeatureMatcher),
    pool_draining n s ->
    exists s' tr,
      Match_write_results sched i n s = Ok (s', tr) /\
      map job_ids (popped_results tr)
        ≡ₚ map job_ids (jobs_ (matcher_queue_ s)) /\
      (Database_keeps_matches ->
       matches_kept (cache_ s) (cache_ s') /\
       forall d, d ∈ popped_results tr ->
                 ExistsMatches (cache_ s') (image_id1 d) (image_id2 d) = true).
Proof.
  induction n as [| n IH]; intros i s Hd.
  - exists s, []. split; [done |]. split.
    + destruct Hd as (_ & _ & Hlen & _).
      destruct (jobs_ (matcher_queue_ s)); [done | discriminate].
    + intros _. split; [by intros a b | by intros d ?%elem_of_nil].
  - cbn [Match_write_results].
    destruct (workers_complete_one_delivers (sched i) s n Hd)
      as (s1 & d & k & job & E & Hjob & Hrest & Hids & Hout1 & Hstop1 & Hms1
          & Hopt1 & Hcache1).
    pose proof Hd as (Hout & _ & Hlen & _).
    unfold output_queue_Pop. rewrite Hout.
    cbn [JobQueue_TryPop JobQueue_new jobs_ stop_].
    rewrite E. run_bind. rewrite Hout1. cbn [JobQueue_TryPop jobs_ stop_].
    set (s1' := with_output_queue s1 {| jobs_ := []; stop_ := false |}).
    run_bind.
    set (output := if size_lt_int (matches d) (min_num_matches (options_ s1'))
                   then set_matches d [] else d).
    assert (Hout_ids : job_ids output = job_ids d).
    { unfold output. by destruct (size_lt_int _ _). }
    set (s2 := with_cache s1' _).
    destruct (IH (S i) s2) as (s' & tr & E' & Hperm & Hdb).
    { repeat split; try done. cbn. rewrite Hrest, length_delete by eauto. lia. }
    rewrite E'. run_bind.
    eexists _, _. split; [reflexivity |]. split.
    + unfold popped_results in *. cbn [omap list_omap map].
      rewrite Hperm. cbn [s2 s1' with_cache with_output_queue matcher_queue_].
      rewrite Hrest, Hids.
      change (job_ids job :: map job_ids (delete k (jobs_ (matcher_queue_ s))))
        with (map job_ids (job :: delete k (jobs_ (matcher_queue_ s)))).
      apply fmap_Permutation. symmetry. by apply delete_Permutation.
    + intros Hlaws. destruct (Hdb Hlaws) as [Hkept Hall].
      pose proof Hlaws as (_ & Hwritten & Hmono).
      assert (Hstep : matches_kept (cache_ s) (cache_ s2)).
      { intros a b Hab. cbn. apply Hmono. by rewrite Hcache1. }
      split.
      * intros a b Hab. by apply Hkept, Hstep.
      * intros d' Hd'. unfold popped_results in Hd'.
        cbn [omap list_omap] in Hd'. apply elem_of_cons in Hd' as [-> | Hd'].
        -- apply Hkept. cbn.
           injection Hout_ids as <- <-. apply Hwritten.
        -- by apply Hall.
Qed.

(** [Match] on an idle pool, with what it delivers. *)
Lemma Match_idle_delivers (sched : nat -> nat * nat)
    (image_pairs : list (image_t * image_t)) (s : SiftFeatureMatcher) :
  pool_idle s ->
  exists s' tr,
    Match sched image_pairs s = Ok (s', tr) /\
    map job_ids (popped_results tr) ≡ₚ map job_ids (pushed_jobs tr) /\
    (Database_keeps_matches ->
     matches_kept (cache_ s) (cache_ s') /\
     forall d, d ∈ pushed_jobs tr ->
               ExistsMatches (cache_ s') (image_id1 d) (image_id2 d) = true).
Proof.
  intros (Hsetup & Hms & Hmq & Hoq).
  unfold Match. rewrite Hsetup. cbn [negb].
  destruct image_pairs as [| p rest].
  { exists s, []. split; [done |]. split; [done |].
    intros _. split; [by intros a b | by intros d ?%elem_of_nil]. }
  set (P := p :: rest).
  destruct (Match_push_jobs_spec P ∅ 0 s) as (tr1 & E1 & Hpush1 & Hpop1 & Hwr1).
  { by rewrite Hmq. }
  rewrite E1. run_bind.
  set (s1 := with_matcher_queue s _) in *.
  destruct (Match_write_results_delivers sched
              (0 + length (Match_enqueued (cache_ s) ∅ P)) 0 s1)
    as (s' & tr2 & E2 & Hperm & Hdb).
  { unfold s1. repeat split; cbn; try done.
    rewrite Hmq. cbn. by rewrite length_map. }
  rewrite E2. run_bind.
  destruct (Match_write_results_spec sched
              (0 + length (Match_enqueued (cache_ s) ∅ P)) 0 s1)
    as (s'' & tr2' & E2' & Hd' & _ & _ & Hpush2 & _).
  { unfold s1. repeat split; cbn; try done.
    rewrite Hmq. cbn. by rewrite length_map. }
  rewrite E2 in E2'. injection E2' as <- <-.
  destruct Hd' as (Hoq' & _). rewrite Hoq'. cbn.
  eexists _, _. split; [reflexivity |].
  assert (Hjobs : jobs_ (matcher_queue_ s1) = pushed_jobs tr1).
  { unfold s1. cbn. by rewrite Hmq, Hpush1. }
  unfold pushed_jobs, popped_results in *.
  rewrite !omap_app, Hpush2, Hpop1, app_nil_r, app_nil_l.
  split; [by rewrite Hperm, Hjobs |].
  intros Hlaws. destruct (Hdb Hlaws) as [Hkept Hall]. split; [done |].
  intros d Hd. destruct d as [a b m].
  assert (Hin : (a, b) ∈ map job_ids (omap (fun e => match e with
                    | PopResult d => Some d | _ => None end) tr2)).
  { rewrite Hperm, Hjobs. apply list_elem_of_fmap. by eexists {| image_id1 := a |}. }
  apply list_elem_of_fmap in Hin as (d' & Hids & Hd').
  injection Hids as -> ->. cbn. exact (Hall d' Hd').
Qed.

End PoolDelivery.

Section PoolExtras.
Context `{External}.

(** The first loop of [Match] never turns two pairs with the same pair id
    into jobs, nor a pair whose id it has seen before. *)
Lemma Match_enqueued_distinct_ids (c : Cache) (P : list (image_t * image_t)) :
  forall ids : gset N,
    NoDup (map (fun p => ImagePairToPairId (fst p) (snd p))
               (Match_enqueued c ids P)) /\
    (forall p, p ∈ Match_enqueued c ids P ->
               ImagePairToPairId (fst p) (snd p) ∉ ids).
Proof.
  induction P as [| [a b] rest IH]; intros ids.
  - split; [constructor | by intros p ?%elem_of_nil].
  - cbn [Match_enqueued fst snd].
    destruct (a =? b)%N; [by apply IH |].
    destruct (decide (ImagePairToPairId a b ∈ ids)) as [Hin | Hnew];
      [by apply IH |].
    destruct (IH ({[ImagePairToPairId a b]} ∪ ids)) as [Hnd Hfresh].
    assert (Hfresh' : forall p, p ∈ Match_enqueued c
                        ({[ImagePairToPairId a b]} ∪ ids) rest ->
              ImagePairToPairId (fst p) (snd p) <> ImagePairToPairId a b /\
              ImagePairToPairId (fst p) (snd p) ∉ ids).
    { intros p Hp. apply Hfresh in Hp.
      apply not_elem_of_union in Hp as [Hne ?]. split; [| done].
      by apply not_elem_of_singleton in Hne. }
    destruct (ExistsMatches c a b).
    + split; [done |]. intros p Hp. by apply Hfresh'.
    + split.
      * cbn [map fst snd]. constructor; [| done].
        intros (p & Heq & Hp)%list_elem_of_fmap.
        by destruct (Hfresh' p Hp).
      * intros p [-> | Hp]%elem_of_cons; [done | by apply Hfresh'].
Qed.

(** Once the pairs the loop turned into jobs have matches, and no match was
    lost, the loop finds no job in the same list. *)
Lemma Match_enqueued_again (c c' : Cache) (P : list (image_t * image_t)) :
  matches_kept c c' ->
  forall ids : gset N,
    (forall p, p ∈ Match_enqueued c ids P ->
               ExistsMatches c' (fst p) (snd p) = true) ->
    Match_enqueued c' ids P = [].
Proof.
  intros Hkept. induction P as [| [a b] rest IH]; intros ids Hall; [done |].
  cbn [Match_enqueued fst snd] in *.
  destruct (a =? b)%N; [by apply IH |].
  destruct (decide (ImagePairToPairId a b ∈ ids)); [by apply IH |].
  destruct (ExistsMatches c a b) eqn:Ec.
  - rewrite (Hkept a b Ec). by apply IH.
  - pose proof (Hall (a, b) ltac:(by left)) as Hab. cbn [fst snd] in Hab.
    rewrite Hab. apply IH.
    intros p Hp. apply Hall. by right.
Qed.

(** X1. A call of [Match] on an idle pool writes one match set for every
    job it pushed and nothing else: the pairs of image ids written are the
    pairs pushed, each as often as it was pushed, in the order in which the
    workers deliver. *)
Theorem Match_writes_every_pushed_pair_once
    (sched : nat -> nat * nat) (P : list (image_t * image_t))
    (s : SiftFeatureMatcher) :
  pool_idle s ->
  exists s' tr,
    Match sched P s = Ok (s', tr) /\
    map (fun w => (fst (fst w), snd (fst w))) (written_matches tr)
      ≡ₚ map job_ids (pushed_jobs tr).
Proof.
  intros Hidle.
  destruct (Match_idle_spec sched P s Hidle) as (s' & tr & E & _ & _ & _ & Hwr).
  destruct (Match_idle_delivers sched P s Hidle) as (s'' & tr' & E' & Hperm & _).
  rewrite E in E'. injection E' as <- <-.
  exists s', tr. split; [done |].
  rewrite Hwr, <- Hperm, <- list_fmap_compose. done.
Qed.

(** X2. Whatever the database answers: the jobs a call of [Match] pushes
    have pairwise distinct pair ids. *)
Theorem Match_pushes_distinct_pair_ids
    (sched : nat -> nat * nat) (P : list (image_t * image_t))
    (s : SiftFeatureMatcher) :
  pool_idle s ->
  exists s' tr,
    Match sched P s = Ok (s', tr) /\
    NoDup (map (fun d => ImagePairToPairId (image_id1 d) (image_id2 d))
               (pushed_jobs tr)).
Proof.
  intros Hidle.
  destruct (Match_idle_spec sched P s Hidle) as (s' & tr & E & _ & Hpush & _).
  exists s', tr. split; [done |].
  rewrite Hpush.
  destruct (Match_enqueued_distinct_ids (cache_ s) P ∅) as [Hnd _].
  by rewrite <- list_fmap_compose.
Qed.

(** X3. With a database that keeps its matches: after a call of [Match]
    every match record that existed is still there and every pushed pair has
    one, and a second call with the same pair list pushes no job, pops no
    result and writes nothing. *)
Theorem Match_again_pushes_nothing
    (sched sched' : nat -> nat * nat) (P : list (image_t * image_t))
    (s : SiftFeatureMatcher) :
  Database_keeps_matches ->
  pool_idle s ->
  exists s1 tr1 s2 tr2,
    Match sched P s = Ok (s1, tr1) /\
    matches_kept (cache_ s) (cache_ s1) /\
    (forall d, d ∈ pushed_jobs tr1 ->
               ExistsMatches (cache_ s1) (image_id1 d) (image_id2 d) = true) /\
    Match sched' P s1 = Ok (s2, tr2) /\
    pushed_jobs tr2 = [] /\ popped_results tr2 = [] /\
    written_matches tr2 = [].
Proof.
  intros Hlaws Hidle.
  destruct (Match_idle_spec sched P s Hidle)
    as (s1 & tr1 & E1 & Hidle1 & Hpush1 & _).
  destruct (Match_idle_delivers sched P s Hidle) as (s1' & tr1' & E1' & _ & Hdb).
  rewrite E1 in E1'. injection E1' as <- <-.
  destruct (Hdb Hlaws) as [Hkept Hall].
  destruct (Match_idle_spec sched' P s1 Hidle1)
    as (s2 & tr2 & E2 & _ & Hpush2 & Hlen2 & Hwr2).
  exists s1, tr1, s2, tr2. split; [done |]. split; [done |]. split; [done |].
  split; [done |].
  assert (Hnil : pushed_jobs tr2 = []).
  { rewrite Hpush2, (Match_enqueued_again (cache_ s) (cache_ s1)); [done | done |].
    intros p Hp. apply (Hall (new_job p)). rewrite Hpush1.
    by apply list_elem_of_fmap_2. }
  split; [done |].
  rewrite Hnil in Hlen2. apply nil_length_inv in Hlen2.
  split; [done |]. by rewrite Hwr2, Hlen2.
Qed.

(** X4. A pool that the constructor built and [Setup] set up with valid
    workers serves any sequence of calls of [Match]: every call returns,
    without a failed CHECK and without waiting for ever, whatever the order
    in which the workers deliver, and the pool is idle again at the end. *)
Theorem Match_calls_after_Setup
    (platform : Platform) (options : SiftMatchingOptions) (cache : Cache)
    (empty : FeatureDescriptors)
    (max_num_features : Z) (s0 : SiftFeatureMatcher)
    (calls : list ((nat -> nat * nat) * list (image_t * image_t))) :
  SiftFeatureMatcher_new platform options cache empty = Ok s0 ->
  exists s' tr,
    Match_calls calls (snd (Setup max_num_features true s0)) = Ok (s', tr) /\
    pool_idle s'.
Proof.
  intros Hnew. apply Match_calls_idle.
  by eapply SiftFeatureMatcher_new_Setup_idle.
Qed.


End PoolExtras.

(** ** The GPU worker: descriptors already on the device are not fetched *)

Section GpuReuse.
Context `{External}.






End GpuReuse.

(** ** Exhaustive matching: how many calls, how many pairs, which images *)

Lemma ceil_div_step (n b start : nat) :
  0 < b -> start < n ->
  (n - start + b - 1) / b = S ((n - (start + b) + b - 1) / b).
Proof.
  intros Hb Hlt. destruct (le_lt_dec b (n - start)) as [Hge | Hsmall].
  - replace (n - start + b - 1) with ((n - (start + b) + b - 1) + 1 * b) by lia.
    rewrite Nat.div_add by lia. lia.
  - replace (n - (start + b)) with 0 by lia.
    rewrite (Nat.div_small (0 + b - 1) b) by lia.
    symmetry. apply (Nat.div_unique _ _ _ (n - start - 1)); lia.
Qed.

(** The block starts are the multiples of [block_size], as many as there
    are blocks. *)
Lemma block_starts_seq (num_images block_size : nat) :
  0 < block_size ->
  forall fuel start,
    (num_images - start + block_size - 1) / block_size <= fuel ->
    block_starts fuel start num_images block_size =
      map (fun k => start + k * block_size)
          (seq 0 ((num_images - start + block_size - 1) / block_size)).
Proof.
  intros Hb. induction fuel as [| fuel IH]; intros start Hfuel.
  - by replace ((num_images - start + block_size - 1) / block_size) with 0 by lia.
  - cbn [block_starts].
    destruct (Nat.ltb_spec start num_images) as [Hlt | Hge].
    + rewrite (ceil_div_step num_images block_size start Hb Hlt) in *.
      rewrite IH by lia. cbn [seq map]. f_equal; [lia |].
      rewrite <- fmap_S_seq, <- list_fmap_compose.
      apply list_fmap_ext. intros _ k _. cbn. lia.
    + replace (num_images - start) with 0 by lia.
      by rewrite (Nat.div_small (0 + block_size - 1) block_size) by lia.
Qed.

Lemma block_starts_length (num_images block_size : nat) :
  0 < block_size ->
  length (block_starts num_images 0 num_images block_size) =
    exhaustive_num_blocks num_images block_size.
Proof.
  intros Hb. unfold exhaustive_num_blocks.
  assert (Hle : (num_images - 0 + block_size - 1) / block_size <= num_images).
  { rewrite Nat.sub_0_r. destruct num_images as [| n].
    - rewrite Nat.div_small; lia.
    - apply Nat.Div0.div_le_upper_bound. nia. }
  rewrite block_starts_seq by done.
  by rewrite length_map, length_seq, Nat.sub_0_r.
Qed.

Lemma length_bind_const {A B} (f : A -> list B) (l : list A) (n : nat) :
  (forall x, x ∈ l -> length (f x) = n) -> length (l ≫= f) = length l * n.
Proof.
  induction l as [| x l IH]; intros Hf; [done |].
  rewrite bind_cons, length_app, IH, Hf; cbn; [lia | by left |].
  intros y Hy. apply Hf. by right.
Qed.

(** X8. With a positive block size, [ExhaustiveFeatureMatcher::Run] calls
    [Match] once for every pair of blocks, [num_blocks * num_blocks] times
    in all, where [num_blocks] is the number of images divided by the block
    size and rounded up; without images it does not call [Match]. *)
Theorem Exhaustive_Run_calls_Match_for_every_block_pair
    (image_ids : list image_t) (block_size : nat) :
  0 < block_size ->
  length (ExhaustiveFeatureMatcher_Run image_ids block_size) =
    exhaustive_num_blocks (length image_ids) block_size
    * exhaustive_num_blocks (length image_ids) block_size /\
  (image_ids = [] -> ExhaustiveFeatureMatcher_Run image_ids block_size = []).
Proof.
  intros Hb. split.
  - unfold ExhaustiveFeatureMatcher_Run, Exhaustive_Run_blocks.
    rewrite length_map.
    rewrite (length_bind_const _ _ (exhaustive_num_blocks (length image_ids) block_size)).
    + by rewrite block_starts_length.
    + intros s1 _. rewrite (length_bind_const _ _ 1); [| done].
      rewrite block_starts_length by done. lia.
  - by intros ->.
Qed.

(** The pairs of a run, smaller index first, are all pairs [i < j]. *)
Lemma Exhaustive_Run_pairs_unordered (num_images block_size : nat) :
  0 < block_size ->
  map unordered (Exhaustive_Run_pairs num_images block_size)
    ≡ₚ all_pairs num_images.
Proof.
  intros Hbs. apply NoDup_Permutation; [| apply all_pairs_NoDup |].
  - apply (NoDup_fmap_2_strong unordered);
      [| by apply Exhaustive_Run_pairs_NoDup].
    intros [i j] [i' j'] Hin Hin' Heq.
    apply Exhaustive_Run_pairs_elem in Hin as (_ & _ & E); [| done].
    apply Exhaustive_Run_pairs_elem in Hin' as (_ & _ & E'); [| done].
    apply exhaustive_emit_rule in E, E'.
    unfold unordered in Heq. cbn [fst snd] in Heq.
    injection Heq as Hmin Hmax.
    assert ((i = i' /\ j = j') \/ (i = j' /\ j = i')) as [[-> ->] | [-> ->]]
      by lia; [done |].
    lia.
  - intros [i j]. rewrite all_pairs_elem. split.
    + intros ([a b] & Heq & Hin)%list_elem_of_fmap.
      apply Exhaustive_Run_pairs_elem in Hin as (Ha & Hb & E); [| done].
      apply exhaustive_emit_rule in E.
      unfold unordered in Heq. cbn [fst snd] in Heq.
      injection Heq as -> ->. lia.
    + intros Hij.
      destruct (Nat.lt_ge_cases (i mod block_size) (j mod block_size)).
      * apply list_elem_of_fmap. exists (i, j). split.
        -- unfold unordered. cbn [fst snd]. f_equal; lia.
        -- apply Exhaustive_Run_pairs_elem; [done |].
           rewrite exhaustive_emit_rule. lia.
      * apply list_elem_of_fmap. exists (j, i). split.
        -- unfold unordered. cbn [fst snd]. f_equal; lia.
        -- apply Exhaustive_Run_pairs_elem; [done |].
           rewrite exhaustive_emit_rule. lia.
Qed.

Lemma all_pairs_length_from (n : nat) :
  forall k a, a + k = n ->
    2 * length (seq a k ≫= fun i => seq (S i) (n - S i) ≫= fun j => [(i, j)])
    = k * (k - 1).
Proof.
  induction k as [| k IH]; intros a Hak; [done |].
  cbn [seq]. rewrite bind_cons, length_app.
  rewrite (length_bind_const _ (seq (S a) (n - S a)) 1) by done.
  rewrite length_seq. specialize (IH (S a) ltac:(lia)). nia.
Qed.

(** X9. Over a whole run on [N] images the exhaustive strategy hands
    [Match] exactly [N (N - 1) / 2] pairs, whatever the block size. *)
Theorem Exhaustive_Run_number_of_pairs
    (image_ids : list image_t) (block_size : nat) :
  0 < block_size ->
  2 * length (concat (ExhaustiveFeatureMatcher_Run image_ids block_size)) =
    length image_ids * (length image_ids - 1).
Proof.
  intros Hb.
  unfold ExhaustiveFeatureMatcher_Run, image_pairs_of.
  rewrite <- concat_map, length_map.
  fold (Exhaustive_Run_pairs (length image_ids) block_size).
  rewrite <- (length_map unordered).
  rewrite (Permutation_length
             (Exhaustive_Run_pairs_unordered (length image_ids) block_size Hb)).
  unfold all_pairs. by apply all_pairs_length_from.
Qed.

Lemma image_at_inj (image_ids : list image_t) (i j : nat) :
  NoDup image_ids -> i < length image_ids -> j < length image_ids ->
  image_at image_ids i = image_at image_ids j -> i = j.
Proof.
  intros Hnd Hi Hj. unfold image_at.
  destruct (lookup_lt_is_Some_2 image_ids i Hi) as [a Ha].
  destruct (lookup_lt_is_Some_2 image_ids j Hj) as [b Hb].
  rewrite (nth_lookup_Some _ _ _ _ Ha), (nth_lookup_Some _ _ _ _ Hb).
  intros Heq. subst b. exact (NoDup_lookup _ _ _ _ Hnd Ha Hb).
Qed.

Lemma image_at_elem (image_ids : list image_t) (i : nat) :
  i < length image_ids -> image_at image_ids i ∈ image_ids.
Proof.
  intros Hi. unfold image_at.
  destruct (lookup_lt_is_Some_2 image_ids i Hi) as [a Ha].
  rewrite (nth_lookup_Some _ _ _ _ Ha). by eapply list_elem_of_lookup_2.
Qed.

(** X10. When the image ids are free of duplicates, a run of the exhaustive
    strategy hands [Match] every unordered pair of different images exactly
    once: the list of all its pairs has no duplicate, each pair is made of
    two different images and does not occur the other way round, and for
    any two different images one of the two orders occurs. *)
Theorem Exhaustive_Run_matches_every_image_pair_once
    (image_ids : list image_t) (block_size : nat) :
  0 < block_size -> NoDup image_ids ->
  let pairs := concat (ExhaustiveFeatureMatcher_Run image_ids block_size) in
  NoDup pairs /\
  (forall a b, (a, b) ∈ pairs ->
     a ∈ image_ids /\ b ∈ image_ids /\ a <> b /\ (b, a) ∉ pairs) /\
  (forall a b, a ∈ image_ids -> b ∈ image_ids -> a <> b ->
     (a, b) ∈ pairs \/ (b, a) ∈ pairs).
Proof.
  intros Hb Hnd pairs.
  set (N := length image_ids).
  assert (Hpairs : pairs = image_pairs_of image_ids (Exhaustive_Run_pairs N block_size)).
  { unfold pairs, ExhaustiveFeatureMatcher_Run, Exhaustive_Run_pairs,
      image_pairs_of. by rewrite concat_map. }
  assert (Hmem : forall a b, (a, b) ∈ pairs <->
            exists i j, i < N /\ j < N /\
              exhaustive_emit block_size i j = true /\
              a = image_at image_ids i /\ b = image_at image_ids j).
  { intros a b. rewrite Hpairs. unfold image_pairs_of. split.
    - intros ([i j] & Heq & Hin)%list_elem_of_fmap.
      apply Exhaustive_Run_pairs_elem in Hin as (Hi & Hj & E); [| done].
      cbn [fst snd] in Heq. injection Heq as -> ->. by exists i, j.
    - intros (i & j & Hi & Hj & E & -> & ->).
      apply list_elem_of_fmap. exists (i, j). split; [done |].
      by apply Exhaustive_Run_pairs_elem. }
  split; [| split].
  - rewrite Hpairs. unfold image_pairs_of.
    apply NoDup_fmap_2_strong; [| by apply Exhaustive_Run_pairs_NoDup].
    intros [i j] [i' j'] Hin Hin' Heq.
    apply Exhaustive_Run_pairs_elem in Hin as (Hi & Hj & _); [| done].
    apply Exhaustive_Run_pairs_elem in Hin' as (Hi' & Hj' & _); [| done].
    cbn [fst snd] in Heq. injection Heq as Ha Hb'.
    f_equal; by eapply image_at_inj.
  - intros a b (i & j & Hi & Hj & E & -> & ->)%Hmem.
    apply exhaustive_emit_rule in E.
    split; [by apply image_at_elem |]. split; [by apply image_at_elem |].
    split.
    + intros Heq. apply image_at_inj in Heq; [lia | done..].
    + intros (i' & j' & Hi' & Hj' & E' & Ha & Hb')%Hmem.
      apply exhaustive_emit_rule in E'.
      apply image_at_inj in Ha; [| done..].
      apply image_at_inj in Hb'; [| done..]. subst i' j'. lia.
  - intros a b Ha Hb' Hne.
    apply list_elem_of_lookup_1 in Ha as [i Hi].
    apply list_elem_of_lookup_1 in Hb' as [j Hj].
    pose proof (lookup_lt_Some _ _ _ Hi) as Hi_lt.
    pose proof (lookup_lt_Some _ _ _ Hj) as Hj_lt.
    assert (Hij : i <> j) by (intros ->; congruence).
    assert (Hai : a = image_at image_ids i)
      by (unfold image_at; by rewrite (nth_lookup_Some _ _ _ _ Hi)).
    assert (Hbj : b = image_at image_ids j)
      by (unfold image_at; by rewrite (nth_lookup_Some _ _ _ _ Hj)).
    destruct (exhaustive_emit block_size i j) eqn:E.
    + left. apply Hmem. by exists i, j.
    + right. apply Hmem. exists j, i. repeat split; try done.
      apply exhaustive_emit_rule.
      assert (Hno : ~ ((j < i /\ i mod block_size <= j mod block_size) \/
                       (i < j /\ i mod block_size < j mod block_size))).
      { rewrite <- exhaustive_emit_rule. by rewrite E. }
      lia.
Qed.

(** X11. Every call of [Match] of the exhaustive strategy takes its first
    images from one block of at most [block_size] consecutive positions and
    its second images from one such block: a call needs the descriptors of
    at most [2 * block_size] images. *)
Theorem Exhaustive_Run_block_locality (num_images block_size : nat) :
  0 < block_size ->
  Forall (fun block =>
            exists start_idx1 start_idx2,
              forall idx1 idx2, (idx1, idx2) ∈ block ->
                start_idx1 <= idx1 < start_idx1 + block_size /\
                start_idx2 <= idx2 < start_idx2 + block_size /\
                idx1 < num_images /\ idx2 < num_images)
         (Exhaustive_Run_blocks num_images block_size).
Proof.
  intros Hb. apply Forall_forall. intros block.
  unfold Exhaustive_Run_blocks.
  intros (s1 & Hin & Hs1)%list_elem_of_bind.
  apply list_elem_of_bind in Hin as (s2 & Hin & Hs2).
  apply list_elem_of_singleton in Hin as ->.
  exists s1, s2. intros idx1 idx2 Hin.
  apply Exhaustive_block_pairs_elem in Hin as [[Hi Hj] _].
  apply block_starts_elem in Hs1 as (k1 & _ & Heq1 & Hlt1 & _).
  apply block_starts_elem in Hs2 as (k2 & _ & Heq2 & Hlt2 & _).
  unfold block_end in *. lia.
Qed.

(** ** Sequential matching: the accesses stay in bounds *)

Lemma vector_at_image_at (image_ids : list image_t) (i : nat) :
  i < length image_ids -> vector_at image_ids i = Ok (image_at image_ids i).
Proof.
  intros Hi. unfold vector_at, image_at.
  destruct (lookup_lt_is_Some_2 image_ids i Hi) as [a Ha].
  by rewrite Ha, (nth_lookup_Some _ _ _ _ Ha).
Qed.

Lemma sequential_loop_at_spec (overlap : Z) (quadratic_overlap : bool)
    (image_ids : list image_t) (image_idx1 : Z) (image_id1 : image_t) :
  (0 <= image_idx1 < Z.of_nat (length image_ids))%Z ->
  (Z.of_nat (length image_ids) <= 2 ^ 63)%Z ->
  (overlap <= 31)%Z ->
  forall (fuel : nat) (i : Z),
    (0 <= i)%Z ->
    sequential_loop_at fuel i overlap quadratic_overlap image_ids image_idx1
      image_id1 =
    Ok (map (fun p => (image_id1, image_at image_ids (Z.to_nat (snd p))))
          (sequential_loop fuel i overlap quadratic_overlap
             (Z.of_nat (length image_ids)) image_idx1)).
Proof.
  intros Hidx HN Hov.
  induction fuel as [| fuel IH]; intros i Hi;
    cbn [sequential_loop_at sequential_loop]; [done |].
  destruct (Z.ltb_spec i overlap) as [Hlt | Hge]; [| done].
  rewrite to_size_t_small by lia.
  destruct (Z.ltb_spec (image_idx1 + i) (Z.of_nat (length image_ids)))
    as [Hin | Hout]; [| done].
  rewrite (vector_at_image_at image_ids (Z.to_nat (image_idx1 + i))) by lia.
  run_bind.
  rewrite shl1_pow by lia.
  assert (Hpow : (0 < 2 ^ i <= 2 ^ 30)%Z).
  { split; [apply Z.pow_pos_nonneg; lia | apply Z.pow_le_mono_r; lia]. }
  rewrite to_size_t_small by lia.
  rewrite IH by lia.
  destruct quadratic_overlap.
  - destruct (Z.ltb_spec (image_idx1 + 2 ^ i) (Z.of_nat (length image_ids))).
    + rewrite vector_at_image_at by lia. by run_bind.
    + by run_bind.
  - by run_bind.
Qed.

Lemma sequential_loop_shape (overlap : Z) (quadratic_overlap : bool)
    (num_images image_idx1 : Z) :
  forall (fuel : nat) (i : Z),
    Forall (fun p => fst p = image_idx1)
      (sequential_loop fuel i overlap quadratic_overlap num_images image_idx1)
    /\
    length (sequential_loop fuel i overlap quadratic_overlap num_images
              image_idx1)
      <= (if quadratic_overlap then 2 else 1) * fuel.
Proof.
  induction fuel as [| fuel IH]; intros i; cbn [sequential_loop].
  - split; [constructor | cbn; lia].
  - destruct (i <? overlap)%Z; [| split; [constructor | cbn; lia]].
    destruct (_ <? num_images)%Z; [| split; [constructor | cbn; lia]].
    destruct (IH (i + 1)%Z) as [Hall Hlen]. split.
    + constructor; [done |]. apply Forall_app. split; [| done].
      destruct quadratic_overlap; [| constructor].
      destruct (_ <? num_images)%Z; repeat constructor.
    + cbn [length]. rewrite length_app.
      destruct quadratic_overlap; [| cbn [length] in *; lia].
      destruct (_ <? num_images)%Z; cbn [length] in *; lia.
Qed.

Lemma result_mapM_ok {A B} (f : A -> result B) (g : A -> B) (l : list A) :
  (forall x, x ∈ l -> f x = Ok (g x)) -> result_mapM f l = Ok (map g l).
Proof.
  induction l as [| x l IH]; intros Hf; [done |].
  cbn [result_mapM]. rewrite Hf by (by left). run_bind.
  rewrite IH by (intros y Hy; apply Hf; by right). by run_bind.
Qed.

(** X12. For an overlap between 0 and 31, [RunSequentialMatching] never
    leaves the bounds of [image_ids]: no [at] throws, and it calls [Match]
    once for every image, in the order of [image_ids].  In the call for the
    image at position [image_idx1] every pair has that image first and an
    image at the same or a later position second, and there are at most
    [overlap] pairs, or twice as many with quadratic overlap. *)
Theorem RunSequentialMatching_stays_in_bounds
    (overlap : Z) (quadratic_overlap : bool) (image_ids : list image_t) :
  (0 <= overlap <= 31)%Z ->
  (Z.of_nat (length image_ids) <= 2 ^ 63)%Z ->
  RunSequentialMatching overlap quadratic_overlap image_ids =
    Ok (map (RunSequentialMatching_pairs overlap quadratic_overlap image_ids)
            (seq 0 (length image_ids))) /\
  forall image_idx1, image_idx1 < length image_ids ->
    Forall (fun p =>
              fst p = image_at image_ids image_idx1 /\
              exists image_idx2,
                image_idx1 <= image_idx2 < length image_ids /\
                snd p = image_at image_ids image_idx2)
           (RunSequentialMatching_pairs overlap quadratic_overlap image_ids
              image_idx1) /\
    length (RunSequentialMatching_pairs overlap quadratic_overlap image_ids
              image_idx1)
      <= (if quadratic_overlap then 2 else 1) * Z.to_nat overlap.
Proof.
  intros Hov HN. split.
  - unfold RunSequentialMatching. apply result_mapM_ok.
    intros image_idx1 Hin. apply elem_of_seq in Hin.
    rewrite vector_at_image_at by lia. run_bind.
    rewrite sequential_loop_at_spec by lia.
    unfold RunSequentialMatching_pairs, sequential_positions. f_equal.
    apply list_fmap_ext. intros k p Hp.
    destruct (sequential_loop_shape overlap quadratic_overlap
                (Z.of_nat (length image_ids)) (Z.of_nat image_idx1)
                (Z.to_nat overlap) 0) as [Hall _].
    rewrite Forall_lookup in Hall. rewrite (Hall k p Hp).
    by rewrite Nat2Z.id.
  - intros image_idx1 Hlt. split.
    + unfold RunSequentialMatching_pairs.
      apply Forall_fmap, Forall_forall. intros p Hp. cbn.
      apply sequential_positions_elem in Hp as [Hfst Hsnd]; [| lia..].
      rewrite Hfst, Nat2Z.id. split; [done |].
      exists (Z.to_nat (snd p)). split; [| done].
      destruct Hsnd as [(k & Hk & -> & Hb) | (_ & k & Hk & -> & Hb)].
      * lia.
      * pose proof (Z.pow_pos_nonneg 2 k ltac:(lia) ltac:(lia)). lia.
    + unfold RunSequentialMatching_pairs, sequential_positions.
      rewrite length_map.
      apply (sequential_loop_shape overlap quadratic_overlap).
Qed.

(** ** The metadata cache *)

Lemma filter_head_elem (image_id : image_t) (images : list Image)
    (image : Image) :
  first_with_id image_id images = Some image ->
  image ∈ images /\ ImageId image = image_id.
Proof.
  unfold first_with_id. intros Hhead.
  assert (Hin : image ∈ filter (fun image => ImageId image = image_id) images).
  { destruct (filter _ images) as [| x l]; [done |].
    injection Hhead as ->. by left. }
  by apply list_elem_of_filter in Hin as [? ?].
Qed.

Lemma first_with_id_None (image_id : image_t) (images : list Image) :
  first_with_id image_id images = None <-> image_id ∉ map ImageId images.
Proof.
  unfold first_with_id. induction images as [| image images IH].
  - split; [intros _ ?%elem_of_nil; done | done].
  - cbn [map]. rewrite not_elem_of_cons.
    destruct (decide (ImageId image = image_id)) as [Heq | Hne].
    + rewrite filter_cons_True by done. split; [done | intros [? _]; done].
    + rewrite filter_cons_False by done. rewrite IH. split; [| by intros [_ ?]].
      intros ?. split; [by intros ? | done].
Qed.

Lemma foldl_emplace_lookup (images : list Image) (m : gmap N Image)
    (image_id : image_t) :
  foldl (fun cache image => emplace (ImageId image) image cache) m images
    !! image_id =
  match m !! image_id with
  | Some image => Some image
  | None => first_with_id image_id images
  end.
Proof.
  revert m. induction images as [| image images IH]; intros m; cbn [foldl].
  - by destruct (m !! image_id).
  - rewrite IH. unfold emplace, first_with_id.
    destruct (m !! ImageId image) as [old |] eqn:Hold.
    + destruct (m !! image_id) as [x |] eqn:Hx; [done |].
      rewrite filter_cons_False; [done |]. intros Heq. congruence.
    + destruct (decide (ImageId image = image_id)) as [Heq | Hne].
      * subst image_id. rewrite lookup_insert_eq, Hold.
        by rewrite filter_cons_True.
      * rewrite lookup_insert_ne by done.
        by rewrite filter_cons_False.
Qed.

Lemma Setup_images_cache_lookup (images : list Image) (image_id : image_t) :
  Setup_images_cache images !! image_id = first_with_id image_id images.
Proof. unfold Setup_images_cache. by rewrite foldl_emplace_lookup. Qed.

Lemma Setup_images_cache_keyed_by_id (images : list Image) :
  keyed_by_id (Setup_images_cache images).
Proof.
  intros image_id image. rewrite Setup_images_cache_lookup.
  by intros [_ ?]%filter_head_elem.
Qed.

Lemma GetImageIds_elem (images_cache_ : gmap N Image) (image_id : image_t) :
  image_id ∈ GetImageIds images_cache_ <-> is_Some (images_cache_ !! image_id).
Proof.
  unfold GetImageIds. rewrite list_elem_of_fmap. split.
  - intros ([k v] & -> & Hin%elem_of_map_to_list). by exists v.
  - intros [v Hv]. exists (image_id, v). split; [done |].
    by apply elem_of_map_to_list.
Qed.

Lemma GetImageIds_NoDup (images_cache_ : gmap N Image) :
  NoDup (GetImageIds images_cache_).
Proof. apply NoDup_fst_map_to_list. Qed.

Lemma Setup_images_cache_ids (images : list Image) (image_id : image_t) :
  image_id ∈ GetImageIds (Setup_images_cache images) <->
  image_id ∈ map ImageId images.
Proof.
  rewrite GetImageIds_elem, Setup_images_cache_lookup.
  destruct (first_with_id image_id images) as [image |] eqn:Hfirst.
  - split; [intros _ | by eexists].
    apply filter_head_elem in Hfirst as [Hin <-].
    apply list_elem_of_fmap. by exists image.
  - split; [by intros [? ?] |].
    intros Hin. by apply first_with_id_None in Hfirst.
Qed.

(** X13. After [FeatureMatcherCache::Setup] on the images of the database:
    [GetImageIds] returns every image id of the database exactly once, and
    [GetImage] returns, for an id of the database, the first image read
    with that id, which carries that id; for any other id [at] throws. *)
Theorem FeatureMatcherCache_Setup_images (images : list Image) :
  NoDup (GetImageIds (Setup_images_cache images)) /\
  (forall image_id,
     image_id ∈ GetImageIds (Setup_images_cache images) <->
     image_id ∈ map ImageId images) /\
  (forall image_id,
     image_id ∈ map ImageId images ->
     exists image,
       GetImage (Setup_images_cache images) image_id = Ok image /\
       first_with_id image_id images = Some image /\
       image ∈ images /\ ImageId image = image_id) /\
  (forall image_id,
     image_id ∉ map ImageId images ->
     GetImage (Setup_images_cache images) image_id = OutOfRange).
Proof.
  split; [apply GetImageIds_NoDup |]. split; [| split].
  - apply Setup_images_cache_ids.
  - intros image_id Hin. unfold GetImage.
    rewrite Setup_images_cache_lookup.
    destruct (first_with_id image_id images) as [image |] eqn:Hfirst.
    + exists image. pose proof (filter_head_elem _ _ _ Hfirst) as [? ?].
      done.
    + by apply first_with_id_None in Hfirst.
  - intros image_id Hin. unfold GetImage.
    rewrite Setup_images_cache_lookup.
    apply first_with_id_None in Hin. by rewrite Hin.
Qed.

Lemma GetImage_all (images_cache_ : gmap N Image) (image_ids : list image_t) :
  (forall image_id, image_id ∈ image_ids ->
                    is_Some (images_cache_ !! image_id)) ->
  exists images,
    result_mapM (GetImage images_cache_) image_ids = Ok images /\
    Forall2 (fun image_id image => images_cache_ !! image_id = Some image)
            image_ids images.
Proof.
  induction image_ids as [| image_id image_ids IH]; intros Hall.
  - by exists [].
  - destruct (Hall image_id ltac:(by left)) as [image Himage].
    destruct IH as (images & Hmap & Hall2).
    { intros ? ?. apply Hall. by right. }
    exists (image :: images). split; [| by constructor].
    cbn [result_mapM].
    assert (GetImage images_cache_ image_id = Ok image) as ->
      by (unfold GetImage; by rewrite Himage).
    run_bind.
    rewrite Hmap. by run_bind.
Qed.

(** X14. When [std::sort] permutes its argument, [GetOrderedImageIds] on the
    cache that [Setup] fills never throws, and returns every image id of the
    database exactly once: a permutation of what [GetImageIds] returns. *)
Theorem GetOrderedImageIds_permutes_the_image_ids
    (std_sort : list Image -> list Image) (images : list Image) :
  (forall l, std_sort l ≡ₚ l) ->
  exists ordered_image_ids,
    GetOrderedImageIds std_sort (Setup_images_cache images) =
      Ok ordered_image_ids /\
    ordered_image_ids ≡ₚ GetImageIds (Setup_images_cache images) /\
    NoDup ordered_image_ids /\
    (forall image_id,
       image_id ∈ ordered_image_ids <-> image_id ∈ map ImageId images).
Proof.
  intros Hsort. set (cache := Setup_images_cache images).
  destruct (GetImage_all cache (GetImageIds cache)) as (ordered & Hmap & Hall).
  { intros image_id Hin. by apply GetImageIds_elem. }
  assert (Hids : map ImageId ordered = GetImageIds cache).
  { clear Hmap. induction Hall as [| image_id image ids ims Hlook _ IH]; [done |].
    cbn [map]. f_equal; [| done].
    by apply (Setup_images_cache_keyed_by_id images). }
  assert (Hperm : map ImageId (std_sort ordered) ≡ₚ GetImageIds cache).
  { rewrite <- Hids. apply fmap_Permutation, Hsort. }
  exists (map ImageId (std_sort ordered)). split; [| split; [| split]].
  - unfold GetOrderedImageIds. fold cache. rewrite Hmap. by run_bind.
  - done.
  - eapply NoDup_Permutation_proper; [exact Hperm |]. apply GetImageIds_NoDup.
  - intros image_id. rewrite Hperm.
    apply Setup_images_cache_ids.
Qed.

(** ** The map from image names to image ids *)

Lemma emplace_lookup `{Countable K} {V} (k k' : K) (v : V) (m : gmap K V) :
  emplace k v m !! k' =
    match m !! k' with
    | Some x => Some x
    | None => if decide (k = k') then Some v else None
    end.
Proof.
  unfold emplace. destruct (m !! k) as [old |] eqn:Hold.
  - destruct (m !! k') as [x |] eqn:Hx; [done |].
    rewrite decide_False; [done | congruence].
  - destruct (decide (k = k')) as [<- | Hne].
    + by rewrite lookup_insert_eq, Hold.
    + rewrite lookup_insert_ne by done. by destruct (m !! k').
Qed.

Lemma image_name_loop_spec (images_cache_ : gmap N Image) :
  forall (image_ids : list image_t) (m0 : gmap string image_t),
    (forall image_id, image_id ∈ image_ids ->
                      is_Some (images_cache_ !! image_id)) ->
    exists m,
      image_name_loop images_cache_ image_ids m0 = Ok m /\
      (forall name image_id,
         m !! name = Some image_id ->
         m0 !! name = Some image_id \/
         (image_id ∈ image_ids /\
          exists image, images_cache_ !! image_id = Some image /\
                        Name image = name)) /\
      (forall name image_id,
         m0 !! name = Some image_id -> m !! name = Some image_id) /\
      (forall image_id image,
         image_id ∈ image_ids -> images_cache_ !! image_id = Some image ->
         is_Some (m !! Name image)).
Proof.
  induction image_ids as [| image_id image_ids IH]; intros m0 Hall.
  - exists m0. split; [done |]. split; [by left |]. split; [done |].
    by intros ? ? ?%elem_of_nil.
  - destruct (Hall image_id ltac:(by left)) as [image Himage].
    destruct (IH (emplace (Name image) image_id m0))
      as (m & Hrun & Hfrom & Hkeep & Hnames).
    { intros ? ?. apply Hall. by right. }
    exists m. split; [| split; [| split]].
    + cbn [image_name_loop]. unfold GetImage. rewrite Himage. by run_bind.
    + intros name id Hm.
      destruct (Hfrom name id Hm) as [Hm1 | (Hin & Hcache)].
      * rewrite emplace_lookup in Hm1.
        destruct (m0 !! name) as [x |] eqn:Hx; [by left |].
        destruct (decide (Name image = name)) as [<- | Hne]; [| done].
        injection Hm1 as <-. right. split; [by left |]. by exists image.
      * right. split; [by right | done].
    + intros name id Hm0. apply Hkeep. rewrite emplace_lookup. by rewrite Hm0.
    + intros id image' [-> | Hin]%elem_of_cons Hcache.
      * assert (image' = image) as -> by congruence.
        destruct (emplace (Name image) image_id m0 !! Name image)
          as [x |] eqn:Hx.
        -- exists x. by apply Hkeep.
        -- rewrite emplace_lookup in Hx.
           destruct (m0 !! Name image); [done |].
           by rewrite decide_True in Hx.
      * by apply (Hnames id).
Qed.

(** X15. The loop that fills [image_name_to_image_id] never throws.  Every
    entry of the map leads from a name to the id of a cached image with that
    name, and the name of every cached image is a key; when no two cached
    images share a name, the map leads from the name of every cached image
    to its id. *)
Theorem image_name_to_image_id_resolves_names (images_cache_ : gmap N Image) :
  exists image_name_to_image_id,
    image_name_to_image_id_of images_cache_ = Ok image_name_to_image_id /\
    (forall name image_id,
       image_name_to_image_id !! name = Some image_id ->
       exists image,
         images_cache_ !! image_id = Some image /\ Name image = name) /\
    (forall image_id image,
       images_cache_ !! image_id = Some image ->
       is_Some (image_name_to_image_id !! Name image)) /\
    ((forall image_id1 image_id2 image1 image2,
        images_cache_ !! image_id1 = Some image1 ->
        images_cache_ !! image_id2 = Some image2 ->
        Name image1 = Name image2 -> image_id1 = image_id2) ->
     forall image_id image,
       images_cache_ !! image_id = Some image ->
       image_name_to_image_id !! Name image = Some image_id).
Proof.
  destruct (image_name_loop_spec images_cache_ (GetImageIds images_cache_) ∅)
    as (m & Hrun & Hfrom & _ & Hnames).
  { intros image_id Hin. by apply GetImageIds_elem. }
  assert (Hsound : forall name image_id,
            m !! name = Some image_id ->
            exists image,
              images_cache_ !! image_id = Some image /\ Name image = name).
  { intros name image_id Hm.
    destruct (Hfrom name image_id Hm) as [Hempty | (_ & Hcache)]; [| done].
    by rewrite lookup_empty in Hempty. }
  assert (Hkeys : forall image_id image,
            images_cache_ !! image_id = Some image -> is_Some (m !! Name image)).
  { intros image_id image Hcache. apply (Hnames image_id); [| done].
    apply GetImageIds_elem. by exists image. }
  exists m. split; [done |]. split; [done |]. split; [done |].
  intros Hunique image_id image Hcache.
  destruct (Hkeys image_id image Hcache) as [image_id' Hm].
  destruct (Hsound _ _ Hm) as (image' & Hcache' & Hname).
  by rewrite Hm, (Hunique image_id' image_id image' image Hcache' Hcache Hname).
Qed.

(** ** Spatial indexing *)

Lemma StronglySorted_lt_NoDup (l : list nat) : StronglySorted lt l -> NoDup l.
Proof.
  induction 1 as [| x l _ IH Hall]; constructor; [| done].
  intros Hin. rewrite Forall_forall in Hall. specialize (Hall x Hin). lia.
Qed.

Section SpatialIndexProperties.
Variable EllToXYZ : float * float * float -> float * float * float.
Variable to_float : float -> float.
Variable knnSearch :
  list (float * float * float) -> Z ->
  (nat -> nat -> nat) * (nat -> nat -> float).
Variable is_gps ignore_z : bool.
Variable images_cache_ : gmap N Image.

Local Abbreviation index_loop :=
  (spatial_index_loop EllToXYZ to_float is_gps ignore_z images_cache_).

Lemma spatial_index_loop_spec :
  forall (image_ids : list image_t) (i : nat),
    (forall image_id, image_id ∈ image_ids ->
                      is_Some (images_cache_ !! image_id)) ->
    exists location_idxs location_matrix,
      index_loop image_ids i = Ok (location_idxs, location_matrix) /\
      length location_matrix = length location_idxs /\
      StronglySorted lt location_idxs /\
      (forall j,
         j ∈ location_idxs <->
         exists k image_id image,
           j = i + k /\ image_ids !! k = Some image_id /\
           images_cache_ !! image_id = Some image /\
           has_no_location ignore_z image = false).
Proof.
  induction image_ids as [| image_id image_ids IH]; intros i Hall.
  - exists [], []. split; [done |]. split; [done |]. split; [constructor |].
    intros j. split; [by intros ?%elem_of_nil |].
    by intros (k & ? & ? & _ & ? & _).
  - destruct (Hall image_id ltac:(by left)) as [image Himage].
    destruct (IH (S i)) as (idxs & rows & Hrun & Hlen & Hsorted & Helem).
    { intros ? ?. apply Hall. by right. }
    cbn [spatial_index_loop]. unfold GetImage. rewrite Himage. run_bind.
    destruct (has_no_location ignore_z image) eqn:Hloc.
    + exists idxs, rows. split; [done |]. split; [done |]. split; [done |].
      intros j. rewrite Helem. split.
      * intros (k & id & im & -> & Hk & Hc & Hl).
        exists (S k), id, im. repeat split; first [done | lia].
      * intros ([| k] & id & im & -> & Hk & Hc & Hl).
        -- cbn in Hk. injection Hk as <-. congruence.
        -- exists k, id, im. repeat split; first [done | lia].
    + rewrite Hrun. run_bind. eexists (i :: idxs), (_ :: rows).
      split; [done |]. split; [cbn [length]; by rewrite Hlen |]. split.
      * constructor; [done |]. apply Forall_forall. intros j Hj.
        apply Helem in Hj as (k & _ & _ & -> & _). lia.
      * intros j. rewrite elem_of_cons, Helem. split.
        -- intros [-> | (k & id & im & -> & Hk & Hc & Hl)].
           ++ exists 0, image_id, image. repeat split; first [done | lia].
           ++ exists (S k), id, im. repeat split; first [done | lia].
        -- intros ([| k] & id & im & -> & Hk & Hc & Hl).
           ++ left. lia.
           ++ right. exists k, id, im. repeat split; first [done | lia].
Qed.

Lemma to_int_le (z : Z) : (0 <= z)%Z -> (to_int z <= z)%Z.
Proof.
  intros Hz. unfold to_int.
  pose proof (Z.mod_le (z + 2 ^ 31) (2 ^ 32) ltac:(lia) ltac:(lia)). lia.
Qed.

Lemma spatial_index_loop_GetImageIds :
  exists location_idxs location_matrix,
    index_loop (GetImageIds images_cache_) 0 =
      Ok (location_idxs, location_matrix) /\
    length location_matrix = length location_idxs /\
    StronglySorted lt location_idxs /\
    NoDup location_idxs /\
    Forall (fun l => l < length (GetImageIds images_cache_)) location_idxs /\
    (forall j,
       j ∈ location_idxs <->
       exists image_id image,
         GetImageIds images_cache_ !! j = Some image_id /\
         images_cache_ !! image_id = Some image /\
         has_no_location ignore_z image = false).
Proof.
  destruct (spatial_index_loop_spec (GetImageIds images_cache_) 0)
    as (idxs & rows & Hrun & Hlen & Hsorted & Helem).
  { intros image_id Hin. by apply GetImageIds_elem. }
  exists idxs, rows. split; [done |]. split; [done |]. split; [done |].
  split; [by apply StronglySorted_lt_NoDup |]. split.
  - apply Forall_forall. intros j (k & id & _ & -> & Hk & _)%Helem.
    by apply lookup_lt_Some in Hk.
  - intros j. rewrite Helem. split.
    + intros (k & id & im & -> & ?). by exists id, im.
    + intros (id & im & ?). by exists j, id, im.
Qed.

(** X16. The indexing loop of [SpatialFeatureMatcher::Run] never throws on
    the ids [GetImageIds] returns.  [location_idxs] holds, in increasing
    order and without repetition, the positions of the images that the
    zero test does not skip; they are positions of [image_ids], and
    [location_matrix] gets one row for each of them. *)
Theorem spatial_index_positions :
  let image_ids := GetImageIds images_cache_ in
  exists location_idxs location_matrix,
    index_loop image_ids 0 = Ok (location_idxs, location_matrix) /\
    length location_matrix = length location_idxs /\
    StronglySorted lt location_idxs /\
    NoDup location_idxs /\
    Forall (fun l => l < length image_ids) location_idxs /\
    (forall j,
       j ∈ location_idxs <->
       exists image_id image,
         image_ids !! j = Some image_id /\
         images_cache_ !! image_id = Some image /\
         has_no_location ignore_z image = false).
Proof.
  intros image_ids. apply spatial_index_loop_GetImageIds.
Qed.

(** X17. When the nearest-neighbour search, asked for no more neighbours
    than the matrix has rows, returns indices of rows of the matrix,
    [SpatialFeatureMatcher::Run] never throws.  It calls
    [Match] once for every image with a location, and not at all when there
    is none.  In the call for the location at position [i], every pair has
    the image of that location first and the image of another location
    second, and the two images differ. *)
Theorem SpatialFeatureMatcher_Run_pairs
    (max_num_neighbors : Z) (max_distance : float) :
  (forall rows knn i j,
     (knn <= Z.of_nat (length rows))%Z ->
     i < length rows -> (Z.of_nat j < knn)%Z ->
     fst (knnSearch rows knn) i j < length rows) ->
  let image_ids := GetImageIds images_cache_ in
  exists location_idxs location_matrix calls,
    index_loop image_ids 0 = Ok (location_idxs, location_matrix) /\
    SpatialFeatureMatcher_Run EllToXYZ to_float knnSearch is_gps ignore_z
      images_cache_ max_num_neighbors max_distance = Ok calls /\
    length calls = length location_idxs /\
    forall i image_pairs,
      calls !! i = Some image_pairs ->
      Forall (fun p =>
                exists l1 l2,
                  location_idxs !! i = Some l1 /\ l2 ∈ location_idxs /\
                  image_ids !! l1 = Some (fst p) /\
                  image_ids !! l2 = Some (snd p) /\
                  fst p <> snd p)
             image_pairs.
Proof.
  intros Hknn image_ids.
  destruct spatial_index_loop_GetImageIds
    as (idxs & rows & Hrun & Hlen & _ & Hnd & Hbound & _).
  fold image_ids in Hrun, Hbound.
  exists idxs, rows. unfold SpatialFeatureMatcher_Run. fold image_ids.
  rewrite Hrun. run_bind.
  destruct (Nat.eqb_spec (length idxs) 0) as [Hzero | Hpos].
  { exists []. split; [done |]. split; [done |]. split; [by rewrite Hzero |].
    by intros i image_pairs ?. }
  set (knn := spatial_knn max_num_neighbors (length idxs)).
  destruct (knnSearch rows knn) as [index_matrix distance_matrix] eqn:Hsearch.
  assert (Hidx : forall i j, i < length idxs -> j < Z.to_nat knn ->
                             index_matrix i j < length idxs).
  { intros i j Hi Hj. rewrite <- Hlen.
    pose proof (Hknn rows knn i j) as Hk. rewrite Hsearch in Hk.
    pose proof (to_int_le (Z.of_nat (length idxs)) ltac:(lia)) as Hint.
    apply Hk; unfold knn, spatial_knn in *; lia. }
  set (g := fun i =>
         map (spatial_pair index_matrix image_ids idxs i)
           (filter (fun j' => index_matrix i j' <> i)
              (seq 0 (spatial_stop_column index_matrix distance_matrix
                        max_distance (Z.to_nat knn) i 0 - 0)))).
  exists (map g (seq 0 (length idxs))). split; [done |]. split; [| split].
  - apply result_mapM_ok. intros i Hi%elem_of_seq.
    unfold Spatial_query_pairs.
    apply (spatial_neighbor_loop_spec index_matrix distance_matrix
             max_distance image_ids idxs i); try done; [lia |].
    intros j' Hj'. apply Hidx; lia.
  - by rewrite length_map, length_seq.
  - intros i image_pairs Hcall.
    rewrite list_lookup_fmap in Hcall.
    destruct (seq 0 (length idxs) !! i) as [i' |] eqn:Hseq; [| done].
    apply lookup_seq in Hseq as [-> Hi]. cbn in Hcall. injection Hcall as <-.
    apply Forall_forall. intros p (j & -> & Hj)%list_elem_of_fmap.
    apply list_elem_of_filter in Hj as [Hother Hj].
    apply elem_of_seq in Hj.
    pose proof (spatial_stop_column_bounds index_matrix distance_matrix
                  max_distance i (Z.to_nat knn) 0) as Hstop.
    assert (Hnn : index_matrix i j < length idxs) by (apply Hidx; lia).
    pose proof (spatial_pair_not_self index_matrix image_ids idxs i j Hnd
                  (GetImageIds_NoDup images_cache_) Hbound Hi Hnn Hother)
      as Hne.
    destruct (lookup_lt_is_Some_2 idxs i Hi) as [l1 Hl1].
    destruct (lookup_lt_is_Some_2 idxs _ Hnn) as [l2 Hl2].
    destruct (lookup_lt_is_Some_2 image_ids l1
                (Forall_lookup_1 _ _ _ _ Hbound Hl1)) as [x Hx].
    destruct (lookup_lt_is_Some_2 image_ids l2
                (Forall_lookup_1 _ _ _ _ Hbound Hl2)) as [y Hy].
    exists l1, l2. unfold spatial_pair, image_at in *. cbn [fst snd] in *.
    rewrite (nth_lookup_Some _ _ _ _ Hl1), (nth_lookup_Some _ _ _ _ Hl2) in *.
    rewrite (nth_lookup_Some _ _ _ _ Hx), (nth_lookup_Some _ _ _ _ Hy) in *.
    repeat split; try done. by eapply list_elem_of_lookup_2.
Qed.

End SpatialIndexProperties.

(** ** Transitive matching: the adjacency map and the walks *)

Lemma adjacency_push_back_elem (k v a b : image_t) (adjacency : gmap N (list N)) :
  b ∈ default [] (adjacency_push_back k v adjacency !! a) <->
  b ∈ default [] (adjacency !! a) \/ (k = a /\ b = v).
Proof.
  unfold adjacency_push_back. destruct (decide (k = a)) as [<- | Hne].
  - rewrite lookup_insert_eq. simpl.
    rewrite elem_of_app, list_elem_of_singleton. split.
    + intros [? | ->]; [by left | by right].
    + intros [? | [_ ->]]; [by left | by right].
  - rewrite lookup_insert_ne by done.
    split; [by left | intros [? | [? _]]; done].
Qed.

Lemma adjacency_push_back_key (k v a : image_t) (adjacency : gmap N (list N)) :
  is_Some (adjacency_push_back k v adjacency !! a) <->
  is_Some (adjacency !! a) \/ k = a.
Proof.
  unfold adjacency_push_back. destruct (decide (k = a)) as [<- | Hne].
  - rewrite lookup_insert_eq. split; [by right | by eexists].
  - rewrite lookup_insert_ne by done.
    split; [by left | intros [? | ?]; done].
Qed.

Lemma linked_cons (x y a b : image_t) (pairs : list (image_t * image_t)) :
  linked ((x, y) :: pairs) a b <->
  (x = a /\ b = y) \/ (y = a /\ b = x) \/ linked pairs a b.
Proof.
  unfold linked. rewrite !elem_of_cons. split.
  - intros [[Heq | ?] | [Heq | ?]].
    + injection Heq as -> ->. by left.
    + right. right. by left.
    + injection Heq as -> ->. right. by left.
    + right. right. by right.
  - intros [[<- ->] | [[<- ->] | [? | ?]]].
    + left. by left.
    + right. by left.
    + left. by right.
    + right. by right.
Qed.

Lemma linked_sym (pairs : list (image_t * image_t)) (a b : image_t) :
  linked pairs a b -> linked pairs b a.
Proof. unfold linked. tauto. Qed.

Lemma adjacency_loop_elem (pairs : list (image_t * image_t)) :
  forall (adjacency : gmap N (list N)) (a b : image_t),
    b ∈ default []
          (foldl (fun adjacency image_pair =>
                    adjacency_push_back (snd image_pair) (fst image_pair)
                      (adjacency_push_back (fst image_pair) (snd image_pair)
                         adjacency))
                 adjacency pairs !! a) <->
    b ∈ default [] (adjacency !! a) \/ linked pairs a b.
Proof.
  induction pairs as [| [x y] pairs IH]; intros adjacency a b; cbn [foldl].
  - unfold linked. split; [by left |].
    intros [? | [?%elem_of_nil | ?%elem_of_nil]]; done.
  - rewrite IH. cbn [fst snd].
    rewrite !adjacency_push_back_elem, linked_cons. tauto.
Qed.

Lemma adjacency_loop_key (pairs : list (image_t * image_t)) :
  forall (adjacency : gmap N (list N)) (a : image_t),
    is_Some
      (foldl (fun adjacency image_pair =>
                adjacency_push_back (snd image_pair) (fst image_pair)
                  (adjacency_push_back (fst image_pair) (snd image_pair)
                     adjacency))
             adjacency pairs !! a) <->
    is_Some (adjacency !! a) \/ exists b, linked pairs a b.
Proof.
  induction pairs as [| [x y] pairs IH]; intros adjacency a; cbn [foldl].
  - split; [by left |].
    intros [? | [b [?%elem_of_nil | ?%elem_of_nil]]]; done.
  - rewrite IH. cbn [fst snd]. rewrite !adjacency_push_back_key. split.
    + intros [[[? | <-] | <-] | [b Hb]].
      * by left.
      * right. exists y. apply linked_cons. by left.
      * right. exists x. apply linked_cons. right. by left.
      * right. exists b. apply linked_cons. by right; right.
    + intros [? | [b Hb]]; [by left; left; left |].
      apply linked_cons in Hb as [[-> ->] | [[-> ->] | Hb]].
      * left. left. by right.
      * left. by right.
      * right. by exists b.
Qed.

Lemma build_adjacency_elem (pairs : list (image_t * image_t)) (a b : image_t) :
  b ∈ default [] (build_adjacency pairs !! a) <-> linked pairs a b.
Proof.
  unfold build_adjacency. rewrite adjacency_loop_elem, lookup_empty.
  cbn [default]. split; [| by right].
  intros [?%elem_of_nil | ?]; done.
Qed.

Lemma build_adjacency_key (pairs : list (image_t * image_t)) (a : image_t) :
  is_Some (build_adjacency pairs !! a) <-> exists b, linked pairs a b.
Proof.
  unfold build_adjacency. rewrite adjacency_loop_key, lookup_empty.
  split; [| by right]. intros [[? ?] | ?]; done.
Qed.

(** X18. The adjacency map of an iteration of
    [TransitiveFeatureMatcher::Run] lists, for an image, the images the
    database holds matches with, in either order of the pair.  Its keys are
    the images with a match, the relation is symmetric, and every listed
    neighbour is itself a key, so the test [adjacency.count(image_id2) > 0]
    never fails. *)
Theorem build_adjacency_links (existing_image_pairs : list (image_t * image_t)) :
  let adjacency := build_adjacency existing_image_pairs in
  (forall a b,
     b ∈ default [] (adjacency !! a) <-> linked existing_image_pairs a b) /\
  (forall a,
     is_Some (adjacency !! a) <-> exists b, linked existing_image_pairs a b) /\
  (forall a b,
     b ∈ default [] (adjacency !! a) -> a ∈ default [] (adjacency !! b)) /\
  (forall a b,
     b ∈ default [] (adjacency !! a) -> is_Some (adjacency !! b)).
Proof.
  intros adjacency. split; [apply build_adjacency_elem |].
  split; [apply build_adjacency_key |]. split.
  - intros a b Hab%build_adjacency_elem.
    by apply build_adjacency_elem, linked_sym.
  - intros a b Hab%build_adjacency_elem.
    apply build_adjacency_key. exists a. by apply linked_sym.
Qed.

Lemma walk_endpoints_elem (adjacency : gmap N (list N)) (a c : image_t) :
  (a, c) ∈ walk_endpoints adjacency (map_to_list adjacency) <->
  exists b, b ∈ default [] (adjacency !! a) /\ c ∈ default [] (adjacency !! b).
Proof.
  unfold walk_endpoints. rewrite list_elem_of_bind. split.
  - intros ([a' l] & Hin & Himage). cbn [fst snd] in Hin.
    apply elem_of_map_to_list in Himage.
    apply list_elem_of_bind in Hin as (b & Hin & Hb).
    apply list_elem_of_bind in Hin as (c' & Hin & Hc).
    apply list_elem_of_singleton in Hin. injection Hin as -> ->.
    exists b. by rewrite Himage.
  - intros (b & Hb & Hc).
    destruct (adjacency !! a) as [l |] eqn:Hl; [| by apply elem_of_nil in Hb].
    exists (a, l). split; [| by apply elem_of_map_to_list].
    cbn [fst snd default] in *.
    apply list_elem_of_bind. exists b. split; [| done].
    apply list_elem_of_bind. exists c. split; [| done].
    by apply list_elem_of_singleton.
Qed.

Section TransitiveRun.
Context `{External}.

Lemma first_occurrences_fresh (l : list (image_t * image_t)) :
  forall (seen : gset image_pair_t),
    NoDup (map (fun p => ImagePairToPairId (fst p) (snd p))
               (first_occurrences seen l)) /\
    (forall p, p ∈ first_occurrences seen l ->
               ImagePairToPairId (fst p) (snd p) ∉ seen) /\
    (forall p, p ∈ first_occurrences seen l -> p ∈ l) /\
    (forall p, p ∈ l ->
       ImagePairToPairId (fst p) (snd p) ∈ seen \/
       exists q, q ∈ first_occurrences seen l /\
                 ImagePairToPairId (fst q) (snd q) =
                 ImagePairToPairId (fst p) (snd p)).
Proof.
  induction l as [| x l IH]; intros seen; cbn [first_occurrences].
  - split; [constructor |]. split; [by intros ? ?%elem_of_nil |].
    split; [done |]. by intros ? ?%elem_of_nil.
  - destruct (decide (ImagePairToPairId (fst x) (snd x) ∈ seen)) as [Hin | Hnew].
    + destruct (IH seen) as (Hnd & Hfresh & Hsub & Hcov).
      split; [done |]. split; [done |]. split.
      * intros p Hp. right. by apply Hsub.
      * intros p [-> | Hp]%elem_of_cons; [by left | by apply Hcov].
    + destruct (IH ({[ImagePairToPairId (fst x) (snd x)]} ∪ seen))
        as (Hnd & Hfresh & Hsub & Hcov).
      split; [| split; [| split]].
      * cbn [map]. constructor; [| done].
        intros (q & Heq & Hq)%list_elem_of_fmap.
        apply (Hfresh q Hq). rewrite <- Heq.
        apply elem_of_union_l. by apply elem_of_singleton.
      * intros p [-> | Hp]%elem_of_cons; [done |].
        intros Hseen. apply (Hfresh p Hp). by apply elem_of_union_r.
      * intros p [-> | Hp]%elem_of_cons; [by left |]. right. by apply Hsub.
      * intros p [-> | Hp]%elem_of_cons.
        -- right. exists x. split; [by left | done].
        -- destruct (Hcov p Hp) as [Hseen | (q & Hq & Heq)].
           ++ apply elem_of_union in Hseen as [Hx%elem_of_singleton | Hseen];
                [| by left].
              right. exists x. split; [by left | done].
           ++ right. exists q. split; [by right | done].
Qed.

(** X19. In an iteration of [TransitiveFeatureMatcher::Run] with a positive
    batch size, the pairs handed to [Match], over all its calls, are end
    points of walks of length two over the matches of the database: for
    every such pair [(a, c)] some image is linked to both.  Every walk of
    length two is represented: a pair with the pair id of its end points is
    handed over, and no pair id is handed over twice.  The number of calls
    is the number of pairs divided by the batch size, rounded down, plus
    one, so [Match] is called once, with no pair, on an empty database. *)
Theorem Transitive_iteration_hands_over_walk_endpoints
    (batch_size : Z) (existing_image_pairs : list (image_t * image_t)) :
  (0 < batch_size)%Z -> is_int batch_size ->
  let calls :=
    match_calls (Transitive_iteration batch_size existing_image_pairs) in
  (forall a c,
     (a, c) ∈ concat calls ->
     exists b, linked existing_image_pairs a b /\
               linked existing_image_pairs b c) /\
  (forall a b c,
     linked existing_image_pairs a b -> linked existing_image_pairs b c ->
     exists q, q ∈ concat calls /\
               ImagePairToPairId (fst q) (snd q) = ImagePairToPairId a c) /\
  NoDup (map (fun p => ImagePairToPairId (fst p) (snd p)) (concat calls)) /\
  Z.of_nat (length calls) =
    (Z.of_nat (length (concat calls)) / batch_size + 1)%Z.
Proof.
  intros Hpos Hint calls.
  assert (Hbs : to_size_t batch_size = batch_size).
  { unfold is_int in Hint. apply to_size_t_small. lia. }
  set (adjacency := build_adjacency existing_image_pairs).
  set (W := walk_endpoints adjacency (map_to_list adjacency)).
  assert (Hcalls : exists batches residual,
            calls = batches ++ [residual] /\
            Forall (fun b => Z.of_nat (length b) = batch_size) batches /\
            (Z.of_nat (length residual) < batch_size)%Z /\
            concat calls = first_occurrences ∅ W).
  { unfold calls, Transitive_iteration, Transitive_iteration_on.
    fold adjacency. rewrite walk_loops_endpoints. fold W.
    match goal with |- context [foldl _ ?s W] =>
      destruct (visit_endpoints_batches batch_size ltac:(lia) W s)
        as (batches & Hlog & Hall & Hlen & Hcat)
    end.
    { cbn. lia. }
    rewrite Hbs in *.
    cbn [driver_log image_pairs image_pair_ids app] in Hlog, Hcat.
    eexists batches, _. rewrite Hlog, match_calls_app, match_calls_flushes.
    split; [done |]. split; [done |]. split; [done |].
    rewrite concat_app, <- Hcat. f_equal. apply app_nil_r. }
  destruct Hcalls as (batches & residual & Hsplit & Hfull & Hres & Hcat).
  destruct (first_occurrences_fresh W ∅) as (Hnd & _ & Hsub & Hcov).
  rewrite <- Hcat in Hnd, Hsub, Hcov.
  assert (HW : forall a c, (a, c) ∈ W <->
            exists b, linked existing_image_pairs a b /\
                      linked existing_image_pairs b c).
  { intros a c. unfold W. rewrite walk_endpoints_elem.
    unfold adjacency. by setoid_rewrite build_adjacency_elem. }
  split; [| split; [| split]].
  - intros a c Hin. by apply HW, Hsub.
  - intros a b c Hab Hbc.
    destruct (Hcov (a, c)) as [Hseen | Hq]; [apply HW; by exists b | | done].
    by apply not_elem_of_empty in Hseen.
  - done.
  - assert (Hlen : Z.of_nat (length (concat batches)) =
                   (Z.of_nat (length batches) * batch_size)%Z).
    { clear -Hfull. induction Hfull as [| b batches Hb _ IH]; [done |].
      cbn [concat length]. rewrite length_app. lia. }
    rewrite Hsplit, concat_app, !length_app. cbn [concat length].
    rewrite app_nil_r, !Nat2Z.inj_add, Hlen.
    rewrite (Z.add_comm (Z.of_nat (length batches) * batch_size)).
    rewrite Z.div_add by lia. rewrite Z.div_small by lia. lia.
Qed.

End TransitiveRun.

(** ** Matching of the image pairs of a list *)

Section ImagePairsProperties.
Variable StringTrim : string -> string.
Variable image_name_to_image_id : gmap string image_t.

Local Abbreviation read_lines :=
  (ImagePairs_read StringTrim image_name_to_image_id).

Lemma ImagePairs_read_app (lines1 lines2 : list string) :
  read_lines (lines1 ++ lines2) = read_lines lines1 ++ read_lines lines2.
Proof.
  induction lines1 as [| line lines1 IH]; [done |].
  cbn [app ImagePairs_read]. rewrite IH.
  destruct (string_empty _ || starts_with_hash _); [done |].
  destruct (getline_space (StringTrim line)) as [image_name1 line_stream].
  destruct (getline_space line_stream) as [image_name2 rest].
  destruct (image_name_to_image_id !! StringTrim image_name1); [| done].
  by destruct (image_name_to_image_id !! StringTrim image_name2).
Qed.

Lemma read_image_pairs_app (tr1 tr2 : list ImagePairsEvent) :
  read_image_pairs (tr1 ++ tr2) = read_image_pairs tr1 ++ read_image_pairs tr2.
Proof. apply omap_app. Qed.

(** X20. The loop that reads the list of image pairs handles every line on
    its own: the pairs read from a file are the pairs read from the lines
    before a line, the pair of that line, and the pairs read from the lines
    after it.  A line gives a pair when it is neither blank nor a comment
    and both of its names are known; otherwise it gives none, and the lines
    after it are still read. *)
Theorem ImagePairs_read_line_by_line (before after : list string)
    (line : string) :
  let trimmed := StringTrim line in
  let image_name1 := StringTrim (fst (getline_space trimmed)) in
  let image_name2 :=
    StringTrim (fst (getline_space (snd (getline_space trimmed)))) in
  read_image_pairs (read_lines (before ++ line :: after)) =
    read_image_pairs (read_lines before)
    ++ (if string_empty trimmed || starts_with_hash trimmed then []
        else
          match image_name_to_image_id !! image_name1,
                image_name_to_image_id !! image_name2 with
          | Some image_id1, Some image_id2 => [(image_id1, image_id2)]
          | _, _ => []
          end)
    ++ read_image_pairs (read_lines after).
Proof.
  intros trimmed image_name1 image_name2.
  rewrite ImagePairs_read_app, read_image_pairs_app. f_equal.
  cbn [ImagePairs_read]. fold trimmed.
  destruct (string_empty trimmed || starts_with_hash trimmed); [done |].
  subst image_name1 image_name2.
  destruct (getline_space trimmed) as [name1 line_stream]. cbn [fst snd].
  destruct (getline_space line_stream) as [name2 rest]. cbn [fst snd].
  destruct (image_name_to_image_id !! StringTrim name1); [| done].
  by destruct (image_name_to_image_id !! StringTrim name2).
Qed.

End ImagePairsProperties.

Lemma omap_lookup_seq {A} (l : list A) :
  forall (m i : nat),
    i + m <= length l ->
    omap (fun j => l !! j) (seq i m) = take m (drop i l).
Proof.
  induction m as [| m IH]; intros i Hle; [done |].
  destruct (lookup_lt_is_Some_2 l i ltac:(lia)) as [x Hx].
  cbn [seq]. rewrite (drop_S _ _ _ Hx). cbn [take].
  change (omap (fun j => l !! j) (i :: seq (S i) m))
    with (match l !! i with
          | Some y => y :: omap (fun j => l !! j) (seq (S i) m)
          | None => omap (fun j => l !! j) (seq (S i) m)
          end).
  rewrite Hx, IH by lia. done.
Qed.

Lemma ImagePairs_block_slice (image_pairs : list (image_t * image_t))
    (block_size i : nat) :
  i <= length image_pairs ->
  ImagePairs_block image_pairs block_size i =
    take block_size (drop i image_pairs).
Proof.
  intros Hi. unfold ImagePairs_block.
  destruct (Nat.leb_spec (i + block_size) (length image_pairs)) as [Hle | Hgt].
  - rewrite omap_lookup_seq by lia. f_equal. lia.
  - rewrite omap_lookup_seq by lia.
    rewrite !take_ge; [done | |]; rewrite length_drop; lia.
Qed.

Lemma ImagePairs_blocks_from (image_pairs : list (image_t * image_t))
    (block_size : nat) :
  0 < block_size ->
  forall fuel start,
    start <= length image_pairs -> length image_pairs - start <= fuel ->
    concat (map (ImagePairs_block image_pairs block_size)
                (block_starts fuel start (length image_pairs) block_size)) =
      drop start image_pairs.
Proof.
  intros Hb. induction fuel as [| fuel IH]; intros start Hstart Hfuel.
  - cbn. rewrite drop_ge; [done | lia].
  - cbn [block_starts].
    destruct (Nat.ltb_spec start (length image_pairs)) as [Hlt | Hge];
      [| rewrite drop_ge; [done | lia]].
    cbn [map concat]. rewrite ImagePairs_block_slice by lia.
    destruct (le_lt_dec (start + block_size) (length image_pairs))
      as [Hle | Hgt].
    + rewrite IH by lia.
      rewrite <- (take_drop block_size (drop start image_pairs)) at 2.
      by rewrite drop_drop.
    + assert (Hnil : block_starts fuel (start + block_size)
                       (length image_pairs) block_size = []).
      { destruct fuel; [done |]. cbn [block_starts].
        destruct (Nat.ltb_spec (start + block_size) (length image_pairs));
          [lia | done]. }
      rewrite Hnil. cbn [map concat]. rewrite app_nil_r.
      apply take_ge. rewrite length_drop. lia.
Qed.

Lemma ceil_div_mod (n b : nat) :
  0 < b ->
  (n + b - 1) / b = if n mod b =? 0 then n / b else n / b + 1.
Proof.
  intros Hb. pose proof (Nat.div_mod_eq n b) as Hdm.
  pose proof (Nat.mod_upper_bound n b ltac:(lia)) as Hr.
  destruct (Nat.eqb_spec (n mod b) 0) as [Hz | Hnz].
  - symmetry. apply (Nat.div_unique _ _ _ (b - 1)); lia.
  - symmetry. apply (Nat.div_unique _ _ _ (n mod b - 1)); lia.
Qed.

(** X21. With a positive block size, the matching loop of
    [ImagePairsFeatureMatcher::Run] hands the pairs read from the list to
    [Match] in consecutive blocks: the blocks put one after the other are
    the pairs read, in order; block [k] holds the pairs from position
    [k * block_size] on, is not empty, and holds exactly [block_size] pairs
    unless it is the last one.  The number of calls is the number of pairs
    divided by the block size, rounded up; the total [num_match_blocks] of
    the progress lines is one more than that when the block size divides
    the number of pairs. *)
Theorem ImagePairs_Run_blocks_partition (StringTrim : string -> string)
    (image_name_to_image_id : gmap string image_t) (file : list string)
    (block_size : nat) :
  0 < block_size ->
  let image_pairs :=
    read_image_pairs (ImagePairs_read StringTrim image_name_to_image_id file) in
  let blocks :=
    ImagePairsFeatureMatcher_Run StringTrim image_name_to_image_id file
      block_size in
  concat blocks = image_pairs /\
  length blocks = (length image_pairs + block_size - 1) / block_size /\
  (forall k block,
     blocks !! k = Some block ->
     block = take block_size (drop (k * block_size) image_pairs) /\
     0 < length block <= block_size /\
     (S k < length blocks -> length block = block_size)) /\
  length blocks =
    if length image_pairs mod block_size =? 0
    then num_match_blocks image_pairs block_size - 1
    else num_match_blocks image_pairs block_size.
Proof.
  intros Hb image_pairs blocks.
  assert (Hfuel : (length image_pairs - 0 + block_size - 1) / block_size
                  <= length image_pairs).
  { rewrite Nat.sub_0_r. destruct (length image_pairs) as [| n].
    - rewrite Nat.div_small; lia.
    - apply Nat.Div0.div_le_upper_bound. nia. }
  assert (Hblocks : blocks =
            map (ImagePairs_block image_pairs block_size)
              (map (fun k => 0 + k * block_size)
                 (seq 0 ((length image_pairs + block_size - 1) / block_size)))).
  { unfold blocks, ImagePairsFeatureMatcher_Run, ImagePairs_blocks.
    fold image_pairs. rewrite block_starts_seq by done.
    by rewrite Nat.sub_0_r. }
  assert (Hlen : length blocks =
                 (length image_pairs + block_size - 1) / block_size).
  { by rewrite Hblocks, !length_map, length_seq. }
  split; [| split; [done | split]].
  - unfold blocks, ImagePairsFeatureMatcher_Run, ImagePairs_blocks.
    fold image_pairs. rewrite ImagePairs_blocks_from by (done || lia). done.
  - intros k block Hk. rewrite Hblocks, !list_lookup_fmap in Hk.
    destruct (seq 0 _ !! k) as [k' |] eqn:Hseq; [| done].
    apply lookup_seq in Hseq as [-> Hlt].
    change (Some (ImagePairs_block image_pairs block_size (k * block_size))
            = Some block) in Hk.
    injection Hk as <-.
    pose proof (Nat.Div0.mul_div_le (length image_pairs + block_size - 1)
                  block_size) as Hmul.
    assert (Hstart : k * block_size < length image_pairs) by nia.
    rewrite ImagePairs_block_slice by lia.
    split; [done |]. rewrite length_take, length_drop. split; [lia |].
    rewrite Hlen. intros Hnext. nia.
  - rewrite Hlen, ceil_div_mod by done. unfold num_match_blocks.
    destruct (_ =? 0); lia.
Qed.

(** ** Import of feature pairs: what is written *)

Section FeaturePairsImport.
Context `{External}.
Variable StringTrim : string -> string.
Variable read_FeatureMatch : string -> FeatureMatch.

Local Abbreviation import_loop :=
  (FeaturePairs_loop StringTrim read_FeatureMatch).
Local Abbreviation feature_lines :=
  (read_feature_lines StringTrim read_FeatureMatch).

Lemma read_feature_lines_length (lines : list string) :
  length (snd (feature_lines lines)) <= length lines.
Proof.
  induction lines as [| line lines IH]; cbn [read_feature_lines]; [done |].
  destruct (string_empty (StringTrim line)); cbn [snd length]; [lia |].
  destruct (feature_lines lines) as [matches rest]. cbn [snd] in *. lia.
Qed.

Lemma FeaturePairs_loop_fuel (names : gmap string N) :
  forall (fuel1 fuel2 : nat) (lines : list string) (database : Cache),
    length lines <= fuel1 -> length lines <= fuel2 ->
    import_loop fuel1 names lines database =
    import_loop fuel2 names lines database.
Proof.
  induction fuel1 as [| fuel1 IH]; intros fuel2 lines database H1 H2.
  - destruct lines; [| cbn in H1; lia]. by destruct fuel2.
  - destruct fuel2 as [| fuel2].
    { destruct lines; [done | cbn in H2; lia]. }
    cbn [FeaturePairs_loop]. destruct lines as [| line lines]; [done |].
    cbn [length] in H1, H2.
    destruct (string_empty (StringTrim line)); [apply IH; lia |].
    destruct (extract_word (StringTrim line)) as [image_name1 line_stream].
    destruct (extract_word line_stream) as [image_name2 rest].
    destruct (names !! image_name1) as [image1 |]; [| done].
    destruct (names !! image_name2) as [image2 |]; [| done].
    pose proof (read_feature_lines_length lines) as Hlen.
    destruct (feature_lines lines) as [matches lines']. cbn [snd] in Hlen.
    destruct (ExistsMatches database image1 image2).
    + by rewrite (IH fuel2) by lia.
    + by rewrite (IH fuel2) by lia.
Qed.

Lemma FeaturePairs_loop_writes (names : gmap string N) :
  forall (fuel : nat) (lines : list string) (database : Cache),
    fst (import_loop fuel names lines database) =
      apply_writes database
        (import_writes (snd (import_loop fuel names lines database))) /\
    writes_fresh database
      (import_writes (snd (import_loop fuel names lines database))) /\
    Forall (fun w => (exists image_name1, names !! image_name1 = Some (fst (fst w))) /\
                     (exists image_name2, names !! image_name2 = Some (snd (fst w))))
      (import_writes (snd (import_loop fuel names lines database))).
Proof.
  induction fuel as [| fuel IH]; intros lines database;
    cbn [FeaturePairs_loop]; [by repeat split |].
  destruct lines as [| line lines]; [by repeat split |].
  destruct (string_empty (StringTrim line)); [apply IH |].
  destruct (extract_word (StringTrim line)) as [image_name1 line_stream].
  destruct (extract_word line_stream) as [image_name2 rest].
  destruct (names !! image_name1) as [image1 |] eqn:Hname1;
    [| by repeat split].
  destruct (names !! image_name2) as [image2 |] eqn:Hname2;
    [| by repeat split].
  destruct (feature_lines lines) as [matches lines'].
  destruct (ExistsMatches database image1 image2) eqn:Hexists.
  - specialize (IH lines' database).
    destruct (import_loop fuel names lines' database) as [database' tr].
    exact IH.
  - specialize (IH lines' (WriteMatches database image1 image2 matches)).
    destruct (import_loop fuel names lines'
                (WriteMatches database image1 image2 matches))
      as [database' tr].
    cbn [fst snd] in *. destruct IH as (Hdb & Hfresh & Hnames).
    change (import_writes (ImportWriteMatches image1 image2 matches :: tr))
      with ((image1, image2, matches) :: import_writes tr).
    split; [done |]. split; [done |].
    constructor; [| done]. cbn [fst snd]. split; by eexists.
Qed.

(** X22. The import of feature pairs changes the database by its writes
    only: the database after [FeaturePairsFeatureMatcher::Run] is the one
    before it with the reported writes made in order.  No write is for a
    pair that has matches in the database at the moment it is made, so
    matches are never overwritten, and both images of every write are images
    the name map knows. *)
Theorem FeaturePairs_Run_writes_only_new_matches
    (image_name_to_image : gmap string N) (file : list string)
    (database : Cache) :
  let run :=
    FeaturePairsFeatureMatcher_Run StringTrim read_FeatureMatch
      image_name_to_image file database in
  fst run = apply_writes database (import_writes (snd run)) /\
  writes_fresh database (import_writes (snd run)) /\
  Forall (fun w =>
            (exists image_name1,
               image_name_to_image !! image_name1 = Some (fst (fst w))) /\
            (exists image_name2,
               image_name_to_image !! image_name2 = Some (snd (fst w))))
    (import_writes (snd run)).
Proof. apply FeaturePairs_loop_writes. Qed.

(** X23. The import reads every line of the file at most once: the loop of
    [FeaturePairsFeatureMatcher::Run] is over after at most as many turns
    as the file has lines, and more turns change neither the database nor
    what is reported. *)
Theorem FeaturePairs_Run_reads_each_line_once
    (image_name_to_image : gmap string N) (file : list string)
    (database : Cache) (fuel : nat) :
  length file <= fuel ->
  FeaturePairs_loop StringTrim read_FeatureMatch fuel image_name_to_image
    file database =
  FeaturePairsFeatureMatcher_Run StringTrim read_FeatureMatch
    image_name_to_image file database.
Proof.
  intros Hfuel. unfold FeaturePairsFeatureMatcher_Run.
  by apply FeaturePairs_loop_fuel.
Qed.

End FeaturePairsImport.

(** ** The properties on the reference instance *)

Lemma ref_database_keeps_matches : @Database_keeps_matches ref_external.
Proof.
  split; [done |]. split.
  - intros c a b m.
    change (existsb (fun r => (fst r =? ref_pair_id a b)%N)
              (c ++ [(ref_pair_id a b, m)]) = true).
    rewrite existsb_app. cbn [existsb fst].
    rewrite N.eqb_refl. by rewrite orb_true_r.
  - intros c a b m a' b' Hex.
    change (existsb (fun r => (fst r =? ref_pair_id a' b')%N) c = true) in Hex.
    change (existsb (fun r => (fst r =? ref_pair_id a' b')%N)
              (c ++ [(ref_pair_id a b, m)]) = true).
    by rewrite existsb_app, Hex.
Qed.

Lemma Match_writes_every_pushed_pair_once_witness :
  exists s' tr,
    Match (fun i => (2 * i, i)) [(1, 2); (2, 3); (2, 1); (1, 3)]%N
      (ref_pool [CPUMatcher] []) = Ok (s', tr) /\
    map (fun w => (fst (fst w), snd (fst w))) (written_matches tr)
      ≡ₚ map job_ids (pushed_jobs tr).
Proof.
  apply (@Match_writes_every_pushed_pair_once ref_external).
  repeat split; discriminate.
Defined.

Lemma Match_pushes_distinct_pair_ids_witness :
  exists s' tr,
    Match (fun i => (i, i)) [(1, 2); (2, 3); (2, 1); (1, 3)]%N
      (ref_pool [CPUMatcher] [(ref_pair_id 1 3, [])]) = Ok (s', tr) /\
    NoDup (map (fun d => ref_pair_id (image_id1 d) (image_id2 d))
               (pushed_jobs tr)).
Proof.
  apply (@Match_pushes_distinct_pair_ids ref_external).
  repeat split; discriminate.
Defined.

Lemma Match_again_pushes_nothing_witness :
  exists s1 tr1 s2 tr2,
    Match (fun i => (i, i)) [(1, 2); (2, 3)]%N (ref_pool [CPUMatcher] [])
      = Ok (s1, tr1) /\
    @matches_kept ref_external [] (cache_ s1) /\
    (forall d, d ∈ pushed_jobs tr1 ->
               @ExistsMatches ref_external (cache_ s1) (image_id1 d)
                 (image_id2 d) = true) /\
    Match (fun i => (2 * i, i)) [(1, 2); (2, 3)]%N s1 = Ok (s2, tr2) /\
    pushed_jobs tr2 = [] /\ popped_results tr2 = [] /\
    written_matches tr2 = [].
Proof.
  apply (@Match_again_pushes_nothing ref_external).
  - exact ref_database_keeps_matches.
  - repeat split; discriminate.
Defined.

Lemma Match_calls_after_Setup_witness :
  exists s' tr,
    Match_calls
      [(fun i => (i, i), [(1, 2); (2, 3)]%N); (fun i => (i, i), []);
       (fun i => (2 * i, i), [(1, 3)]%N)]
      (snd (Setup 8192 true
              {| options_ := ref_options; cache_ := []; is_setup_ := false;
                 matchers_ := [CPUMatcher; CPUMatcher];
                 matcher_queue_ := JobQueue_new;
                 output_queue_ := JobQueue_new |}))
      = Ok (s', tr) /\
    pool_idle s'.
Proof.
  apply (@Match_calls_after_Setup ref_external ref_platform ref_options []
           0%N).
  reflexivity.
Defined.

Lemma Exhaustive_Run_calls_Match_for_every_block_pair_witness :
  length (ExhaustiveFeatureMatcher_Run [11; 12; 13; 14; 15]%N 2) =
    exhaustive_num_blocks 5 2 * exhaustive_num_blocks 5 2 /\
  ([11; 12; 13; 14; 15]%N = [] ->
   ExhaustiveFeatureMatcher_Run [11; 12; 13; 14; 15]%N 2 = []).
Proof.
  apply (Exhaustive_Run_calls_Match_for_every_block_pair
           [11; 12; 13; 14; 15]%N 2).
  lia.
Defined.

Lemma Exhaustive_Run_number_of_pairs_witness :
  2 * length (concat (ExhaustiveFeatureMatcher_Run [11; 12; 13; 14; 15]%N 2))
    = 5 * (5 - 1).
Proof.
  apply (Exhaustive_Run_number_of_pairs [11; 12; 13; 14; 15]%N 2). lia.
Defined.

Lemma Exhaustive_Run_matches_every_image_pair_once_witness :
  let pairs := concat (ExhaustiveFeatureMatcher_Run [11; 12; 13; 14; 15]%N 2) in
  NoDup pairs /\
  (forall a b, (a, b) ∈ pairs ->
     a ∈ [11; 12; 13; 14; 15]%N /\ b ∈ [11; 12; 13; 14; 15]%N /\ a <> b /\
     (b, a) ∉ pairs) /\
  (forall a b, a ∈ [11; 12; 13; 14; 15]%N -> b ∈ [11; 12; 13; 14; 15]%N ->
     a <> b -> (a, b) ∈ pairs \/ (b, a) ∈ pairs).
Proof.
  apply (Exhaustive_Run_matches_every_image_pair_once
           [11; 12; 13; 14; 15]%N 2).
  - lia.
  - apply (bool_decide_unpack _). by vm_compute.
Defined.

Lemma Exhaustive_Run_block_locality_witness :
  Forall (fun block =>
            exists start_idx1 start_idx2,
              forall idx1 idx2, (idx1, idx2) ∈ block ->
                start_idx1 <= idx1 < start_idx1 + 2 /\
                start_idx2 <= idx2 < start_idx2 + 2 /\
                idx1 < 5 /\ idx2 < 5)
         (Exhaustive_Run_blocks 5 2).
Proof. apply (Exhaustive_Run_block_locality 5 2). lia. Defined.

Lemma RunSequentialMatching_stays_in_bounds_witness :
  RunSequentialMatching 2 true [11; 12; 13; 14]%N =
    Ok (map (RunSequentialMatching_pairs 2 true [11; 12; 13; 14]%N)
            (seq 0 4)) /\
  forall image_idx1, image_idx1 < 4 ->
    Forall (fun p =>
              fst p = image_at [11; 12; 13; 14]%N image_idx1 /\
              exists image_idx2,
                image_idx1 <= image_idx2 < 4 /\
                snd p = image_at [11; 12; 13; 14]%N image_idx2)
           (RunSequentialMatching_pairs 2 true [11; 12; 13; 14]%N image_idx1)
    /\
    length (RunSequentialMatching_pairs 2 true [11; 12; 13; 14]%N image_idx1)
      <= 2 * Z.to_nat 2.
Proof.
  apply (RunSequentialMatching_stays_in_bounds 2 true [11; 12; 13; 14]%N).
  - lia.
  - vm_compute. discriminate.
Defined.

Lemma GetOrderedImageIds_permutes_the_image_ids_witness :
  exists ordered_image_ids,
    GetOrderedImageIds ref_sort_by_name (Setup_images_cache ref_images) =
      Ok ordered_image_ids /\
    ordered_image_ids ≡ₚ GetImageIds (Setup_images_cache ref_images) /\
    NoDup ordered_image_ids /\
    (forall image_id,
       image_id ∈ ordered_image_ids <-> image_id ∈ map ImageId ref_images).
Proof.
  apply (GetOrderedImageIds_permutes_the_image_ids ref_sort_by_name ref_images).
  intros l. apply merge_sort_Permutation.
Defined.

Lemma SpatialFeatureMatcher_Run_pairs_witness :
  let images_cache_ := Setup_images_cache ref_images in
  let image_ids := GetImageIds images_cache_ in
  exists location_idxs location_matrix calls,
    spatial_index_loop (fun ell => ell) (fun x => x) false false images_cache_
      image_ids 0 = Ok (location_idxs, location_matrix) /\
    SpatialFeatureMatcher_Run (fun ell => ell) (fun x => x) ref_knnSearch
      false false images_cache_ 2 (S754_finite false 8388608 (-21))
      = Ok calls /\
    length calls = length location_idxs /\
    forall i image_pairs,
      calls !! i = Some image_pairs ->
      Forall (fun p =>
                exists l1 l2,
                  location_idxs !! i = Some l1 /\ l2 ∈ location_idxs /\
                  image_ids !! l1 = Some (fst p) /\
                  image_ids !! l2 = Some (snd p) /\
                  fst p <> snd p)
             image_pairs.
Proof.
  intros images_cache_.
  apply (SpatialFeatureMatcher_Run_pairs (fun ell => ell) (fun x => x)
           ref_knnSearch false false images_cache_ 2
           (S754_finite false 8388608 (-21))).
  intros rows knn i j _ Hi _. cbn [ref_knnSearch fst].
  apply Nat.mod_upper_bound. lia.
Defined.

Lemma Transitive_iteration_hands_over_walk_endpoints_witness :
  let existing_image_pairs := [(1, 2); (2, 3); (3, 4)]%N in
  let calls := match_calls (Transitive_iteration 2 existing_image_pairs) in
  (forall a c,
     (a, c) ∈ concat calls ->
     exists b, linked existing_image_pairs a b /\
               linked existing_image_pairs b c) /\
  (forall a b c,
     linked existing_image_pairs a b -> linked existing_image_pairs b c ->
     exists q, q ∈ concat calls /\
               ref_pair_id (fst q) (snd q) = ref_pair_id a c) /\
  NoDup (map (fun p => ref_pair_id (fst p) (snd p)) (concat calls)) /\
  Z.of_nat (length calls) = (Z.of_nat (length (concat calls)) / 2 + 1)%Z.
Proof.
  intros existing_image_pairs.
  apply (@Transitive_iteration_hands_over_walk_endpoints ref_external 2
           existing_image_pairs).
  - lia.
  - unfold is_int. lia.
Defined.

Lemma ImagePairs_Run_blocks_partition_witness :
  let file := ["A B"; "# A A"; "B A"; "A X"; EmptyString; "B B"]%string in
  let image_pairs :=
    read_image_pairs (ImagePairs_read ref_StringTrim ref_names file) in
  let blocks := ImagePairsFeatureMatcher_Run ref_StringTrim ref_names file 2 in
  concat blocks = image_pairs /\
  length blocks = (length image_pairs + 2 - 1) / 2 /\
  (forall k block,
     blocks !! k = Some block ->
     block = take 2 (drop (k * 2) image_pairs) /\
     0 < length block <= 2 /\
     (S k < length blocks -> length block = 2)) /\
  length blocks =
    if length image_pairs mod 2 =? 0
    then num_match_blocks image_pairs 2 - 1
    else num_match_blocks image_pairs 2.
Proof.
  intros file.
  apply (ImagePairs_Run_blocks_partition ref_StringTrim ref_names file 2).
  lia.
Defined.

Lemma FeaturePairs_Run_reads_each_line_once_witness :
  let file := ["A B"; "17 4"; "3 5"; EmptyString; "B A"; "1 1"]%string in
  @FeaturePairs_loop ref_external ref_StringTrim ref_read_FeatureMatch 9
    ref_names file [] =
  @FeaturePairsFeatureMatcher_Run ref_external ref_StringTrim
    ref_read_FeatureMatch ref_names file [].
Proof.
  intros file.
  apply (@FeaturePairs_Run_reads_each_line_once ref_external ref_StringTrim
           ref_read_FeatureMatch ref_names file [] 9).
  cbn. lia.
Defined.

(** ** What the database holds after the calls of [Match] *)

Section MatchPostcondition.
Context `{External}.

Lemma Match_enqueued_covers (c : Cache) :
  ExistsMatches_by_pair_id ->
  forall (P : list (image_t * image_t)) (ids : gset N) (p : image_t * image_t),
    p ∈ P -> fst p <> snd p ->
    ImagePairToPairId (fst p) (snd p) ∈ ids \/
    ExistsMatches c (fst p) (snd p) = true \/
    exists q, q ∈ Match_enqueued c ids P /\
              ImagePairToPairId (fst q) (snd q) =
              ImagePairToPairId (fst p) (snd p).
Proof.
  intros Hlaw. induction P as [| [a b] rest IH]; intros ids p Hp Hne.
  { by apply elem_of_nil in Hp. }
  cbn [Match_enqueued fst snd].
  apply elem_of_cons in Hp as [-> | Hp]; cbn [fst snd] in *.
  - destruct (N.eqb_spec a b) as [Heq | _]; [done |].
    destruct (decide (ImagePairToPairId a b ∈ ids)) as [Hin | Hnew];
      [by left |].
    destruct (ExistsMatches c a b) eqn:Ec; [by right; left |].
    right. right. exists (a, b). split; [by left | done].
  - destruct (N.eqb_spec a b) as [Heq | _]; [by apply IH |].
    destruct (decide (ImagePairToPairId a b ∈ ids)) as [Hin | Hnew];
      [by apply IH |].
    destruct (IH ({[ImagePairToPairId a b]} ∪ ids) p Hp Hne)
      as [Hseen | [Hex | (q & Hq & Hid)]].
    + apply elem_of_union in Hseen as [Hsame%elem_of_singleton | Hseen];
        [| by left].
      destruct (ExistsMatches c a b) eqn:Ec.
      * right. left. by rewrite (Hlaw c _ _ a b Hsame).
      * right. right. exists (a, b). split; [by left | done].
    + by right; left.
    + right. right. exists q. split; [| done].
      destruct (ExistsMatches c a b); [done | by right].
Qed.

Lemma Match_idle_matches (sched : nat -> nat * nat)
    (P : list (image_t * image_t)) (s : SiftFeatureMatcher) :
  ExistsMatches_by_pair_id -> Database_keeps_matches -> pool_idle s ->
  exists s' tr,
    Match sched P s = Ok (s', tr) /\
    pool_idle s' /\
    matches_kept (cache_ s) (cache_ s') /\
    (forall a b, (a, b) ∈ P -> a <> b ->
                 ExistsMatches (cache_ s') a b = true).
Proof.
  intros Hlaw Hkeeps Hidle.
  destruct (Match_idle_spec sched P s Hidle)
    as (s' & tr & E & Hidle' & Hpush & _).
  destruct (Match_idle_delivers sched P s Hidle) as (s1 & tr1 & E1 & _ & Hdb).
  rewrite E in E1. injection E1 as <- <-.
  destruct (Hdb Hkeeps) as [Hkept Hall].
  exists s', tr. split; [done |]. split; [done |]. split; [done |].
  intros a b Hin Hne.
  destruct (Match_enqueued_covers (cache_ s) Hlaw P ∅ (a, b) Hin Hne)
    as [Hseen | [Hex | (q & Hq & Hid)]]; cbn [fst snd] in *.
  - by apply not_elem_of_empty in Hseen.
  - by apply Hkept.
  - rewrite <- (Hlaw (cache_ s') _ _ _ _ Hid).
    apply (Hall (new_job q)). rewrite Hpush. by apply list_elem_of_fmap_2.
Qed.

Lemma Match_calls_matches
    (calls : list ((nat -> nat * nat) * list (image_t * image_t))) :
  ExistsMatches_by_pair_id -> Database_keeps_matches ->
  forall s, pool_idle s ->
    exists s' tr,
      Match_calls calls s = Ok (s', tr) /\
      pool_idle s' /\
      matches_kept (cache_ s) (cache_ s') /\
      (forall a b, (a, b) ∈ concat (map snd calls) -> a <> b ->
                   ExistsMatches (cache_ s') a b = true).
Proof.
  intros Hlaw Hkeeps.
  induction calls as [| [sched P] calls IH]; intros s Hidle.
  - exists s, []. split; [done |]. split; [done |]. split; [by intros a b |].
    by intros a b ?%elem_of_nil.
  - cbn [Match_calls map concat snd].
    destruct (Match_idle_matches sched P s Hlaw Hkeeps Hidle)
      as (s1 & tr1 & E1 & Hidle1 & Hkept1 & Hall1).
    rewrite E1. run_bind.
    destruct (IH s1 Hidle1) as (s2 & tr2 & E2 & Hidle2 & Hkept2 & Hall2).
    rewrite E2. run_bind.
    exists s2, (tr1 ++ tr2). split; [done |]. split; [done |]. split.
    + intros a b Hex. by apply Hkept2, Hkept1.
    + intros a b [Hin | Hin]%elem_of_app Hne.
      * by apply Hkept2, Hall1.
      * by apply Hall2.
Qed.

(** X24. With a database that looks match records up by pair id and keeps
    them: a call of [Match] on an idle pool returns, loses no match record,
    and afterwards the database holds matches for every pair of different
    images of the pair list, whether the pair was matched by this call,
    had matches before, or shares its pair id with an earlier pair of the
    list. *)
Theorem Match_leaves_matches_for_every_pair (sched : nat -> nat * nat)
    (P : list (image_t * image_t)) (s : SiftFeatureMatcher) :
  ExistsMatches_by_pair_id -> Database_keeps_matches -> pool_idle s ->
  exists s' tr,
    Match sched P s = Ok (s', tr) /\
    pool_idle s' /\
    matches_kept (cache_ s) (cache_ s') /\
    (forall a b, (a, b) ∈ P -> a <> b ->
                 ExistsMatches (cache_ s') a b = true).
Proof. apply Match_idle_matches. Qed.

Lemma Exhaustive_Run_covers (image_ids : list image_t) (block_size : nat)
    (a b : image_t) :
  0 < block_size -> a ∈ image_ids -> b ∈ image_ids -> a <> b ->
  (a, b) ∈ concat (ExhaustiveFeatureMatcher_Run image_ids block_size) \/
  (b, a) ∈ concat (ExhaustiveFeatureMatcher_Run image_ids block_size).
Proof.
  intros Hbs Ha Hb Hne.
  assert (Hmem : forall i j, i < length image_ids -> j < length image_ids ->
            exhaustive_emit block_size i j = true ->
            (image_at image_ids i, image_at image_ids j)
              ∈ concat (ExhaustiveFeatureMatcher_Run image_ids block_size)).
  { intros i j Hi Hj E. unfold ExhaustiveFeatureMatcher_Run, image_pairs_of.
    rewrite <- concat_map.
    fold (Exhaustive_Run_pairs (length image_ids) block_size).
    apply list_elem_of_fmap. exists (i, j). split; [done |].
    by apply Exhaustive_Run_pairs_elem. }
  apply list_elem_of_lookup_1 in Ha as [i Hi].
  apply list_elem_of_lookup_1 in Hb as [j Hj].
  pose proof (lookup_lt_Some _ _ _ Hi) as Hi_lt.
  pose proof (lookup_lt_Some _ _ _ Hj) as Hj_lt.
  assert (Hij : i <> j) by (intros ->; congruence).
  assert (Hai : a = image_at image_ids i)
    by (unfold image_at; by rewrite (nth_lookup_Some _ _ _ _ Hi)).
  assert (Hbj : b = image_at image_ids j)
    by (unfold image_at; by rewrite (nth_lookup_Some _ _ _ _ Hj)).
  subst a b.
  destruct (exhaustive_emit block_size i j) eqn:E.
  - left. by apply Hmem.
  - right. apply Hmem; [done | done |].
    apply exhaustive_emit_rule.
    assert (Hno : ~ ((j < i /\ i mod block_size <= j mod block_size) \/
                     (i < j /\ i mod block_size < j mod block_size))).
    { rewrite <- exhaustive_emit_rule. by rewrite E. }
    lia.
Qed.

(** X25. Exhaustive matching matches all images with each other.  With a
    database that looks match records up by pair id and keeps them, a
    positive block size and an idle pool: the calls of [Match] that
    [ExhaustiveFeatureMatcher::Run] makes all return, whatever the order in
    which the workers deliver in each of them, no match record is lost, and
    afterwards the database holds matches for any two different images, in
    one order or the other. *)
Theorem Exhaustive_Run_leaves_matches_for_all_images
    (calls : list ((nat -> nat * nat) * list (image_t * image_t)))
    (image_ids : list image_t) (block_size : nat) (s : SiftFeatureMatcher) :
  ExistsMatches_by_pair_id -> Database_keeps_matches -> pool_idle s ->
  0 < block_size ->
  map snd calls = ExhaustiveFeatureMatcher_Run image_ids block_size ->
  exists s' tr,
    Match_calls calls s = Ok (s', tr) /\
    pool_idle s' /\
    matches_kept (cache_ s) (cache_ s') /\
    (forall a b, a ∈ image_ids -> b ∈ image_ids -> a <> b ->
       ExistsMatches (cache_ s') a b = true \/
       ExistsMatches (cache_ s') b a = true).
Proof.
  intros Hlaw Hkeeps Hidle Hbs Hcalls.
  destruct (Match_calls_matches calls Hlaw Hkeeps s Hidle)
    as (s' & tr & E & Hidle' & Hkept & Hall).
  exists s', tr. split; [done |]. split; [done |]. split; [done |].
  intros a b Ha Hb Hne. rewrite Hcalls in Hall.
  destruct (Exhaustive_Run_covers image_ids block_size a b Hbs Ha Hb Hne)
    as [Hin | Hin].
  - left. by apply Hall.
  - right. by apply Hall.
Qed.

(** X26. Matching the pairs of a list matches every pair of the list.  With
    a database that looks match records up by pair id and keeps them, a
    positive block size and an idle pool: the calls of [Match] that
    [ImagePairsFeatureMatcher::Run] makes all return, and afterwards the
    database holds matches for every pair of different images read from the
    list. *)
Theorem ImagePairs_Run_leaves_matches_for_the_list
    (calls : list ((nat -> nat * nat) * list (image_t * image_t)))
    (StringTrim : string -> string)
    (image_name_to_image_id : gmap string image_t) (file : list string)
    (block_size : nat) (s : SiftFeatureMatcher) :
  ExistsMatches_by_pair_id -> Database_keeps_matches -> pool_idle s ->
  0 < block_size ->
  map snd calls =
    ImagePairsFeatureMatcher_Run StringTrim image_name_to_image_id file
      block_size ->
  exists s' tr,
    Match_calls calls s = Ok (s', tr) /\
    pool_idle s' /\
    matches_kept (cache_ s) (cache_ s') /\
    (forall a b,
       (a, b) ∈ read_image_pairs
                  (ImagePairs_read StringTrim image_name_to_image_id file) ->
       a <> b -> ExistsMatches (cache_ s') a b = true).
Proof.
  intros Hlaw Hkeeps Hidle Hbs Hcalls.
  destruct (Match_calls_matches calls Hlaw Hkeeps s Hidle)
    as (s' & tr & E & Hidle' & Hkept & Hall).
  exists s', tr. split; [done |]. split; [done |]. split; [done |].
  intros a b Hin Hne. apply Hall; [| done]. rewrite Hcalls.
  unfold ImagePairsFeatureMatcher_Run, ImagePairs_blocks.
  rewrite ImagePairs_blocks_from by (done || lia). done.
Qed.

End MatchPostcondition.

Lemma Match_leaves_matches_for_every_pair_witness :
  exists s' tr,
    Match (fun i => (2 * i, i)) [(1, 2); (2, 1); (3, 3); (1, 3)]%N
      (ref_pool [CPUMatcher] [(ref_pair_id 1 3, [])]) = Ok (s', tr) /\
    pool_idle s' /\
    @matches_kept ref_external [(ref_pair_id 1 3, [])] (cache_ s') /\
    (forall a b, (a, b) ∈ [(1, 2); (2, 1); (3, 3); (1, 3)]%N -> a <> b ->
                 @ExistsMatches ref_external (cache_ s') a b = true).
Proof.
  apply (@Match_leaves_matches_for_every_pair ref_external).
  - exact ref_existence_by_pair_id.
  - exact ref_database_keeps_matches.
  - repeat split; discriminate.
Defined.

Lemma Exhaustive_Run_leaves_matches_for_all_images_witness :
  exists s' tr,
    Match_calls
      (map (fun block => (fun i => (i, i), block))
         (ExhaustiveFeatureMatcher_Run [11; 12; 13; 14; 15]%N 2))
      (ref_pool [CPUMatcher] []) = Ok (s', tr) /\
    pool_idle s' /\
    @matches_kept ref_external [] (cache_ s') /\
    (forall a b, a ∈ [11; 12; 13; 14; 15]%N -> b ∈ [11; 12; 13; 14; 15]%N ->
       a <> b ->
       @ExistsMatches ref_external (cache_ s') a b = true \/
       @ExistsMatches ref_external (cache_ s') b a = true).
Proof.
  apply (@Exhaustive_Run_leaves_matches_for_all_images ref_external
           _ [11; 12; 13; 14; 15]%N 2).
  - exact ref_existence_by_pair_id.
  - exact ref_database_keeps_matches.
  - repeat split; discriminate.
  - lia.
  - reflexivity.
Defined.

Lemma ImagePairs_Run_leaves_matches_for_the_list_witness :
  let file := ["A B"; "# A A"; "B A"; "A X"; EmptyString; "B B"]%string in
  exists s' tr,
    Match_calls
      (map (fun block => (fun i => (i, i), block))
         (ImagePairsFeatureMatcher_Run ref_StringTrim ref_names file 2))
      (ref_pool [CPUMatcher] []) = Ok (s', tr) /\
    pool_idle s' /\
    @matches_kept ref_external [] (cache_ s') /\
    (forall a b,
       (a, b) ∈ read_image_pairs
                  (ImagePairs_read ref_StringTrim ref_names file) ->
       a <> b -> @ExistsMatches ref_external (cache_ s') a b = true).
Proof.
  intros file.
  apply (@ImagePairs_Run_leaves_matches_for_the_list ref_external
           _ ref_StringTrim ref_names file 2).
  - exact ref_existence_by_pair_id.
  - exact ref_database_keeps_matches.
  - repeat split; discriminate.
  - lia.
  - reflexivity.
Defined.


(** Options with a negative bound on the number of matches fail [Check] on
    the reference platform, and the constructor of the pool aborts; with GPU
    workers and the single index [-1] it creates one worker for the one CUDA
    device of the platform, and without GPU one worker for every thread. *)
Example scenario_constructor_checks :
  SiftFeatureMatcher_new ref_platform
    {| min_num_matches := -1; max_num_matches := 100; num_threads := 4;
       use_gpu := false; gpu_index := "-1" |} [] 0%N = CheckFailed /\
  match SiftFeatureMatcher_new ref_platform
          {| min_num_matches := 4; max_num_matches := 100; num_threads := 4;
             use_gpu := true; gpu_index := "-1" |} [] 0%N with
  | Ok s => length (matchers_ s) = 1
  | _ => False
  end /\
  match SiftFeatureMatcher_new ref_platform
          {| min_num_matches := 4; max_num_matches := 100; num_threads := 4;
             use_gpu := false; gpu_index := "-1" |} [] 0%N with
  | Ok s => length (matchers_ s) = 4
  | _ => False
  end.
Proof. by vm_compute. Qed.
